(** * Truck packing (ml_service/bin_packing.py)

    [pack_cluster farmers capacity] is a best-fit-decreasing packer.  It
    keeps the farmers with a positive load, sorts them by load (largest
    first), and gives each one to the fullest truck that still has room,
    opening a new truck when none has.

    The function is embedded three times.
    - On values, with exact numbers ([pack_cluster]): lists and dicts are
      values, every statement of the source is a step in the exception
      monad [result].  The claims about which lists are accepted, about
      the order of the result and about which farmers are packed are
      proved on this embedding.
    - On values, with binary64 numbers ([B64.pack_cluster]): the same
      steps, the subtractions of lines 33 and 41 rounded to the nearest
      double.  The claims that depend on the arithmetic (the capacity
      bound, the remaining capacities) are proved on this embedding;
      [b64_pack_cluster_whole] shows that it agrees with the first one on
      whole numbers up to 2^53.
    - On a store of objects ([Store.pack_cluster]): lists and dicts are
      objects behind references; [sort], [append] and [-=] write to the
      store.  The claim about the inputs being left alone is proved here,
      and [store_run_refines] shows that it returns what the first
      embedding returns.

    Modelling choices.
    - A Python dict is a finite map [gmap string value].
    - A Python number is a rational ([Q]); a float is the rational that it
      is exactly.  [VNum x] stands for any value that [float()] coerces to
      [x] (an int, a float or a numeric string); [VStr s] used as a load
      stands for a string that [float()] rejects, such as "bad".  The
      capacity is the number that line 41 subtracts from: the argument
      when it is a float, the float that the subtraction converts it to
      when it is an int.
      Infinities and NaN are not values of the model.  Comparisons of
      floats are exact, so only subtraction and division need care: in the
      first and the third embedding they are exact, in the second they are
      rounded by [round64].
    - [list.sort] is a stable sort that compares keys with [<] only.
    - An exception is a value of [result]; nothing is caught in the source,
      so the first exception ends the call. *)

From Stdlib Require Import QArith Qabs Lqa Qround.
From Stdlib Require PrimFloat FloatOps SpecFloat.
From stdpp Require Import gmap strings list sorting.

Local Open Scope Q_scope.

(** ** Python values, exceptions *)

Definition loc := positive.

Inductive value : Type :=
| VNum (x : Q)
| VStr (s : string)
| VNone
| VRef (l : loc).

#[global] Instance Q_eq_dec : EqDecision Q.
Proof. solve_decision. Defined.

#[global] Instance value_eq_dec : EqDecision value.
Proof. solve_decision. Defined.

Inductive exn : Type :=
| ValueError
| TypeError
| KeyError
| AttributeError.

Inductive result (A : Type) : Type :=
| Ok (a : A)
| Raise (e : exn).
Arguments Ok {A} a.
Arguments Raise {A} e.

Definition bind {A B : Type} (m : result A) (k : A → result B) : result B :=
  match m with
  | Ok a => k a
  | Raise e => Raise e
  end.

Notation "'let*' x ':=' m 'in' k" := (bind m (λ x, k))
  (at level 10, x name, m at level 100, k at level 200).

(** [[g(x) for x in l]] where [g] may raise: elements are visited in order. *)
Fixpoint map_result {A B : Type} (g : A → result B) (l : list A) : result (list B) :=
  match l with
  | [] => Ok []
  | x :: l' => let* y := g x in let* ys := map_result g l' in Ok (y :: ys)
  end.

(** [float(v)] *)
Definition py_float (v : value) : result Q :=
  match v with
  | VNum x => Ok x
  | VStr _ => Raise ValueError
  | VNone | VRef _ => Raise TypeError
  end.

(** [d.get(k, dflt)] and [d[k]] *)
Definition dict_get (d : gmap string value) (k : string) (dflt : value) : value :=
  default dflt (d !! k).

Definition dict_index (d : gmap string value) (k : string) : result value :=
  match d !! k with
  | Some v => Ok v
  | None => Raise KeyError
  end.

(** [a < b] on numbers; [a > b] is [Qlt_bool b a]. *)
Definition Qlt_bool (a b : Q) : bool := negb (Qle_bool b a).

(** [max(a, b)]: the first argument unless the second is greater. *)
Definition py_max (a b : Q) : Q := if Qlt_bool a b then b else a.

(** ** [list.sort(key=..., reverse=...)]

    A stable sort on precomputed keys: an element moves in front of the
    sorted rest until it meets an element that is not strictly before it.
    With [reverse] every comparison is reversed and ties keep their order. *)
Section py_sort.
Context {A : Type} (key : A → Q) (reverse : bool).

Definition before (x y : A) : bool :=
  if reverse then Qlt_bool (key y) (key x) else Qlt_bool (key x) (key y).

Fixpoint sort_insert (x : A) (l : list A) : list A :=
  match l with
  | [] => [x]
  | y :: l' => if before y x then y :: sort_insert x l' else x :: y :: l'
  end.

Definition py_sort (l : list A) : list A := foldr sort_insert [] l.

(** [y] may stay in front of [x]: [x] is not strictly before [y]. *)
Definition in_order (y x : A) : Prop := before x y = false.
End py_sort.

(** The key function may raise: keys are computed first, in list order. *)
Definition py_sort_by {A : Type} (key : A → result Q) (reverse : bool)
    (l : list A) : result (list A) :=
  let* keys := map_result key l in
  Ok (map snd (py_sort fst reverse (zip keys l))).

(** ** pack_cluster *)

Abbreviation farmer := (gmap string value).

Record truck : Type := Truck { farmers : list value; remaining : Q }.

(** Line 16: [[f for f in farmers if float(f.get("load_kg", 0)) > 0]] *)
Fixpoint valid_farmers (fs : list farmer) : result (list farmer) :=
  match fs with
  | [] => Ok []
  | f :: fs' =>
      let* x := py_float (dict_get f "load_kg" (VNum 0)) in
      let* rest := valid_farmers fs' in
      Ok (if Qlt_bool 0 x then f :: rest else rest)
  end.

(** [float(x["load_kg"])], the sort key of line 17 and the load of line 23 *)
Definition load_key (f : farmer) : result Q :=
  let* v := dict_index f "load_kg" in py_float v.

(** Lines 29-35: the scan of the sorted trucks, first fit wins. [None]
    when the loop ends with [placed] still false. *)
Fixpoint scan (f : farmer) (load : Q) (trucks : list truck)
    : result (option (list truck)) :=
  match trucks with
  | [] => Ok None
  | t :: rest =>
      if Qle_bool load (remaining t) then
        let* id := dict_index f "farmer_id" in
        Ok (Some (Truck (farmers t ++ [id]) (remaining t - load) :: rest))
      else
        let* r := scan f load rest in
        Ok (option_map (cons t) r)
  end.

(** Lines 23-42: the body of the loop over the sorted farmers. *)
Definition place (capacity : Q) (trucks : list truck) (f : farmer)
    : result (list truck) :=
  let* load := load_key f in
  let trucks := py_sort remaining false trucks in
  let* r := scan f load trucks in
  match r with
  | Some trucks' => Ok trucks'
  | None =>
      let* id := dict_index f "farmer_id" in
      Ok (trucks ++ [Truck [id] (py_max (capacity - load) 0)])
  end.

Fixpoint pack_loop (capacity : Q) (fs : list farmer) (trucks : list truck)
    : result (list truck) :=
  match fs with
  | [] => Ok trucks
  | f :: fs' =>
      let* trucks' := place capacity trucks f in
      pack_loop capacity fs' trucks'
  end.

(** The trucks at line 44, with their remaining capacities. *)
Definition pack_trucks (farmer_list : list farmer) (capacity : Q)
    : result (list truck) :=
  let* valid := valid_farmers farmer_list in
  let* sorted := py_sort_by load_key true valid in
  pack_loop capacity sorted [].

Definition pack_cluster (farmer_list : list farmer) (capacity : Q)
    : result (list (list value)) :=
  let* trucks := pack_trucks farmer_list capacity in
  Ok (map farmers trucks).

(** ** The run on well-formed input, without the exception plumbing

    On a list whose loads are all absent or numeric, and whose farmers with
    a positive load all have an id, no step raises; the run is then the
    left fold of [put] over the sorted valid farmers. *)

(** The load and the id of a farmer, as the loop reads them. *)
Definition load_of (f : farmer) : Q :=
  match f !! "load_kg" with
  | Some (VNum x) => x
  | _ => 0
  end.

Definition id_of (f : farmer) : value := default VNone (f !! "farmer_id").

(** Line 16 keeps the farmers with a load above zero. *)
Definition is_valid (f : farmer) : bool := Qlt_bool 0 (load_of f).

(** What [pack_cluster] needs of a farmer in order not to raise: a load that
    is absent or a number, and an id if the load is above zero. *)
Definition well_formed (f : farmer) : bool :=
  match f !! "load_kg" with
  | None => true
  | Some (VNum x) => implb (Qlt_bool 0 x) (bool_decide (is_Some (f !! "farmer_id")))
  | Some _ => false
  end.

Fixpoint fit (id : value) (load : Q) (trucks : list truck) : option (list truck) :=
  match trucks with
  | [] => None
  | t :: rest =>
      if Qle_bool load (remaining t)
      then Some (Truck (farmers t ++ [id]) (remaining t - load) :: rest)
      else option_map (cons t) (fit id load rest)
  end.

Definition new_truck (capacity : Q) (f : farmer) : truck :=
  Truck [id_of f] (py_max (capacity - load_of f) 0).

Definition put (capacity : Q) (trucks : list truck) (f : farmer) : list truck :=
  let trucks := py_sort remaining false trucks in
  match fit (id_of f) (load_of f) trucks with
  | Some trucks' => trucks'
  | None => trucks ++ [new_truck capacity f]
  end.

Definition sorted_valid (farmer_list : list farmer) : list farmer :=
  py_sort load_of true (List.filter is_valid farmer_list).

(** No step raises on a farmer that is [ready]. *)
Definition ready (f : farmer) : Prop :=
  load_key f = Ok (load_of f) ∧ dict_index f "farmer_id" = Ok (id_of f).

(** With a capacity that is not positive every truck is a [solo] one. *)
Definition solo (f : farmer) : truck := Truck [id_of f] 0.

(** ** The same run with its bookkeeping made visible

    A [carrier] is a truck that remembers which farmers it holds (not only
    their ids) and the number of trucks that existed when it was opened:
    [born] is its position in creation order.  [erase] forgets both. *)

Record carrier : Type := Carrier { items : list farmer; room : Q; born : nat }.

Definition ids (c : carrier) : list value := map id_of (items c).

Definition erase (c : carrier) : truck := Truck (ids c) (room c).

Definition load_onto (f : farmer) (c : carrier) : carrier :=
  Carrier (items c ++ [f]) (room c - load_of f) (born c).

Fixpoint cfit (f : farmer) (cs : list carrier) : option (list carrier) :=
  match cs with
  | [] => None
  | c :: rest =>
      if Qle_bool (load_of f) (room c)
      then Some (load_onto f c :: rest)
      else option_map (cons c) (cfit f rest)
  end.

Definition cput (capacity : Q) (cs : list carrier) (f : farmer) : list carrier :=
  let cs := py_sort room false cs in
  match cfit f cs with
  | Some cs' => cs'
  | None => cs ++ [Carrier [f] (py_max (capacity - load_of f) 0) (length cs)]
  end.

Definition assignment (farmer_list : list farmer) (capacity : Q) : list carrier :=
  foldl (cput capacity) [] (sorted_valid farmer_list).

Definition sum_loads (fs : list farmer) : Q := foldr (λ f s, load_of f + s) 0 fs.

(** The loads of a group respect the capacity, or the group is the one
    documented exception: a single farmer heavier than a truck. *)
Definition within (capacity : Q) (g : list farmer) : Prop :=
  sum_loads g <= capacity ∨ ∃ f, g = [f] ∧ capacity < load_of f.

Definition tidy (capacity : Q) (c : carrier) : Prop :=
  items c ≠ [] ∧ 0 <= room c ∧
  (sum_loads (items c) + room c == capacity ∨
   ∃ f, items c = [f] ∧ capacity < load_of f ∧ room c = 0).

(** ** The same function on a store: objects, aliasing and mutation

    [pack_cluster] above treats lists and dicts as values.  In Python they
    are objects: the argument is a reference to a list of references to
    dicts, [sort] and [append] change a list where it lies, and a truck is a
    dict that the working list and the loop variable [t] share.  Here the
    function runs on a store of objects, statement by statement. *)

Inductive obj : Type :=
| ODict (d : gmap string value)
| OList (vs : list value).

Abbreviation store := (gmap loc obj).

(** A computation: the store goes in, the outcome and the store come out. *)
Definition run (A : Type) : Type := store → result A * store.

Definition ret {A : Type} (a : A) : run A := λ σ, (Ok a, σ).

Definition lift {A : Type} (r : result A) : run A := λ σ, (r, σ).

Definition get_store : run store := λ σ, (Ok σ, σ).

Definition run_bind {A B : Type} (m : run A) (k : A → run B) : run B := λ σ,
  match m σ with
  | (Ok a, σ') => k a σ'
  | (Raise e, σ') => (Raise e, σ')
  end.

Notation "'let!' x ':=' m 'in' k" := (run_bind m (λ x, k))
  (at level 10, x name, m at level 100, k at level 200).

(** Reading an object through a reference. *)
Definition list_at (σ : store) (v : value) : result (list value) :=
  match v with
  | VRef l => match σ !! l with Some (OList vs) => Ok vs | _ => Raise TypeError end
  | _ => Raise TypeError
  end.

Definition dict_at (σ : store) (e : exn) (v : value) : result (gmap string value) :=
  match v with
  | VRef l => match σ !! l with Some (ODict d) => Ok d | _ => Raise e end
  | _ => Raise e
  end.

Definition as_num (v : value) : result Q :=
  match v with
  | VNum x => Ok x
  | _ => Raise TypeError
  end.

(** [[...]] and [{...}]: a new object at a location not in use. *)
Definition new_obj (o : obj) : run value := λ σ,
  let l := fresh (dom σ) in (Ok (VRef l), <[l:=o]> σ).

Definition new_list (vs : list value) : run value := new_obj (OList vs).

Definition new_dict (d : gmap string value) : run value := new_obj (ODict d).

(** [lst.append(x)] *)
Definition list_append (lst x : value) : run unit := λ σ,
  match lst with
  | VRef l =>
      match σ !! l with
      | Some (OList vs) => (Ok tt, <[l:=OList (vs ++ [x])]> σ)
      | _ => (Raise AttributeError, σ)
      end
  | _ => (Raise AttributeError, σ)
  end.

(** [lst.sort(key=..., reverse=...)]; the key function reads the store. *)
Definition list_sort (lst : value) (key : store → value → result Q)
    (reverse : bool) : run unit := λ σ,
  match lst with
  | VRef l =>
      match σ !! l with
      | Some (OList vs) =>
          match py_sort_by (key σ) reverse vs with
          | Ok vs' => (Ok tt, <[l:=OList vs']> σ)
          | Raise e => (Raise e, σ)
          end
      | _ => (Raise AttributeError, σ)
      end
  | _ => (Raise AttributeError, σ)
  end.

(** [d[k] -= x] *)
Definition dict_sub (dv : value) (k : string) (x : Q) : run unit := λ σ,
  match dv with
  | VRef l =>
      match σ !! l with
      | Some (ODict d) =>
          match (let* v := dict_index d k in as_num v) with
          | Ok r => (Ok tt, <[l:=ODict (<[k:=VNum (r - x)]> d)]> σ)
          | Raise e => (Raise e, σ)
          end
      | _ => (Raise TypeError, σ)
      end
  | _ => (Raise TypeError, σ)
  end.

Module Store.

(** Line 16; the new list holds the same dict objects as the argument. *)
Fixpoint valid_farmers (σ : store) (items : list value) : result (list value) :=
  match items with
  | [] => Ok []
  | f :: rest =>
      let* d := dict_at σ AttributeError f in
      let* x := py_float (dict_get d "load_kg" (VNum 0)) in
      let* keep := valid_farmers σ rest in
      Ok (if Qlt_bool 0 x then f :: keep else keep)
  end.

(** [float(x["load_kg"])], [f["farmer_id"]], [t["remaining"]], [t["farmers"]] *)
Definition load_key (σ : store) (f : value) : result Q :=
  let* d := dict_at σ TypeError f in
  let* v := dict_index d "load_kg" in
  py_float v.

Definition farmer_id (σ : store) (f : value) : result value :=
  let* d := dict_at σ TypeError f in dict_index d "farmer_id".

Definition remaining (σ : store) (t : value) : result Q :=
  let* d := dict_at σ TypeError t in
  let* v := dict_index d "remaining" in
  as_num v.

Definition farmers (σ : store) (t : value) : result value :=
  let* d := dict_at σ TypeError t in dict_index d "farmers".

(** Lines 29-35; the result is [placed]. *)
Fixpoint scan (f : value) (load : Q) (trucks : list value) : run bool :=
  match trucks with
  | [] => ret false
  | t :: rest =>
      let! σ := get_store in
      let! r := lift (remaining σ t) in
      if Qle_bool load r then
        let! lst := lift (farmers σ t) in
        let! id := lift (farmer_id σ f) in
        let! _ := list_append lst id in
        let! _ := dict_sub t "remaining" load in
        ret true
      else scan f load rest
  end.

(** Lines 23-42 *)
Definition place (capacity : Q) (trucks : value) (f : value) : run unit :=
  let! σ := get_store in
  let! load := lift (load_key σ f) in
  let! _ := list_sort trucks remaining false in
  let! σ := get_store in
  let! ts := lift (list_at σ trucks) in
  let! placed := scan f load ts in
  if placed then ret tt
  else
    let! σ := get_store in
    let! id := lift (farmer_id σ f) in
    let! lst := new_list [id] in
    let! t := new_dict {[ "farmers" := lst;
                          "remaining" := VNum (py_max (capacity - load) 0) ]} in
    list_append trucks t.

Fixpoint pack_loop (capacity : Q) (trucks : value) (fs : list value) : run unit :=
  match fs with
  | [] => ret tt
  | f :: fs' =>
      let! _ := place capacity trucks f in
      pack_loop capacity trucks fs'
  end.

Definition pack_cluster (farmer_list : value) (capacity : Q) : run value :=
  let! σ := get_store in
  let! items := lift (list_at σ farmer_list) in
  let! valid := lift (valid_farmers σ items) in
  let! valid_list := new_list valid in
  let! _ := list_sort valid_list load_key true in
  let! trucks := new_list [] in
  let! σ := get_store in
  let! fs := lift (list_at σ valid_list) in
  let! _ := pack_loop capacity trucks fs in
  let! σ := get_store in
  let! ts := lift (list_at σ trucks) in
  let! out := lift (map_result (farmers σ) ts) in
  new_list out.

End Store.

(** The argument as the caller builds it: one dict object per farmer and a
    list object that refers to them. *)
Fixpoint store_farmers (fs : list farmer) (σ : store) : list value * store :=
  match fs with
  | [] => ([], σ)
  | f :: fs' =>
      let '(r, σ1) := new_dict f σ in
      let '(vs, σ2) := store_farmers fs' σ1 in
      (match r with Ok v => v :: vs | Raise _ => vs end, σ2)
  end.

Definition store_farmer_list (fs : list farmer) (σ : store) : value * store :=
  let '(vs, σ1) := store_farmers fs σ in
  match new_list vs σ1 with
  | (Ok v, σ2) => (v, σ2)
  | (Raise _, σ2) => (VNone, σ2)
  end.

(** A list of lists read back from the store. *)
Definition read_lists (σ : store) (r : result value) : result (list (list value)) :=
  let* v := r in
  let* vs := list_at σ v in
  map_result (list_at σ) vs.

(** What the loop owns.  [σ0] is the store at the call.  A truck in the
    working list (the list object at [lt]) is a dict made during the call,
    and so is the list under its "farmers" key. *)
Definition owned (σ0 σ : store) (lt : loc) (v : value) : Prop :=
  ∃ t d lf ids,
    v = VRef t ∧ σ0 !! t = None ∧ t ≠ lt ∧ σ !! t = Some (ODict d) ∧
    d !! "farmers" = Some (VRef lf) ∧
    σ0 !! lf = None ∧ lf ≠ lt ∧ σ !! lf = Some (OList ids).

Definition trucks_inv (σ0 : store) (lt : loc) (σ : store) : Prop :=
  σ0 ⊆ σ ∧ σ0 !! lt = None ∧
  ∃ ts, σ !! lt = Some (OList ts) ∧ Forall (owned σ0 σ lt) ts.

(** Away from [lt], a dict stays a dict with the same "farmers" entry and a
    list stays a list. *)
Definition evolves (lt : loc) (σ σ' : store) : Prop :=
  ∀ l, l ≠ lt →
    match σ !! l with
    | Some (ODict d) =>
        ∃ d', σ' !! l = Some (ODict d') ∧ d' !! "farmers" = d !! "farmers"
    | Some (OList _) => ∃ vs, σ' !! l = Some (OList vs)
    | None => True
    end.

(** ** Two runs side by side

    Two outcomes agree when both are results related by [R] or both are the
    same exception.  Two numbers are the same when they are equal as
    rationals, whatever their representation (2500, 2500.0, "2500"). *)
Definition result_rel {A B : Type} (R : A → B → Prop)
    (r1 : result A) (r2 : result B) : Prop :=
  match r1, r2 with
  | Ok a, Ok b => R a b
  | Raise e1, Raise e2 => e1 = e2
  | _, _ => False
  end.

Definition value_same (v w : value) : Prop :=
  match v, w with
  | VNum x, VNum y => x == y
  | _, _ => v = w
  end.

(** Two farmers are the same for packing when they have the same id and the
    same load; other entries (latitude, longitude) do not count. *)
Definition farmer_same (f g : farmer) : Prop :=
  f !! "farmer_id" = g !! "farmer_id" ∧
  match f !! "load_kg", g !! "load_kg" with
  | Some v, Some w => value_same v w
  | None, None => True
  | _, _ => False
  end.

Definition truck_same (t u : truck) : Prop :=
  farmers t = farmers u ∧ remaining t == remaining u.

Definition option_same {A B : Type} (R : A → B → Prop)
    (o1 : option A) (o2 : option B) : Prop :=
  match o1, o2 with
  | Some a, Some b => R a b
  | None, None => True
  | _, _ => False
  end.

(** ** The store run against the value run

    [is_farmer σ v f]: [v] refers to a dict object with the entries of [f].
    [is_truck σ lt v t]: [v] refers to a truck dict whose "remaining" entry
    and whose "farmers" list object hold what the truck value [t] holds.
    [trucks_repr]: the list object at [lt] holds such references, to
    distinct dicts with distinct "farmers" lists. *)
Definition is_farmer (σ : store) (v : value) (f : farmer) : Prop :=
  ∃ l, v = VRef l ∧ σ !! l = Some (ODict f).

Definition is_truck (σ : store) (lt : loc) (v : value) (t : truck) : Prop :=
  ∃ l d lf,
    v = VRef l ∧ σ !! l = Some (ODict d) ∧
    d !! "farmers" = Some (VRef lf) ∧
    d !! "remaining" = Some (VNum (remaining t)) ∧
    lf ≠ lt ∧ σ !! lf = Some (OList (farmers t)).

Definition farmers_apart (σ : store) (tvs : list value) : Prop :=
  ∀ v1 v2 lst, v1 ∈ tvs → v2 ∈ tvs →
    Store.farmers σ v1 = Ok lst → Store.farmers σ v2 = Ok lst → v1 = v2.

Definition trucks_repr (σ : store) (lt : loc) (tvs : list value)
    (trucks : list truck) : Prop :=
  σ !! lt = Some (OList tvs) ∧ Forall2 (is_truck σ lt) tvs trucks ∧
  NoDup tvs ∧ farmers_apart σ tvs.

(** A step of the value run against the same step on the store: the same
    exception, or a working list that holds the trucks of the value run. *)
Definition run_refines (lt : loc) (r : result (list truck))
    (out : result unit * store) : Prop :=
  match r, out with
  | Ok trucks, (Ok _, σ') => ∃ tvs, trucks_repr σ' lt tvs trucks
  | Raise e, (Raise e', _) => e = e'
  | _, _ => False
  end.

(** ** Sample inputs *)

Definition mk_farmer (id : string) (load : value) : farmer :=
  {[ "farmer_id" := VStr id; "load_kg" := load ]}.

(** One farmer heavier than the truck. *)
Definition example2 : list farmer := [mk_farmer "A" (VNum 6000)].

(** A zero load, a negative load and a load that is not a number. *)
Definition example4 : list farmer :=
  [mk_farmer "A" (VNum 0); mk_farmer "B" (VNum (-5)); mk_farmer "C" (VStr "bad")].

(** Three equal loads, two of which fill a truck exactly. *)
Definition example5 : list farmer :=
  [mk_farmer "A" (VNum 2500); mk_farmer "B" (VNum 2500); mk_farmer "C" (VNum 2500)].

(** Loads 6, 5, 5, 1 for trucks of 10: the second truck fills up first. *)
Definition example_6551 : list farmer :=
  [mk_farmer "A" (VNum 6); mk_farmer "B" (VNum 5);
   mk_farmer "C" (VNum 5); mk_farmer "D" (VNum 1)].

(** The farmers of [example5] with their loads written differently and
    with an entry that packing does not read. *)
Definition example5_alt : list farmer :=
  [<["lat" := VNum 18]> (mk_farmer "A" (VNum (5000 # 2)));
   mk_farmer "B" (VNum (7500 # 3));
   mk_farmer "C" (VNum 2500)].

(** [example5] as objects in an empty store, and [example5_alt] as objects
    in the store that a first call has left behind. *)
Definition store_a : store := (store_farmer_list example5 ∅).2.

Definition store_b : store :=
  (store_farmer_list example5_alt
     (Store.pack_cluster (store_farmer_list example5 ∅).1 5000 store_a).2).2.


(** ** find_optimal_k (ml_service/train.py)

    The elbow rule that picks the number of clusters.  What lies outside
    the repository is a parameter: the K-Means fit (its inertia for a given
    number of clusters, or its exception), the plot and the printed line.
    numpy's float arithmetic is exact here, as in [pack_cluster], but a
    division by zero gives [Inf] or [NaN] as numpy's does;
    [B64.find_optimal_k] below rounds as numpy does. *)

(** The values of [np.abs(a / b)]: a number that is not negative, infinity
    (a non-zero number over zero) or NaN (zero over zero). *)
Inductive npfloat : Type :=
| Finite (x : Q)
| Inf
| NaN.

Definition np_abs_div (a b : Q) : npfloat :=
  if Qeq_bool b 0 then (if Qeq_bool a 0 then NaN else Inf)
  else Finite (Qabs (a / b)).

(** [a >= b], false as soon as one side is NaN *)
Definition np_ge (a b : npfloat) : bool :=
  match a, b with
  | NaN, _ | _, NaN => false
  | Inf, _ => true
  | Finite _, Inf => false
  | Finite x, Finite y => Qle_bool y x
  end.

(** [np.argmin]: [mp] is the least value seen, at index [min_ind]; a later
    element replaces it unless it is [>= mp]; a NaN ends the scan. *)
Fixpoint argmin_loop (mp : npfloat) (min_ind i : nat) (rest : list npfloat) : nat :=
  match rest with
  | [] => min_ind
  | x :: rest' =>
      if np_ge x mp then argmin_loop mp min_ind (S i) rest'
      else match x with
           | NaN => i
           | _ => argmin_loop x i (S i) rest'
           end
  end.

Definition np_argmin (a : list npfloat) : result nat :=
  match a with
  | [] => Raise ValueError
  | NaN :: _ => Ok 0%nat
  | mp :: rest => Ok (argmin_loop mp 0 1 rest)
  end.

(** [np.diff(a)]: [out[i] = a[i+1] - a[i]] *)
Fixpoint np_diff (a : list Q) : list Q :=
  match a with
  | x :: (y :: _) as a' => (y - x) :: np_diff a'
  | _ => []
  end.

(** [np.abs(diffs[1:] / diffs[:-1])] *)
Definition diff_ratios (diffs : list Q) : list npfloat :=
  zip_with np_abs_div (drop 1 diffs) (take (length diffs - 1) diffs).

(** [range(a, b)] *)
Definition py_range (a b : Z) : list Z :=
  map (λ i, (a + Z.of_nat i)%Z) (seq 0 (Z.to_nat (b - a))).

Section find_optimal_k.
Context {data : Type}.
(** [KMeans(n_clusters=k, random_state=42, n_init=20, max_iter=500)
    .fit(X_scaled).inertia_] *)
Variable kmeans_inertia : data → Z → result Q.
(** Lines 30-39, the plot, and line 41, the printed line. *)
Variable save_elbow_plot : list Z → list Q → result unit.
Variable print_elbow : Z → result unit.

Definition find_optimal_k (X_scaled : data) (k_min k_max : Z) : result Z :=
  let K_values := py_range k_min (k_max + 1) in
  let* sse := map_result (kmeans_inertia X_scaled) K_values in
  let diffs := np_diff sse in
  let diff_ratios := diff_ratios diffs in
  let* i := np_argmin diff_ratios in
  let elbow_k := (k_min + Z.of_nat i + 1)%Z in
  let* _ := save_elbow_plot K_values sse in
  let* _ := print_elbow elbow_k in
  Ok elbow_k.

(** Lines 70-71 of [train_and_cluster]: the number of clusters that line
    74 hands to KMeans, from the argument [k] ([None] when not given). *)
Definition train_and_cluster_k (X_scaled : data) (k : option Z) : result Z :=
  match k with
  | None => find_optimal_k X_scaled 3 8
  | Some k' => if (k' <=? 0)%Z then find_optimal_k X_scaled 3 8 else Ok k'
  end.
End find_optimal_k.

(** How much smaller the drop of the inertia after [k] is than the drop
    before [k]. *)
Definition drop_ratio (inertia : Z → Q) (k : Z) : Q :=
  Qabs ((inertia (k + 1)%Z - inertia k) / (inertia k - inertia (k - 1)%Z)).

(** A run of fits whose inertia falls from 100 (two clusters or fewer) to
    19 (eight or more), with a plot and a print that succeed. *)
Definition sample_inertia (k : Z) : Q :=
  if (k <=? 2)%Z then 100 else if (k =? 3)%Z then 60 else if (k =? 4)%Z then 30
  else if (k =? 5)%Z then 25 else if (k =? 6)%Z then 22
  else if (k =? 7)%Z then 20 else 19.

Definition sample_fit (X_scaled : unit) (k : Z) : result Q := Ok (sample_inertia k).

Definition plot_ok (K_values : list Z) (sse : list Q) : result unit := Ok tt.

Definition print_ok (k : Z) : result unit := Ok tt.

(** ** Binary floating point

    Python's floats and numpy's float64 are IEEE binary64 numbers.  A finite
    one is a rational [m * 2^e] with [|m| < 2^53] and [e >= -1074], and the
    result of a subtraction or a division is the exact result rounded to the
    nearest such number, ties to the even [m].  [round64] is that rounding
    on rationals.  A result beyond the largest double (an overflow, which
    gives an infinity) is not modelled for subtraction: the differences of
    [pack_cluster] cannot overflow, those of [np.diff] do so only for
    inertias beyond any data. *)

(** [2^e], and the exponent of a positive rational: [2^l <= a < 2^(l+1)]. *)
Definition Qpow2 (e : Z) : Q :=
  if (0 <=? e)%Z then inject_Z (2 ^ e) else / inject_Z (2 ^ (- e)).

Definition Qlog2 (a : Q) : Z :=
  let l := (Z.log2 (Qnum a) - Z.log2 (Zpos (Qden a)))%Z in
  if Qle_bool (Qpow2 l) a then l else (l - 1)%Z.

(** The nearest integer, ties to even. *)
Definition rne (q : Q) : Z :=
  let f := Qfloor q in
  match Qcompare (q - inject_Z f) (1 # 2) with
  | Lt => f
  | Gt => (f + 1)%Z
  | Eq => if Z.even f then f else (f + 1)%Z
  end.

(** The double nearest to [x]: 53 bits from the leading one, but no bit
    below [2^-1074]. *)
Definition round64 (x : Q) : Q :=
  let x := Qred x in
  if Qeq_bool x 0 then 0 else
  let e := Z.max (-1074) (Qlog2 (Qabs x) - 52) in
  Qred (inject_Z (rne (x / Qpow2 e)) * Qpow2 e).

(** A whole number that a double holds exactly, as any whole number up to
    2^53 is. *)
Definition is_whole (x : Q) : bool :=
  let r := Qred x in
  bool_decide (Qden r = 1%positive) && bool_decide (Z.abs (Qnum r) ≤ 2 ^ 53)%Z.

(** ** pack_cluster and find_optimal_k on binary64 numbers

    The steps of [pack_cluster] and [find_optimal_k] again, word for word,
    with the rounded difference [B64.sub] in the place of [-] (lines 33 and
    41 of bin_packing.py, [np.diff] in train.py) and a rounded quotient in
    [np.abs(a / b)]. *)
Module B64.

(** [a - b] on floats: the exact difference, rounded. *)
Definition sub (a b : Q) : Q := round64 (a - b).

(** Lines 29-35; line 33 is [t["remaining"] -= load]. *)
Fixpoint scan (f : farmer) (load : Q) (trucks : list truck)
    : result (option (list truck)) :=
  match trucks with
  | [] => Ok None
  | t :: rest =>
      if Qle_bool load (remaining t) then
        let* id := dict_index f "farmer_id" in
        Ok (Some (Truck (farmers t ++ [id]) (sub (remaining t) load) :: rest))
      else
        let* r := scan f load rest in
        Ok (option_map (cons t) r)
  end.

(** Lines 23-42; line 41 is [max(capacity - load, 0)]. *)
Definition place (capacity : Q) (trucks : list truck) (f : farmer)
    : result (list truck) :=
  let* load := load_key f in
  let trucks := py_sort remaining false trucks in
  let* r := scan f load trucks in
  match r with
  | Some trucks' => Ok trucks'
  | None =>
      let* id := dict_index f "farmer_id" in
      Ok (trucks ++ [Truck [id] (py_max (sub capacity load) 0)])
  end.

Fixpoint pack_loop (capacity : Q) (fs : list farmer) (trucks : list truck)
    : result (list truck) :=
  match fs with
  | [] => Ok trucks
  | f :: fs' =>
      let* trucks' := place capacity trucks f in
      pack_loop capacity fs' trucks'
  end.

Definition pack_trucks (farmer_list : list farmer) (capacity : Q)
    : result (list truck) :=
  let* valid := valid_farmers farmer_list in
  let* sorted := py_sort_by load_key true valid in
  pack_loop capacity sorted [].

Definition pack_cluster (farmer_list : list farmer) (capacity : Q)
    : result (list (list value)) :=
  let* trucks := pack_trucks farmer_list capacity in
  Ok (map farmers trucks).

(** The same run on carriers, which remember their farmers ([erase]
    gives the trucks back). *)
Definition load_onto (f : farmer) (c : carrier) : carrier :=
  Carrier (items c ++ [f]) (sub (room c) (load_of f)) (born c).

Fixpoint cfit (f : farmer) (cs : list carrier) : option (list carrier) :=
  match cs with
  | [] => None
  | c :: rest =>
      if Qle_bool (load_of f) (room c)
      then Some (load_onto f c :: rest)
      else option_map (cons c) (cfit f rest)
  end.

Definition cput (capacity : Q) (cs : list carrier) (f : farmer) : list carrier :=
  let cs := py_sort room false cs in
  match cfit f cs with
  | Some cs' => cs'
  | None => cs ++ [Carrier [f] (py_max (sub capacity (load_of f)) 0) (length cs)]
  end.

Definition assignment (farmer_list : list farmer) (capacity : Q) : list carrier :=
  foldl (cput capacity) [] (sorted_valid farmer_list).

(** [np.diff(a)]: [out[i] = a[i+1] - a[i]], rounded *)
Fixpoint np_diff (a : list Q) : list Q :=
  match a with
  | x :: (y :: _) as a' => sub y x :: np_diff a'
  | _ => []
  end.

(** [np.abs(a / b)]: the quotient is rounded, and one that is rounded to
    [2^1024] or beyond is infinite (the largest double is just below). *)
Definition np_abs_div (a b : Q) : npfloat :=
  if Qeq_bool b 0 then (if Qeq_bool a 0 then NaN else Inf)
  else
    let r := Qabs (round64 (a / b)) in
    if Qle_bool (inject_Z (2 ^ 1024)) r then Inf else Finite r.

Definition diff_ratios (diffs : list Q) : list npfloat :=
  zip_with np_abs_div (drop 1 diffs) (take (length diffs - 1) diffs).

Section find_optimal_k.
Context {data : Type}.
(** The K-Means fit, the plot and the printed line, as above. *)
Variable kmeans_inertia : data → Z → result Q.
Variable save_elbow_plot : list Z → list Q → result unit.
Variable print_elbow : Z → result unit.

Definition find_optimal_k (X_scaled : data) (k_min k_max : Z) : result Z :=
  let K_values := py_range k_min (k_max + 1) in
  let* sse := map_result (kmeans_inertia X_scaled) K_values in
  let diffs := np_diff sse in
  let diff_ratios := diff_ratios diffs in
  let* i := np_argmin diff_ratios in
  let elbow_k := (k_min + Z.of_nat i + 1)%Z in
  let* _ := save_elbow_plot K_values sse in
  let* _ := print_elbow elbow_k in
  Ok elbow_k.
End find_optimal_k.

End B64.

(** What the capacity leaves when the loads of [g] are taken off one after
    the other, each difference rounded. *)
Definition subtract_all (capacity : Q) (g : list farmer) : Q :=
  foldl (λ r f, B64.sub r (load_of f)) capacity g.

(** The capacity bound as the code keeps it: the loads of a group can be
    taken off the capacity, in the code's arithmetic, without going below
    zero; or the group is a single farmer heavier than a truck. *)
Definition fits64 (capacity : Q) (g : list farmer) : Prop :=
  0 <= subtract_all capacity g ∨ ∃ f, g = [f] ∧ capacity < load_of f.

Definition tidy64 (capacity : Q) (c : carrier) : Prop :=
  items c ≠ [] ∧ 0 <= room c ∧
  (room c = subtract_all capacity (items c) ∨
   ∃ f, items c = [f] ∧ capacity < load_of f ∧ room c == 0).

(** A remaining capacity that is a whole number from 0 to 2^53. *)
Definition whole_room (t : truck) : Prop :=
  ∃ z : Z, remaining t == inject_Z z ∧ (0 ≤ z ≤ 2 ^ 53)%Z.

(** The ratio that line 26 computes for [k]: the drop of the inertia after
    [k] over the drop before [k], as floats. *)
Definition drop_ratio64 (inertia : Z → Q) (k : Z) : npfloat :=
  B64.np_abs_div (B64.sub (inertia (k + 1)%Z) (inertia k))
                 (B64.sub (inertia k) (inertia (k - 1)%Z)).

(** ** Sample inputs with fractions *)

(** The doubles that Python writes as 0.3, 0.11, 0.1 and 0.09. *)
Definition d0_3 : Q := 5404319552844595 # 18014398509481984.
Definition d0_11 : Q := 7926335344172073 # 72057594037927936.
Definition d0_1 : Q := 3602879701896397 # 36028797018963968.
Definition d0_09 : Q := 3242591731706757 # 36028797018963968.

(** Loads 0.11, 0.1 and 0.09 for trucks of 0.3. *)
Definition example_rounding : list farmer :=
  [mk_farmer "A" (VNum d0_11); mk_farmer "B" (VNum d0_1); mk_farmer "C" (VNum d0_09)].

(** Loads 0.5, 0.1875 + 3 * 2^-55, 0.1875 and 0.125 - 3 * 2^-55, all of
    them doubles, which sum to 1 exactly. *)
Definition example_exact_fit : list farmer :=
  [mk_farmer "A" (VNum (1 # 2));
   mk_farmer "B" (VNum (6755399441055747 # 36028797018963968));
   mk_farmer "C" (VNum (3 # 16));
   mk_farmer "D" (VNum (4503599627370493 # 36028797018963968))].

(** A load that is not a number next to a valid farmer, and next to a valid
    farmer heavier than a truck of 5000. *)
Definition example_bad_row : list farmer :=
  [mk_farmer "A" (VNum 2500); mk_farmer "C" (VStr "bad")].

Definition example_oversized_bad_row : list farmer :=
  [mk_farmer "A" (VNum 6000); mk_farmer "C" (VStr "bad")].

(** Fits whose inertias are the doubles 39.7, 19.7, 9.7 and 4.7 for two to
    five clusters. *)
Definition sample_inertia64 (k : Z) : Q :=
  if (k <=? 2)%Z then 2793639143853261 # 70368744177664
  else if (k =? 3)%Z then 5545057041199923 # 281474976710656
  else if (k =? 4)%Z then 2730307274093363 # 281474976710656
  else 5291729562160333 # 1125899906842624.

Definition sample_fit64 (X_scaled : unit) (k : Z) : result Q :=
  Ok (sample_inertia64 k).

(** ** The machine's binary64 numbers

    Rocq's primitive floats are binary64 numbers with the processor's
    subtraction and division; [round64] is compared with them below.
    [fl m e] is the float [m * 2^e]; [Prim2Q] is the value of a float that
    is finite. *)
Definition fl (m : positive) (e : Z) : PrimFloat.float :=
  FloatOps.SF2Prim (SpecFloat.S754_finite false m e).

Definition SF2Q (x : SpecFloat.spec_float) : option Q :=
  match x with
  | SpecFloat.S754_zero _ => Some 0
  | SpecFloat.S754_finite s m e =>
      Some (Qred ((if s then -1 else 1) * inject_Z (Z.pos m) * Qpow2 e))
  | _ => None
  end.

Definition Prim2Q (x : PrimFloat.float) : option Q := SF2Q (FloatOps.Prim2SF x).

(** [B64.sub] gives the float that the machine's subtraction gives; where
    the machine overflows, [B64.sub] is beyond the largest double. *)
Definition sub_agrees (a b : PrimFloat.float) : bool :=
  match Prim2Q a, Prim2Q b with
  | Some x, Some y =>
      match Prim2Q (PrimFloat.sub a b) with
      | Some z => bool_decide (B64.sub x y = z)
      | None => Qle_bool (inject_Z (2 ^ 1024)) (Qabs (B64.sub x y))
      end
  | _, _ => false
  end.

(** [B64.np_abs_div] gives what the machine's division and absolute value
    give: the same finite float, an infinity, or a NaN. *)
Definition div_agrees (a b : PrimFloat.float) : bool :=
  match Prim2Q a, Prim2Q b with
  | Some x, Some y =>
      match B64.np_abs_div x y, Prim2Q (PrimFloat.abs (PrimFloat.div a b)) with
      | Finite r, Some z => bool_decide (r = z)
      | Inf, None =>
          PrimFloat.eqb (PrimFloat.abs (PrimFloat.div a b)) PrimFloat.infinity
      | NaN, None => negb (PrimFloat.eqb (PrimFloat.div a b) (PrimFloat.div a b))
      | _, _ => false
      end
  | _, _ => false
  end.

(** Zero, the numbers of the examples and their neighbours, with both
    signs; every one is subtracted from and divided by every other. *)
Definition sample_floats : list PrimFloat.float :=
  let xs :=
    [fl 1 0; fl 3 0; fl 10 0; fl 2500 0; fl 5000 0; fl 6000 0;
     fl 5404319552844595 (-54); fl 7926335344172073 (-56);
     fl 3602879701896397 (-55); fl 3242591731706757 (-55);
     fl 3422735716801577 (-54);
     fl 1 (-1); fl 6755399441055747 (-55); fl 3 (-4);
     fl 4503599627370493 (-55); fl 2814749767106559 (-53);
     fl 2793639143853261 (-46); fl 5545057041199923 (-48);
     fl 2730307274093363 (-48); fl 5291729562160333 (-50);
     fl 9007199254740992 0; fl 9007199254740994 0; fl 9007199254740991 0] in
  PrimFloat.zero :: xs ++ map PrimFloat.opp xs.

(** * Proofs *)

(** ** Comparisons *)

Lemma Qlt_bool_iff a b : Qlt_bool a b = true ↔ a < b.
Proof.
  unfold Qlt_bool. rewrite negb_true_iff.
  destruct (Qle_bool b a) eqn:E.
  - apply Qle_bool_iff in E. split; [done | intros H; lra].
  - split; [intros _ | done].
    apply Qnot_le_lt. intros H. apply Qle_bool_iff in H. congruence.
Qed.

Lemma Qlt_bool_false a b : Qlt_bool a b = false ↔ b <= a.
Proof.
  pose proof (Qlt_bool_iff a b) as H.
  destruct (Qlt_bool a b); split; intros; try done.
  - assert (a < b) by (by apply H). lra.
  - apply Qnot_lt_le. intros Hlt. apply H in Hlt. done.
Qed.

Lemma Qle_bool_false a b : Qle_bool a b = false ↔ b < a.
Proof.
  pose proof (Qle_bool_iff a b) as H.
  destruct (Qle_bool a b); split; intros; try done.
  - assert (a <= b) by (by apply H). lra.
  - apply Qnot_le_lt. intros Hle. apply H in Hle. done.
Qed.

(** ** The sort *)

Section py_sort_facts.
Context {A : Type} (key : A → Q) (reverse : bool).
Implicit Types (x y : A) (l : list A).

Lemma sort_insert_perm x l : sort_insert key reverse x l ≡ₚ x :: l.
Proof.
  induction l as [|y l IH]; simpl; [done |].
  destruct (before key reverse y x); [| done].
  rewrite IH. apply Permutation_swap.
Qed.

Lemma py_sort_perm l : py_sort key reverse l ≡ₚ l.
Proof.
  induction l as [|x l IH]; simpl; [done |].
  by rewrite sort_insert_perm, IH.
Qed.

Lemma py_sort_length l : length (py_sort key reverse l) = length l.
Proof. by rewrite py_sort_perm. Qed.

Lemma in_order_trans x y z :
  in_order key reverse x y → in_order key reverse y z → in_order key reverse x z.
Proof.
  unfold in_order, before. destruct reverse; rewrite !Qlt_bool_false; lra.
Qed.

Lemma in_order_total x y : before key reverse x y = true → in_order key reverse x y.
Proof.
  unfold in_order, before.
  destruct reverse; rewrite Qlt_bool_iff, Qlt_bool_false; lra.
Qed.

Lemma sort_insert_sorted x l :
  StronglySorted (in_order key reverse) l →
  StronglySorted (in_order key reverse) (sort_insert key reverse x l).
Proof.
  induction 1 as [|y l Hs IH Hall]; simpl.
  - repeat constructor.
  - destruct (before key reverse y x) eqn:E.
    + constructor; [done |].
      rewrite sort_insert_perm. constructor; [| done].
      by apply in_order_total.
    + constructor; [by constructor |].
      constructor; [done |].
      eapply Forall_impl; [exact Hall |]. intros z Hz.
      by eapply in_order_trans.
Qed.

Lemma py_sort_sorted l : StronglySorted (in_order key reverse) (py_sort key reverse l).
Proof.
  induction l; simpl; [constructor | by apply sort_insert_sorted].
Qed.

(** A list that is already in order is left as it is. *)
Lemma py_sort_id l : StronglySorted (in_order key reverse) l → py_sort key reverse l = l.
Proof.
  induction 1 as [|x l Hs IH Hall]; simpl; [done |].
  rewrite IH. destruct l as [|y l]; simpl; [done |].
  apply Forall_cons in Hall as [Hxy _]. unfold in_order in Hxy. by rewrite Hxy.
Qed.

Lemma py_sort_idemp l :
  py_sort key reverse (py_sort key reverse l) = py_sort key reverse l.
Proof. apply py_sort_id, py_sort_sorted. Qed.

(** Stability: the elements with a given key keep their order. *)
Lemma sort_insert_stable (q : A → bool) x l :
  (∀ y, q x = true → q y = true → before key reverse y x = false) →
  List.filter q (sort_insert key reverse x l) = List.filter q (x :: l).
Proof.
  intros Hq. induction l as [|y l IH]; [done |].
  cbn [sort_insert]. destruct (before key reverse y x) eqn:E; [| done].
  cbn [List.filter] in *. rewrite IH.
  destruct (q x) eqn:Ex, (q y) eqn:Ey; try done.
  rewrite Hq in E; done.
Qed.

Lemma py_sort_stable (k : Q) l :
  List.filter (λ x, Qeq_bool (key x) k) (py_sort key reverse l)
  = List.filter (λ x, Qeq_bool (key x) k) l.
Proof.
  induction l as [|x l IH]; [done |]. cbn [py_sort foldr].
  rewrite sort_insert_stable.
  - cbn [List.filter]. fold (py_sort key reverse l). by rewrite IH.
  - intros y Hx%Qeq_bool_iff Hy%Qeq_bool_iff. unfold before.
    destruct reverse; apply Qlt_bool_false; lra.
Qed.
End py_sort_facts.

(** ** No exception on well-formed input *)

Lemma well_formed_ready f : well_formed f → is_valid f → ready f.
Proof.
  unfold ready, load_key, dict_index, id_of, well_formed, is_valid, load_of.
  destruct (f !! "load_kg") as [[x| | |]|] eqn:E; simpl; try done.
  intros Hwf Hv. apply Is_true_true in Hv. rewrite Hv in Hwf. simpl in Hwf.
  apply bool_decide_unpack in Hwf as [v Hv']. by rewrite Hv'.
Qed.

Lemma valid_farmers_ok fs :
  Forall well_formed fs → valid_farmers fs = Ok (List.filter is_valid fs).
Proof.
  induction 1 as [|f fs Hwf _ IH]; simpl; [done |].
  rewrite IH. unfold is_valid, load_of, dict_get.
  unfold well_formed in Hwf.
  by destruct (f !! "load_kg") as [[x| | |]|].
Qed.

Lemma valid_farmers_inv fs vs :
  valid_farmers fs = Ok vs →
  vs = List.filter is_valid fs ∧
  Forall (λ f, f !! "load_kg" = None ∨ ∃ x, f !! "load_kg" = Some (VNum x)) fs.
Proof.
  revert vs. induction fs as [|f fs IH]; simpl; intros vs Hvs.
  - by inversion Hvs.
  - unfold dict_get, is_valid, load_of in *.
    destruct (f !! "load_kg") as [[x| | |]|] eqn:E; simpl in Hvs; try done.
    all: destruct (valid_farmers fs) as [rest|e]; simpl in Hvs; [| done].
    all: destruct (IH rest eq_refl) as [-> Hall].
    all: inversion Hvs; subst; split; [done |].
    all: constructor; eauto.
Qed.

Lemma map_result_ok {A B} (g : A → result B) (h : A → B) l :
  Forall (λ x, g x = Ok (h x)) l → map_result g l = Ok (map h l).
Proof. induction 1 as [|x l Hx _ IH]; simpl; [done |]. by rewrite Hx, IH. Qed.

Lemma map_result_inv {A B} (g : A → result B) l ys :
  map_result g l = Ok ys → Forall2 (λ x y, g x = Ok y) l ys.
Proof.
  revert ys. induction l as [|x l IH]; simpl; intros ys H.
  - inversion H. constructor.
  - destruct (g x) eqn:E; simpl in H; [| done].
    destruct (map_result g l); simpl in H; [| done].
    inversion H; subst. constructor; auto.
Qed.

(** The decorated sort is the sort on the key itself. *)
Lemma sort_insert_decorated {A} (h : A → Q) r x (l : list (Q * A)) :
  Forall (λ p, p.1 = h p.2) l →
  map snd (sort_insert fst r (h x, x) l) = sort_insert h r x (map snd l).
Proof.
  induction 1 as [|[k y] l Hy _ IH]; simpl in *; [done |]. subst k.
  unfold before. simpl.
  destruct r; [destruct (Qlt_bool (h x) (h y)) | destruct (Qlt_bool (h y) (h x))];
    simpl; by rewrite ?IH.
Qed.

Lemma py_sort_decorated {A} (h : A → Q) r (l : list A) :
  map snd (py_sort fst r (zip (map h l) l)) = py_sort h r l.
Proof.
  induction l as [|x l IH]; simpl; [done |].
  rewrite sort_insert_decorated, IH; [done |].
  rewrite py_sort_perm. clear. induction l; simpl; constructor; auto.
Qed.

Lemma py_sort_by_ok {A} (g : A → result Q) (h : A → Q) r l :
  Forall (λ x, g x = Ok (h x)) l → py_sort_by g r l = Ok (py_sort h r l).
Proof.
  intros H. unfold py_sort_by. rewrite (map_result_ok g h) by done. simpl.
  by rewrite py_sort_decorated.
Qed.

Lemma py_sort_by_inv {A} (g : A → result Q) r (l l' : list A) :
  py_sort_by g r l = Ok l' → l' ≡ₚ l.
Proof.
  unfold py_sort_by. destruct (map_result g l) as [ks|] eqn:E; simpl; [| done].
  intros [= <-]. rewrite py_sort_perm.
  apply map_result_inv, Forall2_length in E. by rewrite snd_zip by lia.
Qed.

Lemma scan_ok f load trucks :
  dict_index f "farmer_id" = Ok (id_of f) →
  scan f load trucks = Ok (fit (id_of f) load trucks).
Proof.
  intros Hid. induction trucks as [|t rest IH]; simpl; [done |].
  destruct (Qle_bool load (remaining t)); [by rewrite Hid |]. by rewrite IH.
Qed.

Lemma place_ok capacity trucks f :
  ready f → place capacity trucks f = Ok (put capacity trucks f).
Proof.
  intros [Hload Hid]. unfold place, put. rewrite Hload. simpl.
  rewrite scan_ok by done. simpl.
  destruct (fit _ _ _); [done |]. by rewrite Hid.
Qed.

Lemma pack_loop_ok capacity fs trucks :
  Forall ready fs → pack_loop capacity fs trucks = Ok (foldl (put capacity) trucks fs).
Proof.
  intros H. revert trucks. induction H as [|f fs Hf _ IH]; intros trucks; simpl; [done |].
  rewrite place_ok by done. simpl. apply IH.
Qed.

Lemma sorted_valid_perm fs : sorted_valid fs ≡ₚ List.filter is_valid fs.
Proof. apply py_sort_perm. Qed.

Lemma sorted_valid_ready fs : Forall well_formed fs → Forall ready (sorted_valid fs).
Proof.
  intros Hwf. rewrite sorted_valid_perm.
  apply Forall_forall. intros f Hf. apply list_elem_of_In, filter_In in Hf as [Hin Hv].
  apply well_formed_ready; [| by apply Is_true_true].
  rewrite Forall_forall in Hwf. by apply Hwf, list_elem_of_In.
Qed.

(** The run on well-formed input. *)
Lemma pack_trucks_ok fs capacity :
  Forall well_formed fs →
  pack_trucks fs capacity = Ok (foldl (put capacity) [] (sorted_valid fs)).
Proof.
  intros Hwf. unfold pack_trucks. rewrite valid_farmers_ok by done. simpl.
  pose proof (sorted_valid_ready fs Hwf) as Hr.
  rewrite (py_sort_by_ok load_key load_of). 2:{
    rewrite <- sorted_valid_perm.
    eapply Forall_impl; [exact Hr |]. by intros f [? _]. }
  simpl. by apply pack_loop_ok.
Qed.

Lemma pack_cluster_ok fs capacity :
  Forall well_formed fs →
  pack_cluster fs capacity = Ok (map farmers (foldl (put capacity) [] (sorted_valid fs))).
Proof. intros H. unfold pack_cluster. by rewrite pack_trucks_ok. Qed.

Lemma place_inv capacity trucks f trucks' :
  place capacity trucks f = Ok trucks' → is_Some (f !! "farmer_id").
Proof.
  unfold place. destruct (load_key f) as [load|]; simpl; [| done].
  generalize (py_sort remaining false trucks). intros ts.
  assert (∀ r, scan f load ts = Ok (Some r) → is_Some (f !! "farmer_id")) as Hscan.
  { induction ts as [|t ts IH]; simpl; intros r; [done |].
    destruct (Qle_bool load (remaining t)).
    - unfold dict_index. by destruct (f !! "farmer_id").
    - destruct (scan f load ts) as [[r'|]|]; simpl; try done. intros _. by eapply IH. }
  destruct (scan f load ts) as [[r|]|]; simpl; try done.
  - intros _. by eapply Hscan.
  - unfold dict_index. by destruct (f !! "farmer_id").
Qed.

Lemma pack_loop_inv capacity fs trucks trucks' :
  pack_loop capacity fs trucks = Ok trucks' →
  Forall (λ f, is_Some (f !! "farmer_id")) fs.
Proof.
  revert trucks. induction fs as [|f fs IH]; simpl; intros trucks H; [constructor |].
  destruct (place capacity trucks f) as [ts|] eqn:E; simpl in H; [| done].
  constructor; [by eapply place_inv | by eapply IH].
Qed.

(** Only well-formed input gets a result. *)
Lemma pack_trucks_inv fs capacity trucks :
  pack_trucks fs capacity = Ok trucks → Forall well_formed fs.
Proof.
  unfold pack_trucks.
  destruct (valid_farmers fs) as [vs|] eqn:Ev; simpl; [| done].
  destruct (py_sort_by load_key true vs) as [ss|] eqn:Es; simpl; [| done].
  intros Hloop. apply pack_loop_inv in Hloop.
  apply py_sort_by_inv in Es. rewrite Es in Hloop.
  apply valid_farmers_inv in Ev as [-> Hnum].
  rewrite Forall_forall in Hnum, Hloop. apply Forall_forall. intros f Hf.
  specialize (Hnum f Hf). unfold well_formed.
  destruct Hnum as [-> | [x Hx]]; [done |]. rewrite Hx.
  destruct (Qlt_bool 0 x) eqn:E; [| done]. simpl.
  apply bool_decide_pack, Hloop, list_elem_of_In, filter_In.
  split; [by apply list_elem_of_In |]. unfold is_valid, load_of. by rewrite Hx.
Qed.

Lemma pack_cluster_inv fs capacity res :
  pack_cluster fs capacity = Ok res → Forall well_formed fs.
Proof.
  unfold pack_cluster. destruct (pack_trucks fs capacity) eqn:E; simpl; [| done].
  intros _. by eapply pack_trucks_inv.
Qed.

(** ** Carriers and trucks run in step *)

Lemma py_sort_map {A B} (g : A → B) (key : B → Q) (key' : A → Q) r l :
  (∀ x, key (g x) = key' x) →
  py_sort key r (map g l) = map g (py_sort key' r l).
Proof.
  intros Hk. induction l as [|x l IH]; simpl; [done |]. rewrite IH.
  generalize (py_sort key' r l). intros s.
  induction s as [|y s IHs]; simpl; [done |].
  unfold before. rewrite !Hk. destruct r.
  - destruct (Qlt_bool (key' x) (key' y)); simpl; by rewrite ?IHs.
  - destruct (Qlt_bool (key' y) (key' x)); simpl; by rewrite ?IHs.
Qed.

Lemma fit_erase f cs :
  fit (id_of f) (load_of f) (map erase cs) = option_map (map erase) (cfit f cs).
Proof.
  induction cs as [|c cs IH]; simpl; [done |].
  destruct (Qle_bool (load_of f) (room c)).
  - simpl. unfold erase, ids. simpl. by rewrite map_app.
  - rewrite IH. by destruct (cfit f cs).
Qed.

Lemma put_erase capacity cs f :
  put capacity (map erase cs) f = map erase (cput capacity cs f).
Proof.
  unfold put, cput. rewrite (py_sort_map erase remaining room) by done.
  rewrite fit_erase. destruct (cfit f _); simpl; [done |].
  by rewrite map_app.
Qed.

Lemma foldl_put_erase capacity fs cs :
  foldl (put capacity) (map erase cs) fs = map erase (foldl (cput capacity) cs fs).
Proof.
  revert cs. induction fs as [|f fs IH]; intros cs; simpl; [done |].
  by rewrite put_erase, IH.
Qed.

Lemma pack_trucks_assignment fs capacity :
  Forall well_formed fs →
  pack_trucks fs capacity = Ok (map erase (assignment fs capacity)).
Proof.
  intros H. rewrite pack_trucks_ok by done.
  unfold assignment. by rewrite <- foldl_put_erase.
Qed.

Lemma pack_cluster_assignment fs capacity :
  Forall well_formed fs →
  pack_cluster fs capacity = Ok (map ids (assignment fs capacity)).
Proof.
  intros H. unfold pack_cluster. rewrite pack_trucks_assignment by done. simpl.
  by rewrite map_map.
Qed.

(** ** What one placement does *)

Lemma cfit_Some f cs cs' :
  cfit f cs = Some cs' →
  ∃ pre c post,
    cs = pre ++ c :: post ∧ cs' = pre ++ load_onto f c :: post ∧
    load_of f <= room c ∧ Forall (λ c, room c < load_of f) pre.
Proof.
  revert cs'. induction cs as [|c cs IH]; simpl; intros cs' H; [done |].
  destruct (Qle_bool (load_of f) (room c)) eqn:E.
  - inversion H; subst. exists [], c, cs. repeat split; [| constructor].
    by apply Qle_bool_iff.
  - destruct (cfit f cs) as [r|]; simpl in H; [| done]. inversion H; subst.
    destruct (IH r eq_refl) as (pre & c' & post & -> & -> & Hle & Hpre).
    exists (c :: pre), c', post. repeat split; [done |].
    constructor; [by apply Qle_bool_false | done].
Qed.

Lemma cfit_None f cs : cfit f cs = None → Forall (λ c, room c < load_of f) cs.
Proof.
  induction cs as [|c cs IH]; simpl; intros H; [constructor |].
  destruct (Qle_bool (load_of f) (room c)) eqn:E; [done |].
  destruct (cfit f cs); [done |].
  constructor; [by apply Qle_bool_false | by apply IH].
Qed.

(** The two outcomes of [cput], on the freshly sorted working list [ws]. *)
Lemma cput_cases capacity cs f :
  let ws := py_sort room false cs in
  (∃ pre c post,
      ws = pre ++ c :: post ∧ cput capacity cs f = pre ++ load_onto f c :: post ∧
      load_of f <= room c ∧ Forall (λ c, room c < load_of f) pre) ∨
  (cput capacity cs f =
     ws ++ [Carrier [f] (py_max (capacity - load_of f) 0) (length ws)] ∧
   Forall (λ c, room c < load_of f) ws).
Proof.
  intros ws. unfold cput. fold ws. destruct (cfit f ws) as [cs'|] eqn:E.
  - left. apply cfit_Some in E as (pre & c & post & ? & ? & ? & ?). by exists pre, c, post.
  - right. split; [done | by apply cfit_None].
Qed.

(** Every farmer handed to [cput] ends in exactly one carrier. *)
Lemma cput_items capacity cs f :
  concat (map items (cput capacity cs f)) ≡ₚ f :: concat (map items cs).
Proof.
  pose proof (py_sort_perm room false cs) as Hp.
  destruct (cput_cases capacity cs f) as
      [(pre & c & post & Hws & -> & _) | [-> _]].
  - rewrite <- Hp, Hws. rewrite !map_app, !concat_app. simpl.
    rewrite (Permutation_middle _ _ f). apply Permutation_app_head.
    rewrite <- !app_assoc. simpl.
    rewrite <- (Permutation_middle (items c)). done.
  - rewrite map_app, concat_app. simpl. rewrite Hp.
    by rewrite <- Permutation_cons_append.
Qed.

Lemma run_items capacity fs cs :
  concat (map items (foldl (cput capacity) cs fs)) ≡ₚ concat (map items cs) ++ fs.
Proof.
  revert cs. induction fs as [|f fs IH]; intros cs; simpl.
  - by rewrite app_nil_r.
  - rewrite IH, cput_items. by rewrite <- Permutation_middle.
Qed.

Lemma assignment_items fs capacity :
  concat (map items (assignment fs capacity)) ≡ₚ List.filter is_valid fs.
Proof. unfold assignment. rewrite run_items. simpl. apply sorted_valid_perm. Qed.

(** Creation numbers: the carriers are numbered 0, 1, ... in the order in
    which they were opened; the working list holds them in some order. *)
Lemma cput_born capacity cs f :
  map born cs ≡ₚ seq 0 (length cs) →
  map born (cput capacity cs f) ≡ₚ seq 0 (length (cput capacity cs f)).
Proof.
  intros Hb.
  pose proof (py_sort_perm room false cs) as Hp.
  destruct (cput_cases capacity cs f) as
      [(pre & c & post & Hws & -> & _) | [-> _]].
  - assert (map born (pre ++ load_onto f c :: post) = map born (pre ++ c :: post)) as ->.
    { by rewrite !map_app. }
    assert (length (pre ++ load_onto f c :: post) = length cs) as ->.
    { rewrite <- (py_sort_length room false cs), Hws. by rewrite !length_app. }
    by rewrite <- Hws, Hp.
  - rewrite map_app, length_app, py_sort_length. simpl.
    rewrite Nat.add_1_r, seq_S. simpl. by rewrite Hp, Hb.
Qed.

Lemma run_born capacity fs cs :
  map born cs ≡ₚ seq 0 (length cs) →
  map born (foldl (cput capacity) cs fs) ≡ₚ
    seq 0 (length (foldl (cput capacity) cs fs)).
Proof.
  revert cs. induction fs as [|f fs IH]; intros cs H; simpl; [done |].
  by apply IH, cput_born.
Qed.

(** ** Invariants of the working list *)

Lemma run_invariant capacity (P : list carrier → Prop) fs cs :
  (∀ cs f, P cs → is_valid f → P (cput capacity cs f)) →
  P cs → Forall (λ f, is_valid f) fs → P (foldl (cput capacity) cs fs).
Proof.
  intros Hstep Hcs Hfs. revert cs Hcs.
  induction Hfs as [|f fs Hf _ IH]; intros cs Hcs; simpl; [done |].
  by apply IH, Hstep.
Qed.

Lemma is_valid_pos f : is_valid f → 0 < load_of f.
Proof. intros H. by apply Qlt_bool_iff, Is_true_true. Qed.

Lemma sorted_valid_valid fs : Forall (λ f, is_valid f) (sorted_valid fs).
Proof.
  rewrite sorted_valid_perm. apply Forall_forall. intros f Hf.
  apply list_elem_of_In, filter_In in Hf as [_ Hf]. by apply Is_true_true.
Qed.

Lemma sum_loads_app fs gs : sum_loads (fs ++ gs) == sum_loads fs + sum_loads gs.
Proof. induction fs as [|f fs IH]; simpl; [lra | rewrite IH; lra]. Qed.

Lemma py_max_0 a : py_max a 0 = if Qlt_bool a 0 then 0 else a.
Proof. done. Qed.

Lemma tidy_within capacity c : tidy capacity c → within capacity (items c).
Proof.
  intros (_ & Hroom & [Hsum | (f & ? & ? & _)]); [left; lra | right; eauto].
Qed.

Lemma cput_tidy capacity cs f :
  Forall (tidy capacity) cs → is_valid f → Forall (tidy capacity) (cput capacity cs f).
Proof.
  intros Hcs Hf%is_valid_pos.
  rewrite <- (py_sort_perm room false cs) in Hcs.
  destruct (cput_cases capacity cs f) as
      [(pre & c & post & Hws & -> & Hle & _) | [-> _]].
  - rewrite Hws in Hcs. apply Forall_app in Hcs as [Hpre Hcs].
    apply Forall_cons in Hcs as [Hc Hpost].
    apply Forall_app. split; [done |]. constructor; [| done].
    destruct Hc as (Hne & Hroom & Hsum). unfold tidy. simpl.
    split; [by destruct (items c) |]. split; [lra |].
    destruct Hsum as [Hsum | (f0 & _ & _ & H0)].
    + left. rewrite sum_loads_app. simpl. lra.
    + rewrite H0 in Hle. lra.
  - apply Forall_app. split; [done |]. constructor; [| constructor].
    unfold tidy. simpl. rewrite py_max_0.
    destruct (Qlt_bool (capacity - load_of f) 0) eqn:E.
    + apply Qlt_bool_iff in E. split; [done |]. split; [lra |].
      right. exists f. repeat split; [lra].
    + apply Qlt_bool_false in E. split; [done |]. split; [lra |]. left. lra.
Qed.

Lemma assignment_tidy fs capacity : Forall (tidy capacity) (assignment fs capacity).
Proof.
  apply (run_invariant capacity (Forall (tidy capacity))).
  - apply cput_tidy.
  - constructor.
  - apply sorted_valid_valid.
Qed.

(** With a positive capacity no truck ever has more room than a new one. *)
Lemma cput_room_le capacity cs f :
  0 < capacity →
  Forall (λ c, room c <= capacity) cs → is_valid f →
  Forall (λ c, room c <= capacity) (cput capacity cs f).
Proof.
  intros Hcap Hcs Hf%is_valid_pos.
  rewrite <- (py_sort_perm room false cs) in Hcs.
  destruct (cput_cases capacity cs f) as
      [(pre & c & post & Hws & -> & Hle & _) | [-> _]].
  - rewrite Hws in Hcs. apply Forall_app in Hcs as [Hpre Hcs].
    apply Forall_cons in Hcs as [Hc Hpost].
    apply Forall_app. split; [done |]. constructor; [simpl; lra | done].
  - apply Forall_app. split; [done |]. constructor; [| constructor].
    simpl. rewrite py_max_0.
    destruct (Qlt_bool (capacity - load_of f) 0); lra.
Qed.

(** A full truck ([room] 0) is never touched again by a valid farmer. *)
Lemma cput_keeps_full capacity cs f c :
  is_valid f → c ∈ cs → room c = 0 → c ∈ cput capacity cs f.
Proof.
  intros Hf%is_valid_pos Hc Hroom.
  rewrite <- (py_sort_perm room false cs) in Hc.
  destruct (cput_cases capacity cs f) as
      [(pre & c' & post & Hws & -> & Hle & _) | [-> _]].
  - rewrite Hws in Hc. apply elem_of_app in Hc as [Hc | Hc].
    + apply elem_of_app. by left.
    + apply elem_of_cons in Hc as [-> | Hc].
      * rewrite Hroom in Hle. lra.
      * apply elem_of_app. right. by apply elem_of_cons; right.
  - apply elem_of_app. by left.
Qed.

(** An oversized farmer opens a truck of its own, which is full at once. *)
Lemma cput_oversized capacity cs f :
  Forall (λ c, room c <= capacity) cs → capacity < load_of f →
  ∃ n, Carrier [f] 0 n ∈ cput capacity cs f.
Proof.
  intros Hcs Hbig.
  rewrite <- (py_sort_perm room false cs) in Hcs.
  destruct (cput_cases capacity cs f) as
      [(pre & c & post & Hws & -> & Hle & _) | [-> _]].
  - rewrite Hws in Hcs. apply Forall_app in Hcs as [_ Hcs].
    apply Forall_cons in Hcs as [Hc _]. lra.
  - eexists. apply elem_of_app. right. apply list_elem_of_singleton.
    rewrite py_max_0.
    assert (Qlt_bool (capacity - load_of f) 0 = true) as ->; [| done].
    apply Qlt_bool_iff. lra.
Qed.

(** ** Lists of lists *)

Lemma elem_of_concat_lookup {A} (x : A) (l : list (list A)) :
  x ∈ concat l → ∃ i c, l !! i = Some c ∧ x ∈ c.
Proof.
  induction l as [|c l IH]; simpl; [by intros ?%elem_of_nil |].
  intros [H | H]%elem_of_app.
  - by exists 0%nat, c.
  - destruct (IH H) as (i & c' & ? & ?). by exists (S i), c'.
Qed.

Lemma NoDup_concat_unique {A} (x : A) (l : list (list A)) i j c c' :
  NoDup (concat l) → l !! i = Some c → l !! j = Some c' → x ∈ c → x ∈ c' → i = j.
Proof.
  revert i j. induction l as [|d l IH]; intros i j Hnd Hi Hj Hc Hc'; [done |].
  simpl in Hnd. apply NoDup_app in Hnd as (_ & Hdisj & Hnd).
  assert (∀ k e, l !! k = Some e → x ∈ e → x ∈ concat l) as Hin.
  { clear. intros k e Hk He. apply list_elem_of_In, in_concat. exists e.
    split; apply list_elem_of_In; [by eapply list_elem_of_lookup_2 | done]. }
  destruct i as [|i], j as [|j]; simpl in *; [done | | |].
  - inversion Hi; subst. destruct (Hdisj x Hc). by eapply Hin.
  - inversion Hj; subst. destruct (Hdisj x Hc'). by eapply Hin.
  - f_equal. by eapply IH.
Qed.

Lemma NoDup_concat_each {A} (l : list (list A)) i c :
  NoDup (concat l) → l !! i = Some c → NoDup c.
Proof.
  revert i. induction l as [|d l IH]; intros i Hnd Hi; [done |].
  simpl in Hnd. apply NoDup_app in Hnd as (Hd & _ & Hnd).
  destruct i; simpl in Hi; [by inversion Hi; subst | by eapply IH].
Qed.

Lemma NoDup_map_inj {A B} (g : A → B) (l : list A) x y :
  NoDup (map g l) → x ∈ l → y ∈ l → g x = g y → x = y.
Proof.
  induction l as [|z l IH]; simpl; intros Hnd Hx Hy Hg; [by apply elem_of_nil in Hx |].
  apply NoDup_cons in Hnd as [Hz Hnd].
  assert (∀ w, w ∈ l → g w ≠ g z) as Hne.
  { intros w Hw Heq. apply Hz. rewrite <- Heq.
    apply list_elem_of_In, in_map, list_elem_of_In, Hw. }
  apply elem_of_cons in Hx as [-> | Hx], Hy as [-> | Hy]; [done | | | by apply IH].
  - destruct (Hne y Hy). done.
  - destruct (Hne x Hx). done.
Qed.

Lemma concat_map_map {A B} (g : A → B) (l : list (list A)) :
  concat (map (map g) l) = map g (concat l).
Proof. induction l as [|c l IH]; simpl; [done |]. by rewrite map_app, IH. Qed.

(** The ids in the result are those of the valid farmers, one for one. *)
Lemma assignment_ids fs capacity :
  concat (map ids (assignment fs capacity)) ≡ₚ map id_of (List.filter is_valid fs).
Proof.
  rewrite <- (assignment_items fs capacity).
  rewrite <- concat_map_map, map_map. done.
Qed.

(** * The claims *)

(** C7. For the items (A,2500), (B,2500), (C,2500) and capacity 5000,
    [pack_cluster] returns exactly two carriers: A and B together (an exact
    fit: the truck is left with remaining capacity 0) and C on its own (its
    truck keeps 2500). *)
Theorem example5_two_carriers :
  pack_cluster example5 5000 = Ok [[VStr "A"; VStr "B"]; [VStr "C"]] ∧
  pack_trucks example5 5000 =
    Ok [Truck [VStr "A"; VStr "B"] 0; Truck [VStr "C"] 2500] ∧
  map (λ c, Qred (sum_loads (items c))) (assignment example5 5000) = [5000; 2500].
Proof. by vm_compute. Qed.

(** C9. Whatever the input list and the capacity, no carrier of a result of
    [pack_cluster] is empty. *)
Theorem no_empty_carrier (farmer_list : list farmer) (capacity : Q)
    (res : list (list value)) :
  pack_cluster farmer_list capacity = Ok res → Forall (λ c, c ≠ []) res.
Proof.
  intros H. pose proof (pack_cluster_inv _ _ _ H) as Hwf.
  rewrite pack_cluster_assignment in H by done. inversion H; subst.
  apply Forall_map. eapply Forall_impl; [apply assignment_tidy |].
  intros c (Hne & _). unfold ids. by destruct (items c).
Qed.

Lemma no_empty_carrier_witness :
  Forall (λ c : list value, c ≠ []) [[VStr "A"; VStr "B"]; [VStr "C"]].
Proof. apply (no_empty_carrier example5 5000). by vm_compute. Defined.

(** C5, as the code has it.  On a list that [pack_cluster] accepts (every
    load absent or a number, every valid farmer with an id), the ids in the
    carriers of the result are exactly the ids of the valid farmers
    (load > 0), each as often as it occurs among them; so, ids being
    unique, every valid farmer has its id in exactly one carrier and exactly
    once there: none is dropped. *)
Theorem every_valid_farmer_packed (farmer_list : list farmer) (capacity : Q)
    (f : farmer) :
  Forall (λ f, well_formed f) farmer_list → 0 < capacity →
  NoDup (map id_of (List.filter is_valid farmer_list)) →
  f ∈ farmer_list → is_valid f →
  ∃ res i c,
    pack_cluster farmer_list capacity = Ok res ∧
    concat res ≡ₚ map id_of (List.filter is_valid farmer_list) ∧
    res !! i = Some c ∧ id_of f ∈ c ∧ NoDup c ∧
    ∀ j c', res !! j = Some c' → id_of f ∈ c' → j = i.
Proof.
  intros Hwf _ Hnd Hf Hv.
  pose proof (assignment_ids farmer_list capacity) as Hids.
  rewrite <- Hids in Hnd.
  assert (id_of f ∈ concat (map ids (assignment farmer_list capacity))) as Hin.
  { rewrite Hids. apply list_elem_of_In, in_map, filter_In.
    split; [by apply list_elem_of_In | by apply Is_true_true]. }
  destruct (elem_of_concat_lookup _ _ Hin) as (i & c & Hi & Hc).
  exists (map ids (assignment farmer_list capacity)), i, c.
  split; [by apply pack_cluster_assignment |].
  repeat split; [done | done | done | by eapply NoDup_concat_each |].
  intros j c' Hj Hc'. by eapply NoDup_concat_unique.
Qed.

Lemma every_valid_farmer_packed_witness :
  ∃ res i c,
    pack_cluster example5 5000 = Ok res ∧
    concat res ≡ₚ map id_of (List.filter is_valid example5) ∧
    res !! i = Some c ∧ id_of (mk_farmer "B" (VNum 2500)) ∈ c ∧ NoDup c ∧
    ∀ j c', res !! j = Some c' → id_of (mk_farmer "B" (VNum 2500)) ∈ c' → j = i.
Proof.
  apply (every_valid_farmer_packed example5 5000).
  - repeat constructor.
  - reflexivity.
  - by apply (bool_decide_unpack _); vm_compute.
  - by apply (bool_decide_unpack _); vm_compute.
  - reflexivity.
Defined.

(** C5, as the spec has it, fails: next to a load that is not a number the
    valid farmer A is in no carrier, as the call raises. *)
Lemma valid_farmer_lost_with_bad_row :
  mk_farmer "A" (VNum 2500) ∈ example_bad_row ∧
  is_valid (mk_farmer "A" (VNum 2500)) ∧ 0 < 5000 ∧
  pack_cluster example_bad_row 5000 = Raise ValueError ∧
  ¬ ∃ res, pack_cluster example_bad_row 5000 = Ok res.
Proof.
  split; [by apply (bool_decide_unpack _); vm_compute |].
  split; [by vm_compute |]. split; [done |].
  assert (pack_cluster example_bad_row 5000 = Raise ValueError) as H by (by vm_compute).
  split; [done |]. intros [res Hres]. rewrite H in Hres. done.
Qed.

Lemma assignment_oversized fs capacity f :
  0 < capacity → f ∈ fs → capacity < load_of f →
  ∃ n, Carrier [f] 0 n ∈ assignment fs capacity.
Proof.
  intros Hcap Hf Hbig.
  assert (f ∈ sorted_valid fs) as Hin.
  { rewrite sorted_valid_perm. apply list_elem_of_In, filter_In.
    split; [by apply list_elem_of_In |]. apply Qlt_bool_iff. lra. }
  pose proof (sorted_valid_valid fs) as Hvalid.
  unfold assignment.
  apply list_elem_of_split in Hin as (pre & post & Heq). rewrite Heq in *.
  apply Forall_app in Hvalid as [Hpre Hpost].
  apply Forall_cons in Hpost as [_ Hpost].
  rewrite foldl_app. simpl.
  destruct (cput_oversized capacity (foldl (cput capacity) [] pre) f) as [n Hn];
    [| done |].
  { apply (run_invariant capacity (Forall (λ c, room c <= capacity)));
      [| constructor | done].
    intros cs g. by apply cput_room_le. }
  exists n.
  apply (run_invariant capacity (λ cs, Carrier [f] 0 n ∈ cs)); [| done | done].
  intros cs g Hcs Hg. by apply cput_keeps_full.
Qed.

(** C6, as the code has it.  On a list that [pack_cluster] accepts (every
    load absent or a number, every valid farmer with an id), a valid farmer
    whose load exceeds the (positive) capacity is still placed: the final
    trucks include one that holds this farmer's id alone and has remaining
    capacity 0.  For the single item (A,6000) and capacity 5000 the result
    is the one carrier [A]. *)
Theorem oversized_item_alone :
  (∀ (farmer_list : list farmer) (capacity : Q) (f : farmer),
     Forall (λ f, well_formed f) farmer_list → 0 < capacity →
     f ∈ farmer_list → capacity < load_of f →
     ∃ trucks,
       pack_trucks farmer_list capacity = Ok trucks ∧
       pack_cluster farmer_list capacity = Ok (map farmers trucks) ∧
       Truck [id_of f] 0 ∈ trucks) ∧
  pack_cluster example2 5000 = Ok [[VStr "A"]] ∧
  pack_trucks example2 5000 = Ok [Truck [VStr "A"] 0].
Proof.
  split; [| by vm_compute].
  intros fs capacity f Hwf Hcap Hf Hbig.
  exists (map erase (assignment fs capacity)).
  split; [by apply pack_trucks_assignment |]. split.
  - unfold pack_cluster. by rewrite pack_trucks_assignment.
  - destruct (assignment_oversized fs capacity f) as [n Hn]; [done.. |].
    apply list_elem_of_In, in_map_iff. exists (Carrier [f] 0 n).
    split; [done | by apply list_elem_of_In].
Qed.

Lemma oversized_item_alone_witness :
  ∃ trucks,
    pack_trucks example_6551 4 = Ok trucks ∧
    pack_cluster example_6551 4 = Ok (map farmers trucks) ∧
    Truck [id_of (mk_farmer "B" (VNum 5))] 0 ∈ trucks.
Proof.
  apply (proj1 oversized_item_alone example_6551 4).
  - repeat constructor.
  - reflexivity.
  - by apply (bool_decide_unpack _); vm_compute.
  - reflexivity.
Defined.

(** C6, as the spec has it, fails: next to a load that is not a number the
    farmer A, heavier than the truck, is not placed, as the call raises. *)
Lemma oversized_farmer_lost_with_bad_row :
  mk_farmer "A" (VNum 6000) ∈ example_oversized_bad_row ∧
  is_valid (mk_farmer "A" (VNum 6000)) ∧
  0 < 5000 ∧ 5000 < load_of (mk_farmer "A" (VNum 6000)) ∧
  pack_cluster example_oversized_bad_row 5000 = Raise ValueError ∧
  ¬ ∃ trucks, pack_trucks example_oversized_bad_row 5000 = Ok trucks.
Proof.
  split; [by apply (bool_decide_unpack _); vm_compute |].
  split; [by vm_compute |]. split; [done |]. split; [by vm_compute |].
  split; [by vm_compute |].
  assert (pack_trucks example_oversized_bad_row 5000 = Raise ValueError) as H
    by (by vm_compute).
  intros [ts Hts]. rewrite H in Hts. done.
Qed.

(** ** A capacity that is not positive *)

Lemma all_pairs_sorted {A} (R : A → A → Prop) l :
  (∀ x y, x ∈ l → y ∈ l → R x y) → StronglySorted R l.
Proof.
  induction l as [|x l IH]; intros H; constructor.
  - apply IH. intros y z Hy Hz. apply H; by apply elem_of_cons; right.
  - apply Forall_forall. intros y Hy. apply H; [by left | by right].
Qed.

Lemma put_solo capacity fs f :
  capacity <= 0 → is_valid f → put capacity (map solo fs) f = map solo (fs ++ [f]).
Proof.
  intros Hcap Hf%is_valid_pos. unfold put.
  rewrite py_sort_id. 2:{
    apply all_pairs_sorted. intros t u Ht Hu.
    apply list_elem_of_In, in_map_iff in Ht as (? & <- & _).
    apply list_elem_of_In, in_map_iff in Hu as (? & <- & _).
    unfold in_order, before. simpl. by apply Qlt_bool_false. }
  assert (fit (id_of f) (load_of f) (map solo fs) = None) as ->.
  { induction fs as [|g fs IH]; simpl; [done |].
    assert (Qle_bool (load_of f) 0 = false) as -> by (by apply Qle_bool_false).
    by rewrite IH. }
  rewrite map_app. simpl. unfold new_truck, solo. rewrite py_max_0.
  assert (Qlt_bool (capacity - load_of f) 0 = true) as ->; [| done].
  apply Qlt_bool_iff. lra.
Qed.

Lemma run_solo capacity done_ todo :
  capacity <= 0 → Forall (λ f, is_valid f) todo →
  foldl (put capacity) (map solo done_) todo = map solo (done_ ++ todo).
Proof.
  intros Hcap Htodo. revert done_.
  induction Htodo as [|f todo Hf _ IH]; intros done_; simpl.
  - by rewrite app_nil_r.
  - rewrite put_solo by done. rewrite IH. by rewrite <- app_assoc.
Qed.

(** C3, as the code has it.  A capacity ≤ 0 is not rejected: on a list that
    [pack_cluster] accepts it returns a result, in which every valid farmer
    is alone in a carrier of its own, heaviest first. *)
Theorem nonpositive_capacity_result (farmer_list : list farmer) (capacity : Q) :
  Forall (λ f, well_formed f) farmer_list → capacity <= 0 →
  pack_cluster farmer_list capacity =
    Ok (map (λ f, [id_of f]) (sorted_valid farmer_list)).
Proof.
  intros Hwf Hcap. rewrite pack_cluster_ok by done. f_equal.
  pose proof (run_solo capacity [] (sorted_valid farmer_list) Hcap
                (sorted_valid_valid _)) as Hrun.
  simpl in Hrun. rewrite Hrun. by rewrite map_map.
Qed.

Lemma nonpositive_capacity_result_witness :
  pack_cluster example5 (-1) = Ok (map (λ f, [id_of f]) (sorted_valid example5)).
Proof.
  apply (nonpositive_capacity_result example5 (-1)).
  - repeat constructor.
  - by vm_compute.
Defined.

(** C3, as the spec has it, fails: with capacity -1 the call returns three
    one-farmer carriers and raises nothing. *)
Lemma nonpositive_capacity_not_rejected :
  -1 <= 0 ∧
  pack_cluster example5 (-1) = Ok [[VStr "A"]; [VStr "B"]; [VStr "C"]] ∧
  ¬ ∃ e, pack_cluster example5 (-1) = Raise e.
Proof.
  split; [by vm_compute |].
  assert (pack_cluster example5 (-1) = Ok [[VStr "A"]; [VStr "B"]; [VStr "C"]]) as H
    by (by vm_compute).
  split; [done |]. intros [e He]. rewrite H in He. done.
Qed.

(** ** Loads that are not numbers *)

Lemma valid_farmers_raises fs f v e :
  f ∈ fs → f !! "load_kg" = Some v → py_float v = Raise e →
  ∃ e', valid_farmers fs = Raise e' ∧ (e' = ValueError ∨ e' = TypeError).
Proof.
  intros Hf Hv He. induction fs as [|g fs IH]; [by apply elem_of_nil in Hf |].
  simpl. destruct (py_float (dict_get g "load_kg" (VNum 0))) as [x|e0] eqn:E; simpl.
  - apply elem_of_cons in Hf as [-> | Hf].
    + unfold dict_get in E. rewrite Hv in E. simpl in E. congruence.
    + destruct (IH Hf) as (e' & -> & He'). simpl. eauto.
  - exists e0. split; [done |].
    destruct (dict_get g "load_kg" (VNum 0)); simpl in E; inversion E; auto.
Qed.

(** C2, as the code has it.  A farmer whose load is absent or a number ≤ 0
    is skipped without an error: on a list that [pack_cluster] accepts, ids
    being unique, its id is in no carrier.  A load that [float()] rejects is
    not skipped: the exception of [float()] ends the call, whatever else the
    list holds; for the items (A,0), (B,-5), (C,"bad") the call raises
    ValueError. *)
Theorem invalid_load_policy :
  (∀ (farmer_list : list farmer) (capacity : Q) (f : farmer),
     Forall (λ f, well_formed f) farmer_list → NoDup (map id_of farmer_list) →
     f ∈ farmer_list → ¬ is_valid f →
     ∃ res, pack_cluster farmer_list capacity = Ok res ∧ id_of f ∉ concat res) ∧
  (∀ (farmer_list : list farmer) (capacity : Q) (f : farmer) (v : value) (e : exn),
     f ∈ farmer_list → f !! "load_kg" = Some v → py_float v = Raise e →
     ∃ e', pack_cluster farmer_list capacity = Raise e' ∧
           (e' = ValueError ∨ e' = TypeError)) ∧
  pack_cluster example4 5000 = Raise ValueError.
Proof.
  split; [| split; [| by vm_compute]].
  - intros fs capacity f Hwf Hnd Hf Hinv.
    exists (map ids (assignment fs capacity)).
    split; [by apply pack_cluster_assignment |].
    rewrite assignment_ids. intros Hin.
    apply list_elem_of_In, in_map_iff in Hin as (g & Hid & Hg).
    apply filter_In in Hg as [Hg Hv]. apply list_elem_of_In in Hg.
    assert (g = f) as -> by (by eapply NoDup_map_inj).
    apply Hinv. by apply Is_true_true.
  - intros fs capacity f v e Hf Hv He.
    destruct (valid_farmers_raises fs f v e Hf Hv He) as (e' & Hr & He').
    exists e'. split; [| done].
    unfold pack_cluster, pack_trucks. by rewrite Hr.
Qed.

Lemma invalid_load_policy_witness :
  (∃ res, pack_cluster (mk_farmer "Z" (VNum 0) :: example5) 5000 = Ok res ∧
          id_of (mk_farmer "Z" (VNum 0)) ∉ concat res) ∧
  (∃ e', pack_cluster example4 5000 = Raise e' ∧ (e' = ValueError ∨ e' = TypeError)).
Proof.
  split.
  - apply (proj1 invalid_load_policy (mk_farmer "Z" (VNum 0) :: example5) 5000).
    + repeat constructor.
    + by apply (bool_decide_unpack _); vm_compute.
    + by apply (bool_decide_unpack _); vm_compute.
    + by vm_compute.
  - apply (proj1 (proj2 invalid_load_policy) example4 5000
             (mk_farmer "C" (VStr "bad")) (VStr "bad") ValueError).
    + by apply (bool_decide_unpack _); vm_compute.
    + reflexivity.
    + reflexivity.
Defined.

(** C2, as the spec has it, fails: the items (A,0), (B,-5), (C,"bad") do not
    give the empty result; the call raises. *)
Lemma example4_not_empty_result :
  pack_cluster example4 5000 = Raise ValueError ∧
  pack_cluster example4 5000 ≠ Ok [].
Proof. split; [by vm_compute |]. by vm_compute. Qed.

(** ** The order of the result *)





(** ** The store: what a call may write *)

Lemma evolves_refl lt σ : evolves lt σ σ.
Proof. intros l _. destruct (σ !! l) as [[d|vs]|]; eauto. Qed.

Lemma evolves_insert_fresh lt (σ : store) l o :
  σ !! l = None → evolves lt σ (<[l:=o]> σ).
Proof.
  intros Hl l' _. destruct (decide (l = l')) as [<- | Hne].
  - by rewrite Hl.
  - rewrite lookup_insert_ne by done. destruct (σ !! l') as [[d|vs]|]; eauto.
Qed.

Lemma evolves_insert_list lt (σ : store) l vs vs' :
  σ !! l = Some (OList vs) → evolves lt σ (<[l:=OList vs']> σ).
Proof.
  intros Hl l' _. destruct (decide (l = l')) as [<- | Hne].
  - rewrite Hl, lookup_insert_eq. eauto.
  - rewrite lookup_insert_ne by done. destruct (σ !! l') as [[d|ws]|]; eauto.
Qed.

Lemma evolves_insert_dict lt (σ : store) l d d' :
  σ !! l = Some (ODict d) → d' !! "farmers" = d !! "farmers" →
  evolves lt σ (<[l:=ODict d']> σ).
Proof.
  intros Hl Hd l' _. destruct (decide (l = l')) as [<- | Hne].
  - rewrite Hl, lookup_insert_eq. eauto.
  - rewrite lookup_insert_ne by done. destruct (σ !! l') as [[e|ws]|]; eauto.
Qed.

Lemma evolves_insert_lt lt (σ : store) o : evolves lt σ (<[lt:=o]> σ).
Proof.
  intros l Hne. rewrite lookup_insert_ne by done.
  destruct (σ !! l) as [[d|vs]|]; eauto.
Qed.

Lemma owned_evolves σ0 σ σ' lt v :
  evolves lt σ σ' → owned σ0 σ lt v → owned σ0 σ' lt v.
Proof.
  intros Hev (t & d & lf & ids & -> & H0t & Hne & Ht & Hd & H0lf & Hne' & Hlf).
  pose proof (Hev t Hne) as Ht'. rewrite Ht in Ht'. destruct Ht' as (d' & Ht' & Hd').
  pose proof (Hev lf Hne') as Hlf'. rewrite Hlf in Hlf'. destruct Hlf' as (ids' & Hlf').
  exists t, d', lf, ids'. repeat split; try done. by rewrite Hd'.
Qed.

(** A write outside the store of the call leaves that store as it was. *)
Lemma trucks_inv_write σ0 lt (σ : store) l o :
  trucks_inv σ0 lt σ → σ0 !! l = None → l ≠ lt → evolves lt σ (<[l:=o]> σ) →
  trucks_inv σ0 lt (<[l:=o]> σ).
Proof.
  intros (Hsub & H0 & ts & Hts & Hown) Hl Hne Hev.
  split; [by apply insert_subseteq_r |]. split; [done |].
  exists ts. split; [by rewrite lookup_insert_ne |].
  eapply Forall_impl; [exact Hown |]. intros v. by apply owned_evolves.
Qed.

Lemma trucks_inv_fresh σ0 lt (σ : store) :
  trucks_inv σ0 lt σ →
  σ !! fresh (dom σ) = None ∧ σ0 !! fresh (dom σ) = None ∧ fresh (dom σ) ≠ lt.
Proof.
  intros (Hsub & H0 & ts & Hts & _).
  assert (σ !! fresh (dom σ) = None) as Hf by apply not_elem_of_dom, is_fresh.
  split; [done |]. split.
  - eapply lookup_weaken_None; [exact Hf | done].
  - intros Heq. rewrite Heq in Hf. congruence.
Qed.

Lemma scan_inv σ0 lt f load ts σ :
  trucks_inv σ0 lt σ → Forall (owned σ0 σ lt) ts →
  trucks_inv σ0 lt (Store.scan f load ts σ).2.
Proof.
  intros Hinv Hts. induction Hts as [|t ts Ht _ IH]; simpl; [done |].
  unfold run_bind, get_store, lift. simpl.
  destruct (Store.remaining σ t) as [r|]; simpl; [| done].
  destruct (Qle_bool load r); [| done].
  destruct Ht as (tl & d & lf & ids & -> & H0t & Hne & Htl & Hd & H0lf & Hne' & Hlf).
  unfold Store.farmers. simpl. rewrite Htl. simpl.
  unfold dict_index at 1. rewrite Hd. simpl.
  destruct (Store.farmer_id σ f) as [id|]; simpl; [| done].
  rewrite Hlf. simpl.
  assert (tl ≠ lf) as Hdiff by (intros ->; congruence).
  assert (trucks_inv σ0 lt (<[lf:=OList (ids ++ [id])]> σ)) as Hinv1.
  { apply trucks_inv_write; try done. by eapply evolves_insert_list. }
  unfold dict_sub. rewrite lookup_insert_ne by done. rewrite Htl.
  destruct (let* v := dict_index d "remaining" in as_num v) as [r'|]; simpl; [| done].
  apply trucks_inv_write; try done.
  eapply evolves_insert_dict; [by rewrite lookup_insert_ne |].
  by rewrite lookup_insert_ne.
Qed.

Lemma sort_inv σ0 lt key reverse σ :
  trucks_inv σ0 lt σ →
  trucks_inv σ0 lt (list_sort (VRef lt) key reverse σ).2 ∧
  ∀ σ', list_sort (VRef lt) key reverse σ = (Ok tt, σ') →
        ∃ ts, σ' !! lt = Some (OList ts) ∧ Forall (owned σ0 σ' lt) ts.
Proof.
  intros Hinv. pose proof Hinv as (Hsub & H0 & ts & Hts & Hown).
  unfold list_sort. rewrite Hts.
  destruct (py_sort_by (key σ) reverse ts) as [ts'|] eqn:E; simpl; [| done].
  apply py_sort_by_inv in E.
  assert (Forall (owned σ0 (<[lt:=OList ts']> σ) lt) ts') as Hown'.
  { eapply Permutation_Forall; [symmetry; exact E |].
    eapply Forall_impl; [exact Hown |].
    intros v. apply owned_evolves, evolves_insert_lt. }
  split.
  - split; [by apply insert_subseteq_r |]. split; [done |].
    exists ts'. by rewrite lookup_insert_eq.
  - intros σ' [= <-]. exists ts'. by rewrite lookup_insert_eq.
Qed.

Lemma open_truck_inv σ0 lt id r σ :
  trucks_inv σ0 lt σ →
  trucks_inv σ0 lt
    ((let! lst := new_list [id] in
      let! t := new_dict {[ "farmers" := lst; "remaining" := r ]} in
      list_append (VRef lt) t) σ).2.
Proof.
  intros Hinv.
  destruct (trucks_inv_fresh _ _ _ Hinv) as (Hf1 & H01 & Hne1).
  set (l1 := fresh (dom σ)) in *.
  set (σ1 := <[l1:=OList [id]]> σ).
  assert (trucks_inv σ0 lt σ1) as Hinv1.
  { apply trucks_inv_write; try done. by apply evolves_insert_fresh. }
  destruct (trucks_inv_fresh _ _ _ Hinv1) as (Hf2 & H02 & Hne2).
  set (l2 := fresh (dom σ1)) in *.
  set (d := ({[ "farmers" := VRef l1; "remaining" := r ]} : gmap string value)).
  set (σ2 := <[l2:=ODict d]> σ1).
  assert (trucks_inv σ0 lt σ2) as Hinv2.
  { apply trucks_inv_write; try done. by apply evolves_insert_fresh. }
  unfold run_bind, new_list, new_dict, new_obj, list_append. simpl.
  fold l1 σ1 l2 d σ2.
  destruct Hinv2 as (Hsub & H0 & ts & Hts & Hown). rewrite Hts. simpl.
  split; [by apply insert_subseteq_r |]. split; [done |].
  exists (ts ++ [VRef l2]). split; [by rewrite lookup_insert_eq |].
  apply Forall_app. split.
  - eapply Forall_impl; [exact Hown |].
    intros v. apply owned_evolves, evolves_insert_lt.
  - constructor; [| constructor].
    assert (l1 ≠ l2) as Hdiff.
    { intros Heq. unfold σ1 in Hf2. rewrite <- Heq, lookup_insert_eq in Hf2. done. }
    exists l2, d, l1, [id]. repeat split; try done.
    + rewrite lookup_insert_ne by done. unfold σ2. by rewrite lookup_insert_eq.
    + rewrite lookup_insert_ne by done. unfold σ2. rewrite lookup_insert_ne by done.
      unfold σ1. by rewrite lookup_insert_eq.
Qed.

Lemma store_place_inv σ0 lt capacity f σ :
  trucks_inv σ0 lt σ → trucks_inv σ0 lt (Store.place capacity (VRef lt) f σ).2.
Proof.
  intros Hinv. unfold Store.place, run_bind at 1 2, get_store, lift. simpl.
  destruct (Store.load_key σ f) as [load|]; simpl; [| done].
  destruct (sort_inv σ0 lt Store.remaining false σ Hinv) as [Hinv1 Hsorted].
  unfold run_bind at 1.
  destruct (list_sort (VRef lt) Store.remaining false σ) as [[[]|e] σ1];
    simpl in *; [| done].
  destruct (Hsorted σ1 eq_refl) as (ts & Hts & Hown).
  unfold run_bind at 1 2. simpl. rewrite Hts. simpl.
  pose proof (scan_inv σ0 lt f load ts σ1 Hinv1 Hown) as Hinv2.
  unfold run_bind at 1.
  destruct (Store.scan f load ts σ1) as [[placed|e] σ2]; simpl in *; [| done].
  destruct placed; [done |].
  unfold run_bind at 1 2. simpl.
  destruct (Store.farmer_id σ2 f) as [id|]; simpl; [| done].
  by apply open_truck_inv.
Qed.

Lemma store_loop_inv σ0 lt capacity fs σ :
  trucks_inv σ0 lt σ → trucks_inv σ0 lt (Store.pack_loop capacity (VRef lt) fs σ).2.
Proof.
  revert σ. induction fs as [|f fs IH]; intros σ Hinv; simpl; [done |].
  pose proof (store_place_inv σ0 lt capacity f σ Hinv) as Hinv1.
  unfold run_bind.
  destruct (Store.place capacity (VRef lt) f σ) as [[[]|e] σ1]; simpl in *; [| done].
  by apply IH.
Qed.

Lemma pack_cluster_frame (σ : store) farmer_list capacity :
  σ ⊆ (Store.pack_cluster farmer_list capacity σ).2.
Proof.
  unfold Store.pack_cluster, run_bind at 1 2 3, get_store, lift. simpl.
  destruct (list_at σ farmer_list) as [items|]; simpl; [| done].
  destruct (Store.valid_farmers σ items) as [valid|]; simpl; [| done].
  unfold run_bind at 1, new_list, new_obj. simpl.
  assert (σ !! fresh (dom σ) = None) as Hf by apply not_elem_of_dom, is_fresh.
  set (lv := fresh (dom σ)) in *. set (σ1 := <[lv:=OList valid]> σ).
  assert (σ ⊆ σ1) as Hsub1 by (by apply insert_subseteq).
  unfold run_bind at 1, list_sort. unfold σ1 at 1. rewrite lookup_insert_eq.
  destruct (py_sort_by (Store.load_key σ1) true valid) as [sorted|]; simpl; [| done].
  set (σ2 := <[lv:=OList sorted]> σ1).
  assert (σ ⊆ σ2) as Hsub2 by (by apply insert_subseteq_r).
  unfold run_bind at 1. simpl.
  assert (σ2 !! fresh (dom σ2) = None) as Hf2 by apply not_elem_of_dom, is_fresh.
  set (lt := fresh (dom σ2)) in *. set (σ3 := <[lt:=OList []]> σ2).
  assert (trucks_inv σ lt σ3) as Hinv.
  { split; [by apply insert_subseteq_r, Hsub2; eapply lookup_weaken_None |].
    split; [by eapply lookup_weaken_None |].
    exists []. split; [by unfold σ3; rewrite lookup_insert_eq | constructor]. }
  unfold run_bind at 1 2. simpl.
  destruct (σ3 !! lv) as [[d|fs]|]; simpl; try (by destruct Hinv).
  pose proof (store_loop_inv σ lt capacity fs σ3 Hinv) as Hinv'.
  unfold run_bind at 1.
  destruct (Store.pack_loop capacity (VRef lt) fs σ3) as [[[]|e] σ4]; simpl in *;
    [| by destruct Hinv'].
  destruct Hinv' as (Hsub4 & _).
  unfold run_bind. simpl.
  destruct (σ4 !! lt) as [[d|ts]|]; simpl; try done.
  destruct (map_result (Store.farmers σ4) ts) as [out|]; simpl; [| done].
  etrans; [exact Hsub4 |]. apply insert_subseteq, not_elem_of_dom, is_fresh.
Qed.

(** ** Two runs on the same numbers *)

Lemma Qle_bool_same a a' b b' : a == a' → b == b' → Qle_bool a b = Qle_bool a' b'.
Proof.
  intros Ha Hb. destruct (Qle_bool a' b') eqn:E.
  - apply Qle_bool_iff. apply Qle_bool_iff in E. lra.
  - apply Qle_bool_false. apply Qle_bool_false in E. lra.
Qed.

Lemma Qlt_bool_same a a' b b' : a == a' → b == b' → Qlt_bool a b = Qlt_bool a' b'.
Proof. intros Ha Hb. unfold Qlt_bool. by rewrite (Qle_bool_same b b' a a'). Qed.

Lemma bind_rel {A A' B B'} (R : A → A' → Prop) (S : B → B' → Prop)
    (m : result A) (m' : result A') (k : A → result B) (k' : A' → result B') :
  result_rel R m m' →
  (∀ a a', R a a' → result_rel S (k a) (k' a')) →
  result_rel S (bind m k) (bind m' k').
Proof. destruct m, m'; simpl; try done. intros H Hk. by apply Hk. Qed.

Lemma result_rel_eq {A} (r1 r2 : result A) : result_rel eq r1 r2 → r1 = r2.
Proof. destruct r1, r2; simpl; try done; by intros ->. Qed.

Lemma map_result_rel {A A' B B'} (R : A → A' → Prop) (S : B → B' → Prop)
    (g : A → result B) (g' : A' → result B') l l' :
  Forall2 R l l' →
  (∀ x y, R x y → result_rel S (g x) (g' y)) →
  result_rel (Forall2 S) (map_result g l) (map_result g' l').
Proof.
  intros Hl Hg. induction Hl as [|x y l l' Hxy _ IH]; simpl; [constructor |].
  eapply bind_rel; [by apply Hg |]. intros b b' Hb.
  eapply bind_rel; [exact IH |]. intros bs bs' Hbs. simpl. by constructor.
Qed.

Section sort_rel.
Context {A A' : Type} (R : A → A' → Prop) (key : A → Q) (key' : A' → Q).
Context (reverse : bool).
Hypothesis key_same : ∀ x y, R x y → key x == key' y.

Lemma before_rel x y x' y' :
  R x x' → R y y' → before key reverse x y = before key' reverse x' y'.
Proof.
  intros Hx Hy. unfold before.
  destruct reverse; apply Qlt_bool_same; by apply key_same.
Qed.

Lemma sort_insert_rel x x' l l' :
  R x x' → Forall2 R l l' →
  Forall2 R (sort_insert key reverse x l) (sort_insert key' reverse x' l').
Proof.
  intros Hx Hl. induction Hl as [|y y' l l' Hy Hl IH]; simpl.
  - by repeat constructor.
  - rewrite (before_rel y x y' x') by done.
    destruct (before key' reverse y' x'); repeat constructor; done.
Qed.

Lemma py_sort_rel l l' :
  Forall2 R l l' → Forall2 R (py_sort key reverse l) (py_sort key' reverse l').
Proof.
  induction 1; simpl; [constructor | by apply sort_insert_rel].
Qed.
End sort_rel.

Lemma py_sort_by_rel {A A'} (R : A → A' → Prop)
    (g : A → result Q) (g' : A' → result Q) reverse l l' :
  Forall2 R l l' →
  (∀ x y, R x y → result_rel Qeq (g x) (g' y)) →
  result_rel (Forall2 R) (py_sort_by g reverse l) (py_sort_by g' reverse l').
Proof.
  intros Hl Hg. unfold py_sort_by.
  eapply bind_rel; [by eapply map_result_rel |].
  intros ks ks' Hks. simpl.
  set (R2 := λ (p : Q * A) (q : Q * A'), p.1 == q.1 ∧ R p.2 q.2).
  assert (Forall2 R2 (zip ks l) (zip ks' l')) as Hz.
  { clear Hg. revert ks ks' Hks.
    induction Hl; intros ks ks' Hks; destruct Hks; simpl; constructor; auto.
    by split. }
  apply (py_sort_rel R2 fst fst reverse) in Hz; [| by intros ?? []].
  revert Hz. generalize (py_sort fst reverse (zip ks l)).
  generalize (py_sort fst reverse (zip ks' l')).
  intros s' s Hs. induction Hs as [|?? ?? [_ ?]]; simpl; constructor; auto.
Qed.

Lemma py_float_same v w : value_same v w → result_rel Qeq (py_float v) (py_float w).
Proof. destruct v, w; simpl; try done; by intros [= <-]. Qed.

Lemma load_key_same f g : farmer_same f g → result_rel Qeq (load_key f) (load_key g).
Proof.
  intros [_ Hload]. unfold load_key, dict_index.
  destruct (f !! "load_kg"), (g !! "load_kg"); simpl; try done.
  by apply py_float_same.
Qed.

Lemma valid_farmers_same fs gs :
  Forall2 farmer_same fs gs →
  result_rel (Forall2 farmer_same) (valid_farmers fs) (valid_farmers gs).
Proof.
  induction 1 as [|f g fs gs Hfg _ IH]; simpl; [constructor |].
  eapply bind_rel.
  { apply py_float_same. destruct Hfg as [_ Hload]. unfold dict_get.
    destruct (f !! "load_kg"), (g !! "load_kg"); simpl; try done. }
  intros x y Hxy. eapply bind_rel; [exact IH |]. intros vs ws Hvs. simpl.
  rewrite (Qlt_bool_same 0 0 x y) by done.
  destruct (Qlt_bool 0 y); [by constructor | done].
Qed.

Lemma scan_same f g load load' ts us :
  farmer_same f g → load == load' → Forall2 truck_same ts us →
  result_rel (option_same (Forall2 truck_same)) (scan f load ts) (scan g load' us).
Proof.
  intros Hfg Hload Hts. induction Hts as [|t u ts us [Hids Hrem] Hts IH]; simpl; [done |].
  rewrite (Qle_bool_same load load' (remaining t) (remaining u)) by done.
  destruct (Qle_bool load' (remaining u)).
  - destruct Hfg as [Hid _]. unfold dict_index. rewrite Hid.
    destruct (g !! "farmer_id"); simpl; [| done].
    constructor; [| done]. split; simpl; [by rewrite Hids | lra].
  - eapply bind_rel; [exact IH |]. intros [r|] [r'|]; simpl; try done.
    intros Hr. constructor; [by split | done].
Qed.

Lemma place_same capacity capacity' ts us f g :
  capacity == capacity' → Forall2 truck_same ts us → farmer_same f g →
  result_rel (Forall2 truck_same) (place capacity ts f) (place capacity' us g).
Proof.
  intros Hcap Hts Hfg. unfold place.
  eapply bind_rel; [by apply load_key_same |]. intros load load' Hload. simpl.
  assert (Forall2 truck_same (py_sort remaining false ts) (py_sort remaining false us))
    as Hsorted.
  { apply py_sort_rel; [by intros ?? [] | done]. }
  eapply bind_rel; [by apply scan_same |].
  intros [r|] [r'|]; simpl; try done.
  intros _. destruct Hfg as [Hid _]. unfold dict_index. rewrite Hid.
  destruct (g !! "farmer_id"); simpl; [| done].
  apply Forall2_app; [done |]. constructor; [| constructor].
  split; simpl; [done |]. unfold py_max.
  rewrite (Qlt_bool_same (capacity - load) (capacity' - load') 0 0) by lra.
  destruct (Qlt_bool _ _); lra.
Qed.

Lemma pack_loop_same capacity capacity' fs gs ts us :
  capacity == capacity' → Forall2 farmer_same fs gs → Forall2 truck_same ts us →
  result_rel (Forall2 truck_same)
    (pack_loop capacity fs ts) (pack_loop capacity' gs us).
Proof.
  intros Hcap Hfs. revert ts us.
  induction Hfs as [|f g fs gs Hfg _ IH]; intros ts us Hts; simpl; [done |].
  eapply bind_rel; [by apply place_same |]. intros ts' us' Hts'. by apply IH.
Qed.

Lemma pack_trucks_same capacity capacity' fs gs :
  capacity == capacity' → Forall2 farmer_same fs gs →
  result_rel (Forall2 truck_same) (pack_trucks fs capacity) (pack_trucks gs capacity').
Proof.
  intros Hcap Hfs. unfold pack_trucks.
  eapply bind_rel; [by apply valid_farmers_same |]. intros vs ws Hvs.
  eapply bind_rel.
  { apply py_sort_by_rel; [done |]. intros ??. apply load_key_same. }
  intros ss ss' Hss. apply pack_loop_same; [done | done | constructor].
Qed.

(** The result depends on the ids, the loads and the capacity as numbers,
    and on nothing else. *)
Lemma pack_cluster_same capacity capacity' fs gs :
  capacity == capacity' → Forall2 farmer_same fs gs →
  pack_cluster fs capacity = pack_cluster gs capacity'.
Proof.
  intros Hcap Hfs. apply result_rel_eq. unfold pack_cluster.
  eapply bind_rel; [by apply pack_trucks_same |]. intros ts us Hts. simpl.
  induction Hts as [|t u ts us [Hids _] _ IH]; simpl; [done |]. by rewrite Hids, IH.
Qed.

(** ** The store run computes the value run *)

Lemma is_farmer_weaken (σ σ' : store) v f : σ ⊆ σ' → is_farmer σ v f → is_farmer σ' v f.
Proof. intros Hsub (l & -> & Hl). exists l. split; [done |]. by eapply lookup_weaken. Qed.

Lemma st_load_key σ v f : is_farmer σ v f → Store.load_key σ v = load_key f.
Proof. intros (l & -> & Hl). unfold Store.load_key. simpl. by rewrite Hl. Qed.

Lemma st_farmer_id σ v f :
  is_farmer σ v f → Store.farmer_id σ v = dict_index f "farmer_id".
Proof. intros (l & -> & Hl). unfold Store.farmer_id. simpl. by rewrite Hl. Qed.

Lemma st_remaining σ lt v t :
  is_truck σ lt v t → Store.remaining σ v = Ok (remaining t).
Proof.
  intros (l & d & lf & -> & Hl & _ & Hr & _). unfold Store.remaining, dict_index.
  simpl. rewrite Hl. simpl. by rewrite Hr.
Qed.

Lemma st_farmers σ lt v t :
  is_truck σ lt v t →
  ∃ lf, Store.farmers σ v = Ok (VRef lf) ∧ lf ≠ lt ∧ σ !! lf = Some (OList (farmers t)).
Proof.
  intros (l & d & lf & -> & Hl & Hf & _ & Hne & Hlf). exists lf.
  unfold Store.farmers, dict_index. simpl. rewrite Hl. simpl. by rewrite Hf.
Qed.

Lemma st_valid_farmers σ items fs :
  Forall2 (is_farmer σ) items fs →
  result_rel (Forall2 (is_farmer σ)) (Store.valid_farmers σ items) (valid_farmers fs).
Proof.
  induction 1 as [|v f items fs Hvf _ IH]; simpl; [constructor |].
  pose proof Hvf as (l & -> & Hl). simpl. rewrite Hl. simpl.
  destruct (py_float (dict_get f "load_kg" (VNum 0))) as [x|]; simpl; [| done].
  eapply bind_rel; [exact IH |]. intros vs ws Hvs. simpl.
  destruct (Qlt_bool 0 x); [by constructor | done].
Qed.

(** A truck is not affected by writes to other objects. *)
Lemma is_truck_frame (σ σ' : store) lt v t :
  is_truck σ lt v t →
  (∀ l d lf, v = VRef l → σ !! l = Some (ODict d) → d !! "farmers" = Some (VRef lf) →
             σ' !! l = σ !! l ∧ σ' !! lf = σ !! lf) →
  is_truck σ' lt v t.
Proof.
  intros (l & d & lf & -> & Hl & Hf & Hr & Hne & Hlf) Hsame.
  destruct (Hsame l d lf eq_refl Hl Hf) as [Hl' Hlf'].
  exists l, d, lf. rewrite Hl', Hlf'. done.
Qed.

Lemma st_farmers_frame (σ σ' : store) l :
  σ' !! l = σ !! l → Store.farmers σ' (VRef l) = Store.farmers σ (VRef l).
Proof. intros H. unfold Store.farmers. simpl. by rewrite H. Qed.

Lemma farmers_apart_frame (σ σ' : store) tvs :
  (∀ v, v ∈ tvs → Store.farmers σ' v = Store.farmers σ v) →
  farmers_apart σ tvs → farmers_apart σ' tvs.
Proof.
  intros Hsame Hapart v1 v2 lst H1 H2 Hf1 Hf2.
  rewrite Hsame in Hf1, Hf2 by done. by eapply Hapart.
Qed.

(** Loading a farmer onto one truck of the working list: its "farmers" list
    grows and its "remaining" entry shrinks; the other trucks stay. *)
Lemma repr_load_onto (σ : store) lt pre_v l suf_v pre t suf d lf ids' r' :
  σ !! lt = Some (OList (pre_v ++ VRef l :: suf_v)) →
  Forall2 (is_truck σ lt) pre_v pre → Forall2 (is_truck σ lt) suf_v suf →
  NoDup (pre_v ++ VRef l :: suf_v) → farmers_apart σ (pre_v ++ VRef l :: suf_v) →
  σ !! l = Some (ODict d) → d !! "farmers" = Some (VRef lf) →
  lf ≠ lt → σ !! lf = Some (OList (farmers t)) →
  trucks_repr (<[l:=ODict (<["remaining":=VNum r']> d)]> (<[lf:=OList ids']> σ)) lt
    (pre_v ++ VRef l :: suf_v) (pre ++ Truck ids' r' :: suf).
Proof.
  intros Hlt Hpre Hsuf Hnd Hapart Hl Hfar Hne Hlf.
  set (σ' := <[l:=ODict (<["remaining":=VNum r']> d)]> (<[lf:=OList ids']> σ)).
  assert (l ≠ lt) as Hl_lt by (intros ->; congruence).
  assert (l ≠ lf) as Hl_lf by (intros ->; congruence).
  assert (Store.farmers σ (VRef l) = Ok (VRef lf)) as Hfl.
  { unfold Store.farmers, dict_index. simpl. rewrite Hl. simpl. by rewrite Hfar. }
  assert (∀ v u, v ∈ pre_v ++ VRef l :: suf_v → v ≠ VRef l →
                 is_truck σ lt v u → is_truck σ' lt v u) as Hother.
  { intros v u Hv Hvl Hvu. eapply is_truck_frame; [exact Hvu |].
    intros l1 d1 lf1 -> Hl1 Hd1. pose proof Hvu as Hvu'.
    apply st_farmers in Hvu' as (lf2 & Hf2 & _ & Hlf2).
    assert (lf2 = lf1) as ->.
    { unfold Store.farmers, dict_index in Hf2. simpl in Hf2. rewrite Hl1 in Hf2.
      simpl in Hf2. rewrite Hd1 in Hf2. by inversion Hf2. }
    assert (l1 ≠ l) by congruence.
    assert (l1 ≠ lf) by (intros ->; congruence).
    assert (lf1 ≠ l) by (intros ->; congruence).
    assert (lf1 ≠ lf).
    { intros ->. apply Hvl. eapply Hapart; try done.
      apply elem_of_app. right. by left. }
    unfold σ'. by rewrite !lookup_insert_ne. }
  assert (∀ vs us, Forall2 (is_truck σ lt) vs us →
                   (∀ v, v ∈ vs → v ∈ pre_v ++ VRef l :: suf_v ∧ v ≠ VRef l) →
                   Forall2 (is_truck σ' lt) vs us) as Hall.
  { intros vs us H. induction H as [|v u vs us Hvu _ IH]; intros Hin; constructor.
    - destruct (Hin v) as [? ?]; [by left |]. by apply Hother.
    - apply IH. intros w Hw. apply Hin. by right. }
  apply NoDup_app in Hnd as Hnd'. destruct Hnd' as (_ & Hdisj & Hnd2).
  apply NoDup_cons in Hnd2 as [Hnotin _].
  split; [| split; [| split]].
  - unfold σ'. by rewrite !lookup_insert_ne.
  - apply Forall2_app; [| constructor].
    + apply Hall; [done |]. intros v Hv. split; [apply elem_of_app; by left |].
      intros ->. apply (Hdisj _ Hv). by left.
    + exists l, (<["remaining":=VNum r']> d), lf. unfold σ'. simpl.
      rewrite lookup_insert_eq, lookup_insert_ne, lookup_insert_eq by done.
      rewrite lookup_insert_ne, lookup_insert_eq by done. done.
    + apply Hall; [done |]. intros v Hv. split.
      * apply elem_of_app. right. by right.
      * intros ->. done.
  - done.
  - eapply farmers_apart_frame; [| exact Hapart].
    intros v Hv. destruct (decide (v = VRef l)) as [-> | Hvl].
    + rewrite Hfl. unfold Store.farmers, dict_index, σ'. simpl.
      rewrite lookup_insert_eq. simpl. by rewrite lookup_insert_ne, Hfar.
    + assert (∃ u, is_truck σ lt v u) as [u Hvu].
      { apply elem_of_app in Hv as [Hv | Hv].
        - apply list_elem_of_lookup in Hv as [i Hi].
          destruct (Forall2_lookup_l _ _ _ _ _ Hpre Hi) as (u & _ & ?). eauto.
        - apply elem_of_cons in Hv as [-> | Hv]; [done |].
          apply list_elem_of_lookup in Hv as [i Hi].
          destruct (Forall2_lookup_l _ _ _ _ _ Hsuf Hi) as (u & _ & ?). eauto. }
      destruct Hvu as (l1 & d1 & lf1 & -> & Hl1 & _).
      apply st_farmers_frame. unfold σ'.
      rewrite !lookup_insert_ne; [done | | congruence]. intros ->. congruence.
Qed.

Lemma scan_refines (σ : store) lt fv f load suf_v suf :
  is_farmer σ fv f → Forall2 (is_truck σ lt) suf_v suf →
  ∀ pre_v pre,
    σ !! lt = Some (OList (pre_v ++ suf_v)) →
    Forall2 (is_truck σ lt) pre_v pre →
    NoDup (pre_v ++ suf_v) → farmers_apart σ (pre_v ++ suf_v) →
    match scan f load suf with
    | Ok (Some suf') =>
        ∃ σ', Store.scan fv load suf_v σ = (Ok true, σ') ∧
              trucks_repr σ' lt (pre_v ++ suf_v) (pre ++ suf')
    | Ok None => Store.scan fv load suf_v σ = (Ok false, σ)
    | Raise e => ∃ σ', Store.scan fv load suf_v σ = (Raise e, σ')
    end.
Proof.
  intros Hf Hsuf.
  induction Hsuf as [|tv t suf_v suf Htv Hsuf IH];
    intros pre_v pre Hlt Hpre Hnd Hapart; simpl; [done |].
  unfold run_bind, get_store, lift. simpl.
  rewrite (st_remaining _ _ _ _ Htv). simpl.
  destruct (Qle_bool load (remaining t)).
  - destruct Htv as (l & d & lf & -> & Hl & Hfar & Hrem & Hne & Hlf).
    assert (dict_index d "farmers" = Ok (VRef lf)) as Hfar'
      by (unfold dict_index; by rewrite Hfar).
    assert (dict_index d "remaining" = Ok (VNum (remaining t))) as Hrem'
      by (unfold dict_index; by rewrite Hrem).
    unfold Store.farmers. simpl. rewrite Hl. simpl. rewrite Hfar'. simpl.
    rewrite (st_farmer_id _ _ _ Hf).
    destruct (dict_index f "farmer_id") as [id|e]; simpl; [| eauto].
    rewrite Hlf. simpl. unfold dict_sub.
    assert (lf ≠ l) by (intros ->; congruence).
    rewrite lookup_insert_ne by done. rewrite Hl, Hrem'. simpl.
    eexists. split; [done |]. by eapply repr_load_onto.
  - specialize (IH (pre_v ++ [tv]) (pre ++ [t])).
    rewrite <- !app_assoc in IH. simpl in IH.
    specialize (IH Hlt). 
    assert (Forall2 (is_truck σ lt) (pre_v ++ [tv]) (pre ++ [t])) as Hpre'.
    { apply Forall2_app; [done | by repeat constructor]. }
    specialize (IH Hpre' Hnd Hapart).
    destruct (scan f load suf) as [[suf'|]|e]; simpl; [| done | done].
    destruct IH as (σ' & Hscan & Hrepr). exists σ'. split; [done |].
    by rewrite <- app_assoc in Hrepr.
Qed.

Lemma sort_refines (σ : store) lt tvs trucks :
  trucks_repr σ lt tvs trucks →
  ∃ tvs', list_sort (VRef lt) Store.remaining false σ = (Ok tt, <[lt:=OList tvs']> σ) ∧
          trucks_repr (<[lt:=OList tvs']> σ) lt tvs' (py_sort remaining false trucks).
Proof.
  intros (Hlt & Htr & Hnd & Hapart).
  pose proof (py_sort_by_rel (is_truck σ lt) (Store.remaining σ)
                (λ t, Ok (remaining t)) false tvs trucks Htr) as Hrel.
  rewrite (py_sort_by_ok _ remaining) in Hrel by (by apply Forall_true).
  unfold list_sort. rewrite Hlt.
  destruct (py_sort_by (Store.remaining σ) false tvs) as [tvs'|e] eqn:E.
  2:{ exfalso. apply Hrel. intros v t Hvt. by rewrite (st_remaining _ _ _ _ Hvt). }
  simpl in Hrel. exists tvs'. split; [done |].
  assert (Forall2 (is_truck σ lt) tvs' (py_sort remaining false trucks)) as Htr'.
  { apply Hrel. intros v t Hvt. by rewrite (st_remaining _ _ _ _ Hvt). }
  apply py_sort_by_inv in E.
  assert (∀ v, v ∈ tvs → ∃ l, v = VRef l ∧ l ≠ lt) as Hrefs.
  { intros v Hv. apply list_elem_of_lookup in Hv as [i Hi].
    destruct (Forall2_lookup_l _ _ _ _ _ Htr Hi) as (t & _ & l & d & lf & -> & Hl & _).
    exists l. split; [done |]. intros ->. congruence. }
  split; [by rewrite lookup_insert_eq |]. split; [| split].
  - eapply Forall2_impl; [exact Htr' |]. intros v t Hvt.
    eapply is_truck_frame; [exact Hvt |]. intros l d lf -> Hl Hd.
    destruct Hvt as (l' & d' & lf' & [= <-] & Hl' & Hd' & _ & Hne & _).
    rewrite Hl in Hl'. inversion Hl'; subst d'. rewrite Hd in Hd'. inversion Hd'; subst lf'.
    rewrite !lookup_insert_ne; [done | done |]. intros ->. congruence.
  - by rewrite E.
  - intros v1 v2 lst H1 H2. rewrite E in H1, H2.
    destruct (Hrefs v1 H1) as (l1 & -> & ?), (Hrefs v2 H2) as (l2 & -> & ?).
    rewrite (st_farmers_frame σ (<[lt:=OList tvs']> σ) l1),
      (st_farmers_frame σ (<[lt:=OList tvs']> σ) l2)
      by (by rewrite lookup_insert_ne).
    by apply Hapart.
Qed.

Lemma open_truck_refines (σ : store) lt tvs trucks id r :
  trucks_repr σ lt tvs trucks →
  ∃ σ' tv,
    (let! lst := new_list [id] in
     let! t := new_dict {[ "farmers" := lst; "remaining" := VNum r ]} in
     list_append (VRef lt) t) σ = (Ok tt, σ') ∧
    trucks_repr σ' lt (tvs ++ [tv]) (trucks ++ [Truck [id] r]).
Proof.
  intros (Hlt & Htr & Hnd & Hapart).
  assert (σ !! fresh (dom σ) = None) as Hf1 by apply not_elem_of_dom, is_fresh.
  set (l1 := fresh (dom σ)) in *. set (σ1 := <[l1:=OList [id]]> σ).
  assert (σ1 !! fresh (dom σ1) = None) as Hf2 by apply not_elem_of_dom, is_fresh.
  set (l2 := fresh (dom σ1)) in *.
  set (d := ({[ "farmers" := VRef l1; "remaining" := VNum r ]} : gmap string value)).
  set (σ2 := <[l2:=ODict d]> σ1).
  set (σ3 := <[lt:=OList (tvs ++ [VRef l2])]> σ2).
  assert (l1 ≠ lt) as H1t by (intros ->; congruence).
  assert (l1 ≠ l2) as H12.
  { intros Heq. unfold σ1 in Hf2. rewrite <- Heq, lookup_insert_eq in Hf2. done. }
  assert (l2 ≠ lt) as H2t.
  { intros Heq. unfold σ1 in Hf2. rewrite Heq, lookup_insert_ne in Hf2 by done.
    congruence. }
  assert (∀ l, is_Some (σ !! l) → l ≠ lt → σ3 !! l = σ !! l) as Hold.
  { intros l [o Ho] Hne.
    assert (l ≠ l1) by (intros ->; congruence).
    assert (l ≠ l2).
    { intros ->. unfold σ1 in Hf2. rewrite lookup_insert_ne in Hf2 by done. congruence. }
    unfold σ3, σ2, σ1. by rewrite !lookup_insert_ne. }
  assert (∀ v u, is_truck σ lt v u →
                 ∃ l lf, v = VRef l ∧ σ3 !! l = σ !! l ∧ is_Some (σ !! l) ∧
                         Store.farmers σ v = Ok (VRef lf) ∧ is_Some (σ !! lf) ∧
                         σ3 !! lf = σ !! lf) as Hshape.
  { intros v u Hvu. pose proof Hvu as (lf & Hfv & Hne & Hlf)%st_farmers.
    destruct Hvu as (l & d0 & _ & -> & Hl & _).
    exists l, lf. repeat split; try done.
    - apply Hold; [done |]. intros ->. congruence.
    - by apply Hold. }
  assert (σ2 !! lt = Some (OList tvs)) as Hlt2.
  { unfold σ2, σ1. by rewrite !lookup_insert_ne. }
  assert (Store.farmers σ3 (VRef l2) = Ok (VRef l1)) as Hnew.
  { unfold Store.farmers, dict_index, σ3, σ2. simpl.
    rewrite lookup_insert_ne, lookup_insert_eq by done. simpl.
    unfold d. by rewrite lookup_insert_eq. }
  assert (∀ v, v ∈ tvs → ∃ u, is_truck σ lt v u) as Hin.
  { intros v [i Hi]%list_elem_of_lookup.
    destruct (Forall2_lookup_l _ _ _ _ _ Htr Hi) as (u & _ & ?). eauto. }
  exists σ3, (VRef l2). split.
  { unfold run_bind, new_list, new_dict, new_obj, list_append. simpl.
    fold l1 σ1 l2 d σ2. by rewrite Hlt2. }
  split; [by unfold σ3; rewrite lookup_insert_eq |]. split; [| split].
  - apply Forall2_app.
    + eapply Forall2_impl; [exact Htr |]. intros v u Hvu.
      eapply is_truck_frame; [exact Hvu |]. intros l d0 lf -> Hl Hd0 .
      destruct (Hshape _ _ Hvu) as (l' & lf' & [= <-] & Hl3 & _ & Hfv & _ & Hlf3).
      split; [done |].
      unfold Store.farmers, dict_index in Hfv. simpl in Hfv. rewrite Hl in Hfv.
      simpl in Hfv. rewrite Hd0 in Hfv. by inversion Hfv; subst.
    + constructor; [| constructor]. exists l2, d, l1. simpl.
      split; [done |]. split; [| split; [| split; [| split; [done |]]]].
      * unfold σ3, σ2. by rewrite lookup_insert_ne, lookup_insert_eq.
      * unfold d. by rewrite lookup_insert_eq.
      * unfold d. by rewrite lookup_insert_ne, lookup_singleton_eq.
      * unfold σ3, σ2, σ1. rewrite 2!lookup_insert_ne by done.
        by rewrite lookup_insert_eq.
  - apply NoDup_app. split; [done |]. split; [| apply NoDup_singleton].
    intros v Hv ->%list_elem_of_singleton.
    destruct (Hin _ Hv) as [u Hvu].
    destruct (Hshape _ _ Hvu) as (l & lf & [= <-] & _ & [o Ho] & _).
    unfold σ1 in Hf2. rewrite lookup_insert_ne in Hf2 by done. congruence.
  - assert (∀ v, v ∈ tvs → Store.farmers σ3 v = Store.farmers σ v ∧
                            Store.farmers σ3 v ≠ Ok (VRef l1)) as Hfold.
    { intros v Hv. destruct (Hin _ Hv) as [u Hvu].
      destruct (Hshape _ _ Hvu) as (l & lf & -> & Hl3 & _ & Hfv & [o Ho] & _).
      rewrite (st_farmers_frame σ σ3 l Hl3). split; [done |].
      rewrite Hfv. intros [= ->]. congruence. }
    intros v1 v2 lst [H1 | ->%list_elem_of_singleton]%elem_of_app
                     [H2 | ->%list_elem_of_singleton]%elem_of_app Hv1 Hv2.
    + destruct (Hfold _ H1) as [E1 _], (Hfold _ H2) as [E2 _].
      rewrite E1 in Hv1. rewrite E2 in Hv2. by eapply Hapart.
    + destruct (Hfold _ H1) as [_ N1]. congruence.
    + destruct (Hfold _ H2) as [_ N2]. congruence.
    + done.
Qed.

Lemma run_bind_ok {A B} (m : run A) (k : A → run B) σ a σ' :
  m σ = (Ok a, σ') → run_bind m k σ = k a σ'.
Proof. intros H. unfold run_bind. by rewrite H. Qed.

Lemma run_bind_raise {A B} (m : run A) (k : A → run B) σ e σ' :
  m σ = (Raise e, σ') → run_bind m k σ = (Raise e, σ').
Proof. intros H. unfold run_bind. by rewrite H. Qed.

Lemma place_refines (σ : store) lt capacity fv f tvs trucks :
  is_farmer σ fv f → trucks_repr σ lt tvs trucks →
  run_refines lt (place capacity trucks f) (Store.place capacity (VRef lt) fv σ).
Proof.
  intros Hf Hrepr. unfold place, Store.place.
  rewrite (run_bind_ok _ _ σ σ σ) by done.
  unfold lift at 1. rewrite (st_load_key _ _ _ Hf).
  destruct (load_key f) as [load|e]; [| done].
  rewrite (run_bind_ok _ _ σ load σ) by done.
  destruct (sort_refines σ lt tvs trucks Hrepr) as (tvs' & Hsort & Hrepr1).
  set (σ1 := <[lt:=OList tvs']> σ) in *.
  rewrite (run_bind_ok _ _ _ _ _ Hsort).
  rewrite (run_bind_ok _ _ σ1 σ1 σ1) by done.
  pose proof Hrepr1 as (Hlt1 & Htr1 & Hnd1 & Hapart1).
  rewrite (run_bind_ok _ _ σ1 tvs' σ1) by (unfold lift; simpl; by rewrite Hlt1).
  assert (is_farmer σ1 fv f) as Hf1.
  { destruct Hf as (l & -> & Hl). exists l. split; [done |].
    destruct Hrepr as (Hlt & _). unfold σ1. rewrite lookup_insert_ne; [done |].
    intros ->. congruence. }
  assert (Forall2 (is_truck σ1 lt) [] []) as Hnil by constructor.
  pose proof (scan_refines σ1 lt fv f load tvs' _ Hf1 Htr1 [] []
                Hlt1 Hnil Hnd1 Hapart1) as Hscan.
  simpl. destruct (scan f load (py_sort remaining false trucks)) as [[trucks'|]|e];
    simpl.
  - destruct Hscan as (σ2 & Hscan & Hrepr2).
    rewrite (run_bind_ok _ _ _ _ _ Hscan). simpl. eauto.
  - rewrite (run_bind_ok _ _ _ _ _ Hscan).
    rewrite (run_bind_ok _ _ σ1 σ1 σ1) by done.
    unfold lift at 1. rewrite (st_farmer_id _ _ _ Hf1).
    destruct (dict_index f "farmer_id") as [id|e]; [| done].
    rewrite (run_bind_ok _ _ σ1 id σ1) by done.
    destruct (open_truck_refines σ1 lt tvs' _ id
                (py_max (capacity - load) 0) Hrepr1) as (σ' & tv & Hopen & Hrepr').
    rewrite Hopen. simpl. eauto.
  - destruct Hscan as (σ2 & Hscan).
    by rewrite (run_bind_raise _ _ _ _ _ Hscan).
Qed.

Lemma loop_refines σ0 lt capacity fvs fs :
  Forall2 (is_farmer σ0) fvs fs →
  ∀ σ tvs trucks,
    trucks_inv σ0 lt σ → trucks_repr σ lt tvs trucks →
    run_refines lt (pack_loop capacity fs trucks)
      (Store.pack_loop capacity (VRef lt) fvs σ).
Proof.
  induction 1 as [|fv f fvs fs Hf _ IH]; intros σ tvs trucks Hinv Hrepr; simpl.
  - eauto.
  - pose proof (store_place_inv σ0 lt capacity fv σ Hinv) as Hinv'.
    assert (is_farmer σ fv f) as Hf'.
    { eapply is_farmer_weaken; [| exact Hf]. by destruct Hinv. }
    pose proof (place_refines σ lt capacity fv f tvs trucks Hf' Hrepr) as Hplace.
    unfold run_bind.
    destruct (place capacity trucks f) as [trucks'|e],
      (Store.place capacity (VRef lt) fv σ) as [[[]|e'] σ']; simpl in *; try done.
    destruct Hplace as [tvs' Hrepr']. by eapply IH.
Qed.

Lemma bind_Ok {A B} (a : A) (k : A → result B) : bind (Ok a) k = k a.
Proof. done. Qed.

Lemma result_rel_Qeq_refl (r : result Q) : result_rel Qeq r r.
Proof. destruct r; simpl; [reflexivity | done]. Qed.

Lemma map_result_Forall2 {A B C} (g : A → result B) (h : C → B) l l' :
  Forall2 (λ x y, g x = Ok (h y)) l l' → map_result g l = Ok (map h l').
Proof. induction 1 as [|x y l l' Hxy _ IH]; simpl; [done |]. by rewrite Hxy, IH. Qed.

Lemma trucks_out (σ : store) lt tvs trucks :
  Forall2 (is_truck σ lt) tvs trucks →
  ∃ outs, map_result (Store.farmers σ) tvs = Ok outs ∧
          Forall2 (λ o t, ∃ lf, o = VRef lf ∧ σ !! lf = Some (OList (farmers t)))
            outs trucks.
Proof.
  induction 1 as [|v t tvs trucks Hvt _ (outs & Hmap & Houts)]; simpl.
  - exists []. split; [done | constructor].
  - destruct (st_farmers _ _ _ _ Hvt) as (lf & Hfv & _ & Hlf).
    rewrite Hfv, Hmap. simpl. exists (VRef lf :: outs). split; [done |].
    constructor; eauto.
Qed.

(** The store run returns what the value run returns: read back from the
    final store, its result is [pack_cluster] of the farmers that the
    argument refers to; an exception of one is the exception of the other. *)
Lemma store_run_refines (σ : store) l items fs capacity :
  σ !! l = Some (OList items) → Forall2 (is_farmer σ) items fs →
  read_lists (Store.pack_cluster (VRef l) capacity σ).2
             (Store.pack_cluster (VRef l) capacity σ).1
  = pack_cluster fs capacity.
Proof.
  intros Hl Hitems. unfold Store.pack_cluster, pack_cluster, pack_trucks.
  rewrite (run_bind_ok _ _ σ σ σ) by done.
  rewrite (run_bind_ok _ _ σ items σ) by (unfold lift; simpl; by rewrite Hl).
  pose proof (st_valid_farmers σ items fs Hitems) as Hvalid.
  destruct (Store.valid_farmers σ items) as [vitems|e],
    (valid_farmers fs) as [vs|e']; simpl in Hvalid; try done.
  2:{ subst e'. by rewrite (run_bind_raise _ _ σ e σ). }
  rewrite (run_bind_ok _ _ σ vitems σ) by done. rewrite bind_Ok.
  (* valid_farmers = [...] *)
  assert (σ !! fresh (dom σ) = None) as Hfv by apply not_elem_of_dom, is_fresh.
  set (lv := fresh (dom σ)) in *. set (σ1 := <[lv:=OList vitems]> σ).
  rewrite (run_bind_ok _ _ σ (VRef lv) σ1) by done.
  assert (Forall2 (is_farmer σ1) vitems vs) as Hvalid1.
  { eapply Forall2_impl; [exact Hvalid |]. intros v f.
    apply is_farmer_weaken. by apply insert_subseteq. }
  (* valid_farmers.sort(...) *)
  pose proof (py_sort_by_rel (is_farmer σ1) (Store.load_key σ1) load_key true
                vitems vs Hvalid1) as Hsort.
  assert (result_rel (Forall2 (is_farmer σ1))
            (py_sort_by (Store.load_key σ1) true vitems)
            (py_sort_by load_key true vs)) as Hsorted.
  { apply Hsort. intros v f Hvf. rewrite (st_load_key _ _ _ Hvf).
    apply result_rel_Qeq_refl. }
  clear Hsort.
  destruct (py_sort_by (Store.load_key σ1) true vitems) as [ss_v|e] eqn:Ev,
    (py_sort_by load_key true vs) as [ss|e']; simpl in Hsorted; try done.
  2:{ subst e'. rewrite (run_bind_raise _ _ σ1 e σ1); [reflexivity |].
      unfold list_sort. unfold σ1 at 1. by rewrite lookup_insert_eq, Ev. }
  rewrite bind_Ok. set (σ2 := <[lv:=OList ss_v]> σ1).
  rewrite (run_bind_ok _ _ σ1 tt σ2)
    by (unfold list_sort; unfold σ1 at 1; by rewrite lookup_insert_eq, Ev).
  assert (Forall2 (is_farmer σ2) ss_v ss) as Hsorted2.
  { eapply Forall2_impl; [exact Hsorted |]. intros v f (l' & -> & Hl').
    exists l'. split; [done |]. unfold σ2. rewrite lookup_insert_ne; [done |].
    intros <-. unfold σ1 in Hl'. rewrite lookup_insert_eq in Hl'. done. }
  (* trucks = [] *)
  assert (σ2 !! fresh (dom σ2) = None) as Hft by apply not_elem_of_dom, is_fresh.
  set (lt := fresh (dom σ2)) in *. set (σ3 := <[lt:=OList []]> σ2).
  rewrite (run_bind_ok _ _ σ2 (VRef lt) σ3) by done.
  rewrite (run_bind_ok _ _ σ3 σ3 σ3) by done.
  assert (lt ≠ lv) as Hne.
  { intros Heq. unfold σ2 in Hft. rewrite Heq, lookup_insert_eq in Hft. done. }
  rewrite (run_bind_ok _ _ σ3 ss_v σ3).
  2:{ unfold lift, σ3, σ2. simpl.
      by rewrite lookup_insert_ne, lookup_insert_eq by done. }
  (* the loop *)
  assert (trucks_inv σ2 lt σ3) as Hinv.
  { split; [by apply insert_subseteq |]. split; [done |].
    exists []. split; [by unfold σ3; rewrite lookup_insert_eq | constructor]. }
  assert (trucks_repr σ3 lt [] []) as Hrepr.
  { split; [by unfold σ3; rewrite lookup_insert_eq |].
    split; [constructor |]. split; [constructor |].
    by intros v1 v2 lst ?%elem_of_nil. }
  pose proof (loop_refines σ2 lt capacity ss_v ss Hsorted2 σ3 [] [] Hinv Hrepr)
    as Hloop.
  destruct (pack_loop capacity ss []) as [trucks|e],
    (Store.pack_loop capacity (VRef lt) ss_v σ3) as [[[]|e'] σ4] eqn:El;
    simpl in Hloop; try done.
  2:{ subst e'. by rewrite (run_bind_raise _ _ _ _ _ El). }
  rewrite (run_bind_ok _ _ _ _ _ El).
  destruct Hloop as (tvs & Hlt4 & Htr & _).
  (* return [t["farmers"] for t in trucks] *)
  rewrite (run_bind_ok _ _ σ4 σ4 σ4) by done.
  rewrite (run_bind_ok _ _ σ4 tvs σ4) by (unfold lift; simpl; by rewrite Hlt4).
  destruct (trucks_out σ4 lt tvs trucks Htr) as (outs & Hmap & Houts).
  rewrite (run_bind_ok _ _ σ4 outs σ4) by (unfold lift; by rewrite Hmap).
  unfold new_list, new_obj, read_lists. simpl. rewrite lookup_insert_eq. simpl.
  rewrite (map_result_Forall2 _ farmers outs trucks); [done |].
  eapply Forall2_impl; [exact Houts |]. intros o t (lf & -> & Hlf). simpl.
  rewrite lookup_insert_ne; [by rewrite Hlf |].
  intros Heq. pose proof (is_fresh (dom σ4)) as Hfresh.
  rewrite Heq in Hfresh. apply Hfresh, elem_of_dom. eauto.
Qed.

(** C10. A call does not modify its inputs.  Every object that is in the
    store when [pack_cluster] is called is in it unchanged afterwards,
    whether the call returns or raises: the argument list has the same
    elements in the same order, and each farmer dict in it has the same
    entries.  (The filtered list that is sorted, the trucks and their lists
    are objects made by the call.) *)
Theorem inputs_unchanged (σ : store) (farmer_list : value) (capacity : Q) :
  let σ' := (Store.pack_cluster farmer_list capacity σ).2 in
  σ ⊆ σ' ∧
  ∀ items, list_at σ farmer_list = Ok items →
    list_at σ' farmer_list = Ok items ∧
    ∀ v f, v ∈ items → is_farmer σ v f → is_farmer σ' v f.
Proof.
  intros σ'. pose proof (pack_cluster_frame σ farmer_list capacity) as Hsub.
  fold σ' in Hsub. split; [done |].
  intros items Hitems. split.
  - destruct farmer_list as [| | |l]; simpl in *; try done.
    destruct (σ !! l) as [[d|vs]|] eqn:E; try done.
    by rewrite (lookup_weaken _ _ _ _ E Hsub).
  - intros v f _. by apply is_farmer_weaken.
Qed.

Lemma inputs_unchanged_witness :
  list_at (Store.pack_cluster (VRef 4%positive) 5000 store_a).2 (VRef 4%positive)
  = Ok [VRef 1%positive; VRef 2%positive; VRef 3%positive].
Proof.
  apply (proj2 (inputs_unchanged store_a (VRef 4%positive) 5000)).
  by vm_compute.
Defined.

(** C8. [pack_cluster] is deterministic.  Two calls, in whatever stores, on
    lists that hold the same farmers in the same order (the same ids, the
    same loads as numbers) with the same capacity return identical results:
    the same carriers in the same order with the same ids in the same order,
    or the same exception.  The value-level function agrees with both. *)
Theorem pack_cluster_deterministic (σ1 σ2 : store) (l1 l2 : loc)
    (items1 items2 : list value) (fs1 fs2 : list farmer) (c1 c2 : Q) :
  σ1 !! l1 = Some (OList items1) → Forall2 (is_farmer σ1) items1 fs1 →
  σ2 !! l2 = Some (OList items2) → Forall2 (is_farmer σ2) items2 fs2 →
  Forall2 farmer_same fs1 fs2 → c1 == c2 →
  let run1 := Store.pack_cluster (VRef l1) c1 σ1 in
  let run2 := Store.pack_cluster (VRef l2) c2 σ2 in
  read_lists run1.2 run1.1 = read_lists run2.2 run2.1 ∧
  read_lists run1.2 run1.1 = pack_cluster fs1 c1 ∧
  pack_cluster fs1 c1 = pack_cluster fs2 c2.
Proof.
  intros H1 Hf1 H2 Hf2 Hsame Hcap run1 run2. subst run1 run2.
  rewrite (store_run_refines σ1 l1 items1 fs1 c1 H1 Hf1).
  rewrite (store_run_refines σ2 l2 items2 fs2 c2 H2 Hf2).
  pose proof (pack_cluster_same c1 c2 fs1 fs2 Hcap Hsame) as Heq.
  by rewrite Heq.
Qed.

Lemma pack_cluster_deterministic_witness :
  let run1 := Store.pack_cluster (VRef 4%positive) 5000 store_a in
  let run2 := Store.pack_cluster (VRef 15%positive) (10000 # 2) store_b in
  read_lists run1.2 run1.1 = read_lists run2.2 run2.1 ∧
  read_lists run1.2 run1.1 = pack_cluster example5 5000 ∧
  pack_cluster example5 5000 = pack_cluster example5_alt (10000 # 2).
Proof.
  apply (pack_cluster_deterministic store_a store_b 4%positive 15%positive
           [VRef 1%positive; VRef 2%positive; VRef 3%positive]
           [VRef 12%positive; VRef 13%positive; VRef 14%positive]
           example5 example5_alt).
  - by vm_compute.
  - repeat (constructor; [eexists; split; [reflexivity | by vm_compute] |]).
    constructor.
  - by vm_compute.
  - repeat (constructor; [eexists; split; [reflexivity | by vm_compute] |]).
    constructor.
  - repeat (constructor; [split; by vm_compute |]). constructor.
  - by vm_compute.
Defined.

(** * More about [pack_cluster] *)

(** ** One placement is a best fit *)





(** ** Which inputs are accepted *)

(** X2. [pack_cluster] returns a result exactly on the lists in which every
    load is absent or a number and every farmer with a load above zero has a
    "farmer_id" entry; on every other list it raises.  The capacity plays no
    part in this. *)
Theorem pack_cluster_returns_iff (farmer_list : list farmer) (capacity : Q) :
  (∃ res, pack_cluster farmer_list capacity = Ok res) ↔
  Forall (λ f, well_formed f) farmer_list.
Proof.
  split.
  - intros [res Hres]. by eapply pack_cluster_inv.
  - intros Hwf. eexists. by apply pack_cluster_ok.
Qed.

Lemma place_missing_id capacity trucks f load :
  load_key f = Ok load → f !! "farmer_id" = None →
  place capacity trucks f = Raise KeyError.
Proof.
  intros Hload Hid. unfold place. rewrite Hload. simpl.
  assert (dict_index f "farmer_id" = Raise KeyError) as Hraise
    by (unfold dict_index; by rewrite Hid).
  generalize (py_sort remaining false trucks). intros ts.
  assert (scan f load ts = Ok None ∨ scan f load ts = Raise KeyError) as [-> | ->].
  { induction ts as [|t ts IH]; simpl; [by left |].
    destruct (Qle_bool load (remaining t)); [rewrite Hraise; by right |].
    destruct IH as [-> | ->]; [by left | by right]. }
  - simpl. by rewrite Hraise.
  - done.
Qed.

Lemma load_key_ready f load :
  load_key f = Ok load → is_Some (f !! "farmer_id") → ready f.
Proof.
  unfold ready, load_key, dict_index, load_of, id_of. intros Hload [id Hid].
  rewrite Hid. destruct (f !! "load_kg") as [[x| | |]|]; simpl in *; done.
Qed.

Lemma pack_loop_missing_id capacity fs trucks f :
  Forall (λ g, ∃ load, load_key g = Ok load) fs →
  f ∈ fs → f !! "farmer_id" = None →
  pack_loop capacity fs trucks = Raise KeyError.
Proof.
  intros Hloads Hf Hid. revert trucks.
  induction Hloads as [|g fs [load Hload] _ IH]; intros trucks;
    [by apply elem_of_nil in Hf |].
  simpl. destruct (g !! "farmer_id") as [id|] eqn:Eg.
  - apply elem_of_cons in Hf as [-> | Hf]; [congruence |].
    rewrite place_ok by (eapply load_key_ready; eauto). simpl. by apply IH.
  - by rewrite (place_missing_id capacity trucks g load).
Qed.

(** X3. A missing id is an error only for a farmer that is packed.  When
    every load is absent or a number and some farmer with a load above zero
    has no "farmer_id" entry, [pack_cluster] raises KeyError; a farmer
    whose load is absent or not above zero may lack the entry. *)
Theorem missing_id_raises_KeyError :
  (∀ (farmer_list : list farmer) (capacity : Q) (f : farmer),
     Forall (λ g, g !! "load_kg" = None ∨ ∃ x, g !! "load_kg" = Some (VNum x))
       farmer_list →
     f ∈ farmer_list → is_valid f → f !! "farmer_id" = None →
     pack_cluster farmer_list capacity = Raise KeyError) ∧
  (∀ (farmer_list : list farmer) (capacity : Q) (f : farmer),
     Forall (λ g, well_formed g) farmer_list → ¬ is_valid f →
     (f !! "load_kg" = None ∨ ∃ x, f !! "load_kg" = Some (VNum x)) →
     pack_cluster (f :: farmer_list) capacity = pack_cluster farmer_list capacity).
Proof.
  split.
  - intros fs capacity f Hloads Hf Hv Hid.
    assert (Forall (λ g, dict_get g "load_kg" (VNum 0) = VNum (load_of g)) fs) as Hget.
    { eapply Forall_impl; [exact Hloads |]. intros g. unfold dict_get, load_of.
      by intros [-> | [x ->]]. }
    assert (valid_farmers fs = Ok (List.filter is_valid fs)) as Hvalid.
    { clear -Hget. induction Hget as [|g fs Hg _ IH]; simpl; [done |].
      rewrite Hg, IH. simpl. unfold is_valid. by destruct (Qlt_bool 0 (load_of g)). }
    assert (Forall (λ g, load_key g = Ok (load_of g)) (List.filter is_valid fs))
      as Hkeys.
    { apply Forall_forall. intros g [Hg Hgv]%list_elem_of_In%filter_In.
      rewrite Forall_forall in Hloads.
      specialize (Hloads g (proj2 (list_elem_of_In _ _) Hg)).
      unfold is_valid, load_of in Hgv. unfold load_key, dict_index, load_of.
      destruct Hloads as [Hn | [x Hx]]; [by rewrite Hn in Hgv |]. by rewrite Hx. }
    unfold pack_cluster, pack_trucks. rewrite Hvalid. simpl.
    rewrite (py_sort_by_ok load_key load_of) by done. simpl.
    rewrite (pack_loop_missing_id capacity _ [] f); [done | | | done].
    + rewrite py_sort_perm. eapply Forall_impl; [exact Hkeys |].
      intros g Hg. by exists (load_of g).
    + rewrite py_sort_perm. apply list_elem_of_In, filter_In.
      split; [by apply list_elem_of_In | by apply Is_true_true].
  - intros fs capacity f Hwf Hinv Hload.
    assert (well_formed f) as Hf.
    { unfold well_formed. unfold is_valid, load_of in Hinv.
      destruct Hload as [-> | [x Hx]]; [done |]. rewrite Hx in *.
      by destruct (Qlt_bool 0 x). }
    rewrite !pack_cluster_ok by (by try constructor).
    unfold sorted_valid. simpl. by destruct (is_valid f).
Qed.

Lemma missing_id_raises_KeyError_witness :
  pack_cluster [mk_farmer "A" (VNum 5); {[ "load_kg" := VNum 3 ]}] 10
    = Raise KeyError ∧
  pack_cluster ({[ "load_kg" := VNum 0 ]} :: example5) 5000
    = pack_cluster example5 5000.
Proof.
  split.
  - apply (proj1 missing_id_raises_KeyError _ 10 {[ "load_kg" := VNum 3 ]}).
    + repeat (apply Forall_cons; split; [right; eexists; reflexivity |]).
      apply Forall_nil_2.
    + by apply (bool_decide_unpack _); vm_compute.
    + reflexivity.
    + reflexivity.
  - apply (proj2 missing_id_raises_KeyError example5 5000 {[ "load_kg" := VNum 0 ]}).
    + repeat constructor.
    + by vm_compute.
    + right. eexists. reflexivity.
Defined.

(** ** How many carriers, and what they have left *)

Lemma length_concat_nonempty {A} (l : list (list A)) :
  Forall (λ c, c ≠ []) l → (length l ≤ length (concat l))%nat.
Proof.
  induction 1 as [|c l Hc _ IH]; simpl; [done |].
  rewrite length_app. destruct c; [done |]. simpl. lia.
Qed.

(** X4. There are never more carriers than valid farmers, and the result is
    empty exactly when no farmer has a load above zero. *)
Theorem carrier_count (farmer_list : list farmer) (capacity : Q)
    (res : list (list value)) :
  pack_cluster farmer_list capacity = Ok res →
  (length res ≤ length (List.filter is_valid farmer_list))%nat ∧
  (res = [] ↔ List.filter is_valid farmer_list = []).
Proof.
  intros Hres. pose proof (pack_cluster_inv _ _ _ Hres) as Hwf.
  rewrite pack_cluster_assignment in Hres by done. inversion Hres; subst. clear Hres.
  pose proof (assignment_ids farmer_list capacity) as Hids.
  apply Permutation_length in Hids. rewrite length_map in Hids.
  assert (Forall (λ c : list value, c ≠ [])
            (map ids (assignment farmer_list capacity))) as Hne.
  { apply Forall_map. eapply Forall_impl; [apply assignment_tidy |].
    intros c (Hc & _). unfold ids. by destruct (items c). }
  apply length_concat_nonempty in Hne. split; [lia |]. split.
  - intros Hnil. rewrite Hnil in Hids. simpl in Hids.
    by destruct (List.filter is_valid farmer_list).
  - intros Hnil. unfold assignment.
    pose proof (sorted_valid_perm farmer_list) as Hp. rewrite Hnil in Hp.
    apply Permutation_nil_r in Hp. by rewrite Hp.
Qed.

Lemma carrier_count_witness :
  (length [[VStr "B"; VStr "C"]; [VStr "A"; VStr "D"]]
     ≤ length (List.filter is_valid example_6551))%nat ∧
  ([[VStr "B"; VStr "C"]; [VStr "A"; VStr "D"]] = []
     ↔ List.filter is_valid example_6551 = []).
Proof. apply (carrier_count example_6551 10). by vm_compute. Defined.

(** In exact arithmetic the remaining capacity of a truck is what the
    capacity leaves after the loads of the farmers on it, and it is never
    negative; a truck opened for a farmer heavier than the capacity has
    remaining capacity 0. *)
Lemma remaining_accounts_exact (farmer_list : list farmer) (capacity : Q)
    (trucks : list truck) :
  pack_trucks farmer_list capacity = Ok trucks →
  ∃ groups : list (list farmer),
    concat groups ≡ₚ List.filter is_valid farmer_list ∧
    Forall2 (λ t g,
      farmers t = map id_of g ∧ 0 <= remaining t ∧
      (remaining t == capacity - sum_loads g ∨
       ∃ f, g = [f] ∧ capacity < load_of f ∧ remaining t = 0)) trucks groups.
Proof.
  intros Hres. pose proof (pack_trucks_inv _ _ _ Hres) as Hwf.
  rewrite pack_trucks_assignment in Hres by done. inversion Hres; subst. clear Hres.
  exists (map items (assignment farmer_list capacity)).
  split; [apply assignment_items |].
  pose proof (assignment_tidy farmer_list capacity) as Htidy.
  induction Htidy as [|c cs (_ & Hroom & Hsum) _ IH]; simpl; constructor; [| done].
  split; [done |]. split; [done |].
  destruct Hsum as [Hsum | Hbig]; [left; simpl; lra | by right].
Qed.

(** ** What the result depends on *)

(** X6. Farmers whose load is absent or not above zero have no influence:
    two accepted lists with the same valid farmers in the same order give
    the same result, wherever the other farmers stand. *)
Theorem invalid_farmers_ignored (fs1 fs2 : list farmer) (capacity : Q) :
  Forall (λ f, well_formed f) fs1 → Forall (λ f, well_formed f) fs2 →
  List.filter is_valid fs1 = List.filter is_valid fs2 →
  pack_cluster fs1 capacity = pack_cluster fs2 capacity.
Proof.
  intros H1 H2 Hsame. rewrite !pack_cluster_ok by done.
  unfold sorted_valid. by rewrite Hsame.
Qed.

Lemma invalid_farmers_ignored_witness :
  pack_cluster (mk_farmer "Z" (VNum 0) :: example5) 5000
  = pack_cluster (example5 ++ [mk_farmer "Y" (VNum (-3))]) 5000.
Proof.
  apply invalid_farmers_ignored.
  - repeat constructor.
  - repeat constructor.
  - by vm_compute.
Defined.

(** ** When everything fits on one truck *)

Lemma sum_loads_perm fs gs : fs ≡ₚ gs → sum_loads fs == sum_loads gs.
Proof.
  induction 1 as [|f fs gs _ IH|f g fs|fs gs hs _ IH1 _ IH2]; simpl.
  - reflexivity.
  - by rewrite IH.
  - lra.
  - by rewrite IH1.
Qed.

Lemma sum_loads_nonneg fs : Forall (λ f, is_valid f) fs → 0 <= sum_loads fs.
Proof.
  induction 1 as [|f fs Hf%is_valid_pos _ IH]; simpl; lra.
Qed.

Lemma run_single capacity todo :
  Forall (λ f, is_valid f) todo →
  ∀ ids r, sum_loads todo <= r →
    ∃ r', foldl (put capacity) [Truck ids r] todo
            = [Truck (ids ++ map id_of todo) r'] ∧
          r' == r - sum_loads todo.
Proof.
  induction 1 as [|f todo Hf Htodo IH]; intros ids r Hsum; simpl in *.
  - exists r. rewrite app_nil_r. split; [done | lra].
  - pose proof (sum_loads_nonneg _ Htodo) as Hpos.
    unfold put at 2. simpl.
    assert (Qle_bool (load_of f) r = true) as -> by (apply Qle_bool_iff; lra).
    destruct (IH (ids ++ [id_of f]) (r - load_of f)) as (r' & -> & Hr'); [lra |].
    exists r'. rewrite <- app_assoc. split; [done | lra].
Qed.

(** In exact arithmetic, when the loads of the valid farmers sum to at
    most the capacity, the result is a single carrier, which lists all of
    them, heaviest first. *)
Lemma all_fit_one_carrier_exact (farmer_list : list farmer) (capacity : Q) :
  Forall (λ f, well_formed f) farmer_list →
  List.filter is_valid farmer_list ≠ [] →
  sum_loads (List.filter is_valid farmer_list) <= capacity →
  pack_cluster farmer_list capacity = Ok [map id_of (sorted_valid farmer_list)].
Proof.
  intros Hwf Hne Hsum. rewrite pack_cluster_ok by done. f_equal.
  pose proof (sorted_valid_valid farmer_list) as Hvalid.
  pose proof (sorted_valid_perm farmer_list) as Hperm.
  rewrite <- (sum_loads_perm _ _ Hperm) in Hsum.
  destruct (sorted_valid farmer_list) as [|f todo] eqn:E.
  { apply Permutation_nil in Hperm. done. }
  apply Forall_cons in Hvalid as [Hf%is_valid_pos Htodo].
  pose proof (sum_loads_nonneg _ Htodo) as Hpos. simpl in Hsum.
  simpl. unfold put at 2. simpl. unfold new_truck. rewrite py_max_0.
  assert (Qlt_bool (capacity - load_of f) 0 = false) as ->
    by (apply Qlt_bool_false; lra).
  destruct (run_single capacity todo Htodo [id_of f] (capacity - load_of f))
    as (r' & -> & _); [lra |]. done.
Qed.

(** ** The order inside a carrier *)

Lemma cput_sublist capacity cs f done_ :
  Forall (λ c, sublist (items c) done_) cs →
  Forall (λ c, sublist (items c) (done_ ++ [f])) (cput capacity cs f).
Proof.
  intros Hcs. rewrite <- (py_sort_perm room false cs) in Hcs.
  assert (∀ l, Forall (λ c, sublist (items c) done_) l →
               Forall (λ c, sublist (items c) (done_ ++ [f])) l) as Hweak.
  { intros l Hl. eapply Forall_impl; [exact Hl |].
    intros c. apply sublist_inserts_r. }
  destruct (cput_cases capacity cs f) as
      [(pre & c & post & Hws & -> & _) | [-> _]].
  - rewrite Hws in Hcs. apply Forall_app in Hcs as [Hpre Hcs].
    apply Forall_cons in Hcs as [Hc Hpost].
    apply Forall_app. split; [by apply Hweak |]. constructor; [| by apply Hweak].
    simpl. by apply sublist_app.
  - apply Forall_app. split; [by apply Hweak |]. constructor; [| constructor].
    simpl. apply sublist_inserts_l. done.
Qed.

Lemma run_sublist capacity fs cs done_ :
  Forall (λ c, sublist (items c) done_) cs →
  Forall (λ c, sublist (items c) (done_ ++ fs)) (foldl (cput capacity) cs fs).
Proof.
  revert cs done_. induction fs as [|f fs IH]; intros cs done_ Hcs; simpl.
  - by rewrite app_nil_r.
  - rewrite (cons_middle f done_ fs), app_assoc. by apply IH, cput_sublist.
Qed.

(** X8. Inside every carrier the ids stand in the order in which the loop
    handled the farmers: each carrier is a subsequence of the sorted valid
    list, which holds the valid farmers heaviest first, farmers of equal
    load in their input order. *)
Theorem carrier_order (farmer_list : list farmer) (capacity : Q)
    (res : list (list value)) :
  pack_cluster farmer_list capacity = Ok res →
  let order := sorted_valid farmer_list in
  Forall (λ c, sublist c (map id_of order)) res ∧
  order ≡ₚ List.filter is_valid farmer_list ∧
  StronglySorted (λ f g, load_of g <= load_of f) order ∧
  ∀ k, List.filter (λ f, Qeq_bool (load_of f) k) order
       = List.filter (λ f, Qeq_bool (load_of f) k)
           (List.filter is_valid farmer_list).
Proof.
  intros Hres order. pose proof (pack_cluster_inv _ _ _ Hres) as Hwf.
  rewrite pack_cluster_assignment in Hres by done. inversion Hres; subst. clear Hres.
  split; [| split; [| split]].
  - apply Forall_map.
    pose proof (run_sublist capacity (sorted_valid farmer_list) [] []
                  (Forall_nil_2 _)) as Hsub.
    eapply Forall_impl; [exact Hsub |]. intros c Hc. simpl in Hc.
    unfold ids. by apply (fmap_sublist id_of).
  - apply sorted_valid_perm.
  - pose proof (py_sort_sorted load_of true (List.filter is_valid farmer_list)) as H.
    fold (sorted_valid farmer_list) in H. fold order in H.
    induction H as [|f l _ IH Hall]; constructor; [done |].
    eapply Forall_impl; [exact Hall |]. intros g Hg.
    unfold in_order, before in Hg. by apply Qlt_bool_false.
  - intros k. apply py_sort_stable.
Qed.

Lemma carrier_order_witness :
  let order := sorted_valid example_6551 in
  Forall (λ c, sublist c (map id_of order))
    [[VStr "B"; VStr "C"]; [VStr "A"; VStr "D"]] ∧
  order ≡ₚ List.filter is_valid example_6551 ∧
  StronglySorted (λ f g, load_of g <= load_of f) order ∧
  ∀ k, List.filter (λ f, Qeq_bool (load_of f) k) order
       = List.filter (λ f, Qeq_bool (load_of f) k)
           (List.filter is_valid example_6551).
Proof. apply (carrier_order example_6551 10). by vm_compute. Defined.

(** ** No two carriers could have shared a truck *)

Lemma tidy_no_room capacity c f :
  tidy capacity c → is_valid f → room c < load_of f →
  capacity < sum_loads (items c) + load_of f.
Proof.
  intros (_ & Hroom & [Hsum | (g & Hg & Hbig & _)]) Hf%is_valid_pos Hlt; [lra |].
  rewrite Hg. simpl. lra.
Qed.

Lemma cput_no_merge capacity cs f :
  map born cs ≡ₚ seq 0 (length cs) → Forall (tidy capacity) cs →
  (∀ c d, c ∈ cs → d ∈ cs → born c ≠ born d →
          capacity < sum_loads (items c) + sum_loads (items d)) →
  is_valid f →
  ∀ c d, c ∈ cput capacity cs f → d ∈ cput capacity cs f → born c ≠ born d →
         capacity < sum_loads (items c) + sum_loads (items d).
Proof.
  intros Hborn Htidy Hpairs Hf.
  pose proof (is_valid_pos _ Hf) as Hpos.
  pose proof (py_sort_perm room false cs) as Hperm.
  destruct (cput_cases capacity cs f) as
      [(pre & c0 & post & Hws & -> & Hle & _) | [-> Hnone]].
  - assert (∀ x, x ∈ pre ++ load_onto f c0 :: post →
                 ∃ x0, x0 ∈ cs ∧ born x = born x0 ∧
                       sum_loads (items x0) <= sum_loads (items x)) as Hback.
    { assert (∀ y, y ∈ pre ++ c0 :: post → y ∈ cs) as Hin
        by (intros y; by rewrite <- Hws, Hperm).
      intros x Hx.
      apply elem_of_app in Hx as [Hx | [-> | Hx]%elem_of_cons].
      - exists x. split; [apply Hin, elem_of_app; by left |]. split; [done | lra].
      - exists c0. split; [apply Hin, elem_of_app; right; by left |].
        split; [done |]. simpl. rewrite sum_loads_app. simpl. lra.
      - exists x. split; [apply Hin, elem_of_app; right; by right |].
        split; [done | lra]. }
    intros c d Hc Hd Hne.
    destruct (Hback c Hc) as (c' & Hc' & Hbc & Hsc).
    destruct (Hback d Hd) as (d' & Hd' & Hbd & Hsd).
    assert (born c' ≠ born d') as Hne' by congruence.
    pose proof (Hpairs c' d' Hc' Hd' Hne'). lra.
  - assert (∀ x, x ∈ py_sort room false cs →
                 capacity < sum_loads (items x) + load_of f) as Hold.
    { intros x Hx. apply tidy_no_room; [| done |].
      - rewrite Forall_forall in Htidy. apply Htidy. by rewrite <- Hperm.
      - rewrite Forall_forall in Hnone. by apply Hnone. }
    intros c d [Hc | ->%list_elem_of_singleton]%elem_of_app
               [Hd | ->%list_elem_of_singleton]%elem_of_app Hne; simpl in *.
    + apply Hpairs; [by rewrite <- Hperm | by rewrite <- Hperm | done].
    + pose proof (Hold c Hc). lra.
    + pose proof (Hold d Hd). lra.
    + done.
Qed.

Lemma assignment_no_merge fs capacity :
  ∀ c d, c ∈ assignment fs capacity → d ∈ assignment fs capacity →
         born c ≠ born d →
         capacity < sum_loads (items c) + sum_loads (items d).
Proof.
  set (P := λ cs : list carrier,
         map born cs ≡ₚ seq 0 (length cs) ∧ Forall (tidy capacity) cs ∧
         ∀ c d, c ∈ cs → d ∈ cs → born c ≠ born d →
                capacity < sum_loads (items c) + sum_loads (items d)).
  assert (P (assignment fs capacity)) as (_ & _ & H); [| exact H].
  apply (run_invariant capacity P).
  - intros cs f (Hborn & Htidy & Hpairs) Hf. split; [| split].
    + by apply cput_born.
    + by apply cput_tidy.
    + by apply cput_no_merge.
  - split; [done |]. split; [constructor |]. by intros c d ?%elem_of_nil.
  - apply sorted_valid_valid.
Qed.

Lemma no_two_carriers_mergeable_groups farmer_list capacity res :
  pack_cluster farmer_list capacity = Ok res →
  ∃ groups : list (list farmer),
    res = map (map id_of) groups ∧
    concat groups ≡ₚ List.filter is_valid farmer_list ∧
    Forall (λ g, 0 < sum_loads g) groups ∧
    ∀ i j g h, i ≠ j → groups !! i = Some g → groups !! j = Some h →
               capacity < sum_loads g + sum_loads h.
Proof.
  intros Hres. pose proof (pack_cluster_inv _ _ _ Hres) as Hwf.
  rewrite pack_cluster_assignment in Hres by done. inversion Hres; subst. clear Hres.
  exists (map items (assignment farmer_list capacity)).
  split; [by rewrite map_map |]. split; [apply assignment_items |]. split.
  - apply Forall_map, Forall_forall. intros c Hc.
    pose proof (assignment_tidy farmer_list capacity) as Htidy.
    rewrite Forall_forall in Htidy. destruct (Htidy c Hc) as (Hne & _).
    assert (Forall (λ f, is_valid f) (items c)) as Hvalid.
    { apply Forall_forall. intros f Hf.
      assert (f ∈ List.filter is_valid farmer_list) as Hin.
      { rewrite <- (assignment_items farmer_list capacity).
        apply list_elem_of_In, in_concat. exists (items c).
        split; [| by apply list_elem_of_In].
        apply in_map, list_elem_of_In, Hc. }
      apply list_elem_of_In, filter_In in Hin as [_ Hin]. by apply Is_true_true. }
    destruct (items c) as [|f l]; [done |].
    apply Forall_cons in Hvalid as [Hf%is_valid_pos Hl%sum_loads_nonneg].
    simpl. lra.
  - intros i j g h Hij Hg Hh.
    apply list_lookup_fmap_Some_1 in Hg as (c & -> & Hc).
    apply list_lookup_fmap_Some_1 in Hh as (d & -> & Hd).
    apply (assignment_no_merge farmer_list capacity).
    + by eapply list_elem_of_lookup_2.
    + by eapply list_elem_of_lookup_2.
    + intros Heq. apply Hij.
      assert (NoDup (map born (assignment farmer_list capacity))) as Hnd.
      { rewrite (run_born capacity (sorted_valid farmer_list) []) by done.
        apply NoDup_seq. }
      eapply NoDup_lookup; [exact Hnd | |].
      * change (map born ?l) with (born <$> l). by rewrite list_lookup_fmap, Hc.
      * change (map born ?l) with (born <$> l). rewrite list_lookup_fmap, Hd.
        simpl. by rewrite Heq.
Qed.

(** ** Fewer than twice the trucks that the loads need *)





(** * More about the store run *)

Lemma pack_cluster_returns_shape (σ : store) farmer_list capacity v σ' :
  Store.pack_cluster farmer_list capacity σ = (Ok v, σ') →
  ∃ lt σ4 ts out,
    trucks_inv σ lt σ4 ∧ σ4 !! lt = Some (OList ts) ∧
    map_result (Store.farmers σ4) ts = Ok out ∧
    v = VRef (fresh (dom σ4)) ∧ σ' = <[fresh (dom σ4):=OList out]> σ4.
Proof.
  unfold Store.pack_cluster, run_bind at 1 2 3, get_store, lift. simpl.
  destruct (list_at σ farmer_list) as [items|]; simpl; [| done].
  destruct (Store.valid_farmers σ items) as [valid|]; simpl; [| done].
  unfold run_bind at 1, new_list, new_obj. simpl.
  assert (σ !! fresh (dom σ) = None) as Hf by apply not_elem_of_dom, is_fresh.
  set (lv := fresh (dom σ)) in *. set (σ1 := <[lv:=OList valid]> σ).
  unfold run_bind at 1, list_sort. unfold σ1 at 1. rewrite lookup_insert_eq.
  destruct (py_sort_by (Store.load_key σ1) true valid) as [sorted|]; simpl; [| done].
  set (σ2 := <[lv:=OList sorted]> σ1).
  assert (σ ⊆ σ2) as Hsub2.
  { apply insert_subseteq_r; [done |]. by apply insert_subseteq. }
  unfold run_bind at 1. simpl.
  assert (σ2 !! fresh (dom σ2) = None) as Hf2 by apply not_elem_of_dom, is_fresh.
  set (lt := fresh (dom σ2)) in *. set (σ3 := <[lt:=OList []]> σ2).
  assert (trucks_inv σ lt σ3) as Hinv.
  { split; [by apply insert_subseteq_r, Hsub2; eapply lookup_weaken_None |].
    split; [by eapply lookup_weaken_None |].
    exists []. split; [by unfold σ3; rewrite lookup_insert_eq | constructor]. }
  unfold run_bind at 1 2. simpl.
  destruct (σ3 !! lv) as [[d|fs]|]; simpl; try done.
  pose proof (store_loop_inv σ lt capacity fs σ3 Hinv) as Hinv'.
  unfold run_bind at 1.
  destruct (Store.pack_loop capacity (VRef lt) fs σ3) as [[[]|e] σ4]; simpl in *;
    [| done].
  unfold run_bind. simpl.
  destruct (σ4 !! lt) as [[d|ts]|] eqn:Elt; simpl; try done.
  destruct (map_result (Store.farmers σ4) ts) as [out|] eqn:Eout; simpl; [| done].
  intros [= <- <-]. by exists lt, σ4, ts, out.
Qed.

(** X10. What a call returns is new.  The list object returned and the
    list object of every carrier in it are objects that were not in the
    store before the call: the result shares no list with the input, so the
    caller may change either without changing the other. *)
Theorem result_is_fresh (σ σ' : store) (farmer_list v : value) (capacity : Q) :
  Store.pack_cluster farmer_list capacity σ = (Ok v, σ') →
  ∃ lr outs,
    v = VRef lr ∧ σ !! lr = None ∧ σ' !! lr = Some (OList outs) ∧
    Forall (λ o, ∃ lf ids, o = VRef lf ∧ lf ≠ lr ∧ σ !! lf = None ∧
                           σ' !! lf = Some (OList ids)) outs.
Proof.
  intros Hrun.
  apply pack_cluster_returns_shape in Hrun
    as (lt & σ4 & ts & out & Hinv & Hlt & Hout & -> & ->).
  destruct Hinv as (Hsub & H0 & ts' & Hlt' & Hown).
  rewrite Hlt in Hlt'. inversion Hlt'; subst ts'. clear Hlt'.
  assert (σ4 !! fresh (dom σ4) = None) as Hfresh by apply not_elem_of_dom, is_fresh.
  exists (fresh (dom σ4)), out.
  split; [done |]. split; [by eapply lookup_weaken_None |].
  split; [by rewrite lookup_insert_eq |].
  apply map_result_inv in Hout. clear Hlt.
  assert (Forall (λ o, ∃ lf ids, o = VRef lf ∧ σ !! lf = None ∧
                                 σ4 !! lf = Some (OList ids)) out) as Hout4.
  { induction Hout as [|t o ts out Ho _ IH]; [constructor |].
    apply Forall_cons in Hown as [Ht Hown]. constructor; [| by apply IH].
    destruct Ht as (tl & d & lf & ids & -> & _ & _ & Htl & Hd & H0lf & _ & Hlf).
    unfold Store.farmers, dict_index in Ho. simpl in Ho. rewrite Htl in Ho.
    simpl in Ho. rewrite Hd in Ho. inversion Ho; subst o. eauto. }
  eapply Forall_impl; [exact Hout4 |].
  intros o (lf & ids & -> & H0lf & Hlf).
  assert (lf ≠ fresh (dom σ4)) as Hne by (intros ->; congruence).
  exists lf, ids. split; [done |]. split; [done |]. split; [done |].
  by rewrite lookup_insert_ne.
Qed.

Lemma result_is_fresh_witness :
  ∃ lr outs,
    VRef 11%positive = VRef lr ∧ store_a !! lr = None ∧
    (Store.pack_cluster (VRef 4%positive) 5000 store_a).2 !! lr
      = Some (OList outs) ∧
    Forall (λ o, ∃ lf ids, o = VRef lf ∧ lf ≠ lr ∧ store_a !! lf = None ∧
                           (Store.pack_cluster (VRef 4%positive) 5000 store_a).2 !! lf
                             = Some (OList ids)) outs.
Proof.
  apply (result_is_fresh store_a _ (VRef 4%positive) (VRef 11%positive) 5000).
  by vm_compute.
Defined.

(** * find_optimal_k *)

Lemma length_np_diff a : length (np_diff a) = (length a - 1)%nat.
Proof.
  induction a as [|x [|y a] IH]; [done | done |].
  change (np_diff (x :: y :: a)) with ((y - x) :: np_diff (y :: a)).
  simpl in *. lia.
Qed.

Lemma length_diff_ratios d : length (diff_ratios d) = (length d - 1)%nat.
Proof.
  unfold diff_ratios. rewrite length_zip_with, length_drop, length_take. lia.
Qed.

Lemma length_py_range a b : length (py_range a b) = Z.to_nat (b - a).
Proof. unfold py_range. by rewrite length_map, length_seq. Qed.

Lemma argmin_loop_bound rest mp min_ind i :
  (min_ind < i)%nat → (argmin_loop mp min_ind i rest < i + length rest)%nat.
Proof.
  revert mp min_ind i. induction rest as [|x rest IH]; intros mp min_ind i Hlt; simpl.
  - lia.
  - destruct (np_ge x mp).
    + specialize (IH mp min_ind (S i)). lia.
    + destruct x; [| | lia].
      * specialize (IH (Finite x) i (S i)). lia.
      * specialize (IH Inf i (S i)). lia.
Qed.

Lemma np_argmin_bound a r : np_argmin a = Ok r → (r < length a)%nat.
Proof.
  destruct a as [|mp rest]; simpl; [done |].
  pose proof (argmin_loop_bound rest mp 0 1) as H.
  destruct mp; intros [= <-]; simpl; lia.
Qed.

Lemma np_argmin_empty_iff a : np_argmin a = Raise ValueError ↔ a = [].
Proof. destruct a as [|[] ?]; simpl; split; done. Qed.

Lemma map_result_total {A B} (g : A → result B) l :
  Forall (λ x, ∃ y, g x = Ok y) l → ∃ ys, map_result g l = Ok ys.
Proof.
  induction 1 as [|x l [y Hy] _ [ys IH]]; simpl; [by eexists |].
  rewrite Hy, IH. simpl. by eexists.
Qed.

Section find_optimal_k_facts.
Context {data : Type}.
Variable kmeans_inertia : data → Z → result Q.
Variable save_elbow_plot : list Z → list Q → result unit.
Variable print_elbow : Z → result unit.

Lemma find_optimal_k_inv X k_min k_max k :
  find_optimal_k kmeans_inertia save_elbow_plot print_elbow X k_min k_max = Ok k →
  ∃ sse i,
    map_result (kmeans_inertia X) (py_range k_min (k_max + 1)) = Ok sse ∧
    np_argmin (diff_ratios (np_diff sse)) = Ok i ∧
    k = (k_min + Z.of_nat i + 1)%Z.
Proof.
  unfold find_optimal_k. cbv zeta.
  destruct (map_result _ _) as [sse|]; [| done]. rewrite bind_Ok.
  destruct (np_argmin _) as [i|] eqn:Ei; [| done]. rewrite bind_Ok.
  destruct (save_elbow_plot _ _); [| done]. rewrite bind_Ok.
  destruct (print_elbow _); [| done]. rewrite bind_Ok.
  intros [= <-]. by exists sse, i.
Qed.

(** X11. The elbow is never at an end of the range.  A value returned by
    [find_optimal_k(X, k_min, k_max)] lies strictly between [k_min] and
    [k_max]: the smallest and the largest number of clusters tried are
    never chosen. *)
Theorem find_optimal_k_range (X_scaled : data) (k_min k_max k : Z) :
  find_optimal_k kmeans_inertia save_elbow_plot print_elbow X_scaled k_min k_max
    = Ok k →
  (k_min < k < k_max)%Z.
Proof.
  intros (sse & i & Hsse & Hi & ->)%find_optimal_k_inv.
  apply np_argmin_bound in Hi.
  rewrite length_diff_ratios, length_np_diff in Hi.
  apply map_result_inv, Forall2_length in Hsse.
  rewrite length_py_range in Hsse. lia.
Qed.

(** X12. The elbow rule needs three candidates.  When the range
    [k_min..k_max] holds fewer than three numbers and every fit succeeds,
    [find_optimal_k] raises ValueError ([np.argmin] of an empty array)
    instead of returning; with fewer than three numbers it never returns. *)
Theorem find_optimal_k_short_range (X_scaled : data) (k_min k_max : Z) :
  (k_max < k_min + 2)%Z →
  (∀ k, find_optimal_k kmeans_inertia save_elbow_plot print_elbow
          X_scaled k_min k_max ≠ Ok k) ∧
  ((∀ k, (k_min <= k <= k_max)%Z → ∃ x, kmeans_inertia X_scaled k = Ok x) →
   find_optimal_k kmeans_inertia save_elbow_plot print_elbow X_scaled k_min k_max
     = Raise ValueError).
Proof.
  intros Hshort. split.
  - intros k Hk%find_optimal_k_range. lia.
  - intros Hfits. unfold find_optimal_k. cbv zeta.
    destruct (map_result_total (kmeans_inertia X_scaled)
                (py_range k_min (k_max + 1))) as [sse Hsse].
    { apply Forall_forall. intros k Hk. apply Hfits.
      unfold py_range in Hk.
      apply list_elem_of_In, in_map_iff in Hk as (j & <- & Hj).
      apply in_seq in Hj. lia. }
    rewrite Hsse, bind_Ok.
    assert (diff_ratios (np_diff sse) = []) as ->; [| done].
    apply nil_length_inv. rewrite length_diff_ratios, length_np_diff.
    apply map_result_inv, Forall2_length in Hsse.
    rewrite length_py_range in Hsse. lia.
Qed.
End find_optimal_k_facts.

(** ** Lists and ranges *)

Lemma zip_with_take_same {A B C} (h : A → B → C) l1 l2 :
  zip_with h l1 (take (length l1) l2) = zip_with h l1 l2.
Proof.
  revert l2. induction l1 as [|x l1 IH]; intros [|y l2]; simpl; [done.. |].
  by rewrite IH.
Qed.

Lemma zip_with_seq_shift {A B} (h : A → A → B) (g : nat → A) n :
  ∀ s m, (n ≤ m)%nat →
    zip_with h (map g (seq (S s) n)) (map g (seq s m))
    = map (λ i, h (g (S i)) (g i)) (seq s n).
Proof.
  induction n as [|n IH]; intros s m Hm; [done |].
  destruct m as [|m]; [lia |]. simpl. f_equal. apply IH. lia.
Qed.

Section find_optimal_k_elbow.
Context {data : Type}.
Variable kmeans_inertia : data → Z → result Q.
Variable save_elbow_plot : list Z → list Q → result unit.
Variable print_elbow : Z → result unit.

(** X14. The number of clusters [train_and_cluster] trains with (lines
    70-74).  A positive [k] given by the caller is used as it is.  When [k]
    is not given or is not positive the elbow search over 3..8 decides, and
    then the number is 4, 5, 6 or 7: never 3 and never 8. *)
Theorem train_and_cluster_k_range (X_scaled : data) (k : option Z) (k' : Z) :
  train_and_cluster_k kmeans_inertia save_elbow_plot print_elbow X_scaled k
    = Ok k' →
  (k = Some k' ∧ (0 < k')%Z) ∨
  ((k = None ∨ ∃ k0, k = Some k0 ∧ (k0 <= 0)%Z) ∧ (4 <= k' <= 7)%Z).
Proof.
  unfold train_and_cluster_k. destruct k as [k0|].
  - destruct (k0 <=? 0)%Z eqn:E.
    + intros Hk%find_optimal_k_range. right. split; [| lia].
      right. exists k0. split; [done | lia].
    + intros [= <-]. left. split; [done | lia].
  - intros Hk%find_optimal_k_range. right. split; [by left | lia].
Qed.
End find_optimal_k_elbow.

Lemma find_optimal_k_range_witness : (2 < 4 < 7)%Z.
Proof.
  apply (find_optimal_k_range sample_fit plot_ok print_ok tt 2 7 4).
  reflexivity.
Defined.

Lemma find_optimal_k_short_range_witness :
  find_optimal_k sample_fit plot_ok print_ok tt 2 3 = Raise ValueError.
Proof.
  apply (find_optimal_k_short_range sample_fit plot_ok print_ok tt 2 3).
  - lia.
  - intros k _. by eexists.
Defined.

Lemma train_and_cluster_k_range_witness :
  ((None : option Z) = Some 4%Z ∧ (0 < 4)%Z) ∨
  (((None : option Z) = None ∨ ∃ k0, None = Some k0 ∧ (k0 <= 0)%Z) ∧
   (4 <= 4 <= 7)%Z).
Proof.
  apply (train_and_cluster_k_range sample_fit plot_ok print_ok tt None 4).
  reflexivity.
Defined.

(** * Binary64 numbers *)

(** ** Rounding *)

Lemma Qpow2_pos e : 0 < Qpow2 e.
Proof.
  unfold Qpow2. destruct (0 <=? e)%Z eqn:E.
  - apply Z.leb_le in E. change 0 with (inject_Z 0). rewrite <- Zlt_Qlt.
    by apply Z.pow_pos_nonneg.
  - apply Z.leb_gt in E. apply Qinv_lt_0_compat.
    change 0 with (inject_Z 0). rewrite <- Zlt_Qlt. apply Z.pow_pos_nonneg; lia.
Qed.

Lemma rne_cases q : rne q = Qfloor q ∨ rne q = (Qfloor q + 1)%Z.
Proof.
  unfold rne. destruct (Qcompare _ _); [destruct (Z.even _) | |]; auto.
Qed.

Lemma rne_Z q w : q == inject_Z w → rne q = w.
Proof.
  intros H. unfold rne.
  assert (Qfloor q = w) as -> by (rewrite H; apply Qfloor_Z).
  assert (q - inject_Z w < 1 # 2) as Hlt by (rewrite H; lra).
  by rewrite (proj1 (Qlt_alt _ _) Hlt).
Qed.

Lemma rne_nonneg q : 0 <= q → (0 ≤ rne q)%Z.
Proof.
  intros H. apply Qfloor_resp_le in H. change (Qfloor 0) with 0%Z in H.
  destruct (rne_cases q) as [-> | ->]; lia.
Qed.

Lemma rne_nonpos q : q <= 0 → (rne q ≤ 0)%Z.
Proof.
  intros H. pose proof (Qfloor_resp_le _ _ H) as Hf. change (Qfloor 0) with 0%Z in Hf.
  destruct (Z.eq_dec (Qfloor q) 0%Z) as [E | E].
  - pose proof (Qfloor_le q) as Hle. rewrite E in Hle.
    assert (q == inject_Z 0) as Hq by (change (inject_Z 0) with 0 in *; lra).
    rewrite (rne_Z q 0 Hq). done.
  - destruct (rne_cases q) as [-> | ->]; lia.
Qed.

Lemma round64_proper x y : x == y → round64 x = round64 y.
Proof. intros H. unfold round64. by rewrite (Qred_complete x y H). Qed.

Lemma round64_nonneg x : 0 <= x → 0 <= round64 x.
Proof.
  intros H. unfold round64. rewrite <- (Qred_correct x) in H.
  destruct (Qeq_bool (Qred x) 0); [done |].
  set (e := Z.max _ _). rewrite Qred_correct.
  pose proof (Qpow2_pos e) as Hp.
  apply Qmult_le_0_compat; [| lra].
  change 0 with (inject_Z 0). rewrite <- Zle_Qle. apply rne_nonneg.
  apply Qle_shift_div_l; [done | lra].
Qed.

Lemma round64_nonpos x : x <= 0 → round64 x <= 0.
Proof.
  intros H. unfold round64. rewrite <- (Qred_correct x) in H.
  destruct (Qeq_bool (Qred x) 0); [done |].
  set (e := Z.max _ _). rewrite Qred_correct.
  pose proof (Qpow2_pos e) as Hp.
  assert (inject_Z (rne (Qred x / Qpow2 e)) <= 0) as Hm.
  { change 0 with (inject_Z 0). rewrite <- Zle_Qle. apply rne_nonpos.
    apply Qle_shift_div_r; [done | lra]. }
  assert (0 <= - inject_Z (rne (Qred x / Qpow2 e)) * Qpow2 e) as Hn.
  { apply Qmult_le_0_compat; lra. }
  lra.
Qed.

Lemma Qpow2_nonpos e : (e ≤ 0)%Z → Qpow2 e == / inject_Z (2 ^ (- e)).
Proof.
  intros H. unfold Qpow2. destruct (0 <=? e)%Z eqn:E; [| done].
  apply Z.leb_le in E. assert (e = 0%Z) as -> by lia. done.
Qed.

Lemma Qlog2_whole a : (0 < a)%Z → Qlog2 (inject_Z a) = Z.log2 a.
Proof.
  intros Ha. unfold Qlog2. simpl. rewrite Z.sub_0_r.
  pose proof (Z.log2_nonneg a) as Hl. pose proof (Z.log2_spec a Ha) as [Hs _].
  assert (Qle_bool (Qpow2 (Z.log2 a)) (inject_Z a) = true) as ->; [| done].
  apply Qle_bool_iff. unfold Qpow2.
  destruct (0 <=? Z.log2 a)%Z eqn:E; [| apply Z.leb_gt in E; lia].
  by rewrite <- Zle_Qle.
Qed.

Lemma Qred_inject_Z w : Qred (inject_Z w) = inject_Z w.
Proof.
  pose proof (Qred_correct (inject_Z w)) as Hc.
  pose proof (gcd_Qred (inject_Z w)) as Hg.
  destruct (Qred (inject_Z w)) as [n d]. unfold Qeq in Hc. simpl in *.
  assert (n = (w * Z.pos d)%Z) as -> by lia.
  rewrite Z.gcd_comm, Z.mul_comm, Z.gcd_mul_diag_l in Hg by lia.
  assert (d = 1%positive) as -> by lia. unfold inject_Z. f_equal. lia.
Qed.

Lemma round64_Z w : (Z.abs w ≤ 2 ^ 53)%Z → round64 (inject_Z w) == inject_Z w.
Proof.
  intros Hz. unfold round64. rewrite Qred_inject_Z.
  destruct (Qeq_bool (inject_Z w) 0) eqn:E.
  { apply Qeq_bool_iff in E. by rewrite E. }
  assert (w ≠ 0%Z) as Hnz by (intros ->; done).
  assert (Qabs (inject_Z w) = inject_Z (Z.abs w)) as -> by done.
  rewrite Qlog2_whole by lia. rewrite Qred_correct.
  pose proof (Z.log2_nonneg (Z.abs w)) as Hl0.
  assert (Z.log2 (Z.abs w) ≤ 53)%Z as Hl53.
  { rewrite <- (Z.log2_pow2 53) by lia. by apply Z.log2_le_mono. }
  rewrite Z.max_r by lia.
  destruct (Z.le_gt_cases (Z.log2 (Z.abs w)) 52) as [Hle | Hgt].
  - set (e := (Z.log2 (Z.abs w) - 52)%Z). assert (e ≤ 0)%Z as He by lia.
    pose proof (Qpow2_nonpos e He) as Hpow.
    assert (0 < 2 ^ (- e))%Z as Hp by (apply Z.pow_pos_nonneg; lia).
    assert (¬ inject_Z (2 ^ (- e)) == 0) as Hne.
    { change 0 with (inject_Z 0). rewrite inject_Z_injective. lia. }
    rewrite (rne_Z _ (w * 2 ^ (- e))).
    + rewrite Hpow, inject_Z_mult. by field.
    + rewrite Hpow, inject_Z_mult. by field.
  - assert (Z.log2 (Z.abs w) = 53%Z) as Hl by lia. rewrite Hl.
    pose proof (Z.log2_spec (Z.abs w) ltac:(lia)) as [Hs _]. rewrite Hl in Hs.
    assert (w = (2 ^ 53)%Z ∨ w = (- 2 ^ 53)%Z) as [-> | ->] by lia; by vm_compute.
Qed.

Lemma is_whole_inv x : is_whole x → ∃ z, x == inject_Z z ∧ (Z.abs z ≤ 2 ^ 53)%Z.
Proof.
  unfold is_whole. intros [Hd Hn]%andb_prop_elim.
  apply bool_decide_unpack in Hd. apply bool_decide_unpack in Hn.
  exists (Qnum (Qred x)). pose proof (Qred_correct x) as Hx.
  destruct (Qred x) as [n d]; simpl in *. subst d. split; [| done].
  by symmetry.
Qed.

Lemma round64_whole x : is_whole x → round64 x == x.
Proof.
  intros (z & Hx & Hz)%is_whole_inv.
  rewrite (round64_proper x (inject_Z z) Hx), Hx. by apply round64_Z.
Qed.

(** [round64] against the machine's binary64 subtraction: the same result
    on the differences that the examples take, on differences that are
    exact, that round up or down, that meet a tie, that are subnormal or
    overflow, and on the difference of any two of [sample_floats]. *)
Lemma round64_agrees_with_hardware :
  Prim2Q (fl 5404319552844595 (-54)) = Some d0_3 ∧
  Prim2Q (fl 7926335344172073 (-56)) = Some d0_11 ∧
  Prim2Q (fl 3602879701896397 (-55)) = Some d0_1 ∧
  Prim2Q (fl 3242591731706757 (-55)) = Some d0_09 ∧
  forallb (λ p, sub_agrees p.1 p.2)
    [(fl 5404319552844595 (-54), fl 7926335344172073 (-56));
     (fl 3422735716801577 (-54), fl 3602879701896397 (-55));
     (fl 3242591731706757 (-55), fl 3242591731706757 (-55));
     (fl 1 0, fl 1 (-1));
     (fl 1 (-1), fl 6755399441055747 (-55));
     (fl 2814749767106559 (-53), fl 3 (-4));
     (fl 1 0, fl 3602879701896397 (-55));
     (fl 3602879701896397 (-55), fl 5404319552844595 (-54));
     (fl 9007199254740992 0, fl 1 0);
     (fl 9007199254740994 0, fl 1 0);
     (fl 9007199254740992 0, PrimFloat.opp (fl 1 0));
     (fl 9007199254740992 0, PrimFloat.opp (fl 3 0));
     (fl 1 (-1022), fl 3 (-1024));
     (fl 1 (-1074), fl 1 (-1073));
     (fl 9007199254740991 971, fl 1 970);
     (fl 9007199254740991 971, PrimFloat.opp (fl 9007199254740991 971));
     (fl 4142522435566043 (-25), fl 4722366482869645 (-72));
     (fl 6000 0, fl 5000 0);
     (fl 5000 0, fl 2500 0)] = true ∧
  forallb (λ p, sub_agrees p.1 p.2) (list_prod sample_floats sample_floats) = true.
Proof. repeat split; by vm_compute. Qed.

(** [B64.np_abs_div] against the machine's division and absolute value: on
    the quotients of the example below, on quotients that round, that
    underflow and that overflow, on divisions by zero, and on the quotient
    of any two of [sample_floats]. *)
Lemma np_abs_div_agrees_with_hardware :
  forallb (λ p, div_agrees p.1 p.2)
    [(PrimFloat.opp (fl 10 0), PrimFloat.opp (fl 5629499534213121 (-48)));
     (PrimFloat.opp (fl 5629499534213119 (-50)), PrimFloat.opp (fl 10 0));
     (fl 1 0, fl 3 0); (fl 2 0, fl 3 0); (PrimFloat.opp (fl 1 0), fl 3 0);
     (fl 7 0, fl 3602879701896397 (-55));
     (fl 1 (-1074), fl 3 0); (fl 1 (-1074), fl 2 0); (fl 3 (-1074), fl 2 0);
     (fl 1 (-1000), fl 1 100);
     (fl 1 1000, fl 1 (-1000));
     (fl 9007199254740991 971, fl 9007199254740991 (-53));
     (fl 9007199254740991 971, fl 1 0);
     (fl 1 0, PrimFloat.zero); (PrimFloat.zero, PrimFloat.zero);
     (PrimFloat.zero, fl 1 0)] = true ∧
  forallb (λ p, div_agrees p.1 p.2) (list_prod sample_floats sample_floats) = true.
Proof. split; by vm_compute. Qed.

(** ** The run on binary64 numbers *)

Lemma sub64_nonneg a b : b <= a → 0 <= B64.sub a b.
Proof. intros H. apply round64_nonneg. lra. Qed.

Lemma sub64_nonpos a b : a <= b → B64.sub a b <= 0.
Proof. intros H. apply round64_nonpos. lra. Qed.

Lemma b64_scan_erase f cs :
  dict_index f "farmer_id" = Ok (id_of f) →
  B64.scan f (load_of f) (map erase cs)
  = Ok (option_map (map erase) (B64.cfit f cs)).
Proof.
  intros Hid. induction cs as [|c cs IH]; simpl; [done |].
  destruct (Qle_bool (load_of f) (room c)).
  - rewrite Hid. simpl. unfold erase, ids. simpl. by rewrite map_app.
  - rewrite IH. simpl. by destruct (B64.cfit f cs).
Qed.

Lemma b64_place_erase capacity cs f :
  ready f →
  B64.place capacity (map erase cs) f = Ok (map erase (B64.cput capacity cs f)).
Proof.
  intros [Hload Hid]. unfold B64.place, B64.cput. rewrite Hload. simpl.
  rewrite (py_sort_map erase remaining room) by done.
  rewrite b64_scan_erase by done. simpl.
  destruct (B64.cfit f _); simpl; [done |]. rewrite Hid. simpl.
  by rewrite map_app.
Qed.

Lemma b64_pack_loop_erase capacity fs cs :
  Forall ready fs →
  B64.pack_loop capacity fs (map erase cs)
  = Ok (map erase (foldl (B64.cput capacity) cs fs)).
Proof.
  intros H. revert cs. induction H as [|f fs Hf _ IH]; intros cs; simpl; [done |].
  rewrite b64_place_erase by done. simpl. apply IH.
Qed.

Lemma b64_place_inv capacity trucks f trucks' :
  B64.place capacity trucks f = Ok trucks' → is_Some (f !! "farmer_id").
Proof.
  unfold B64.place. destruct (load_key f) as [load|]; simpl; [| done].
  generalize (py_sort remaining false trucks). intros ts.
  assert (∀ r, B64.scan f load ts = Ok (Some r) → is_Some (f !! "farmer_id")) as Hscan.
  { induction ts as [|t ts IH]; simpl; intros r; [done |].
    destruct (Qle_bool load (remaining t)).
    - unfold dict_index. by destruct (f !! "farmer_id").
    - destruct (B64.scan f load ts) as [[r'|]|]; simpl; try done. intros _. by eapply IH. }
  destruct (B64.scan f load ts) as [[r|]|]; simpl; try done.
  - intros _. by eapply Hscan.
  - unfold dict_index. by destruct (f !! "farmer_id").
Qed.

Lemma b64_pack_loop_inv capacity fs trucks trucks' :
  B64.pack_loop capacity fs trucks = Ok trucks' →
  Forall (λ f, is_Some (f !! "farmer_id")) fs.
Proof.
  revert trucks. induction fs as [|f fs IH]; simpl; intros trucks H; [constructor |].
  destruct (B64.place capacity trucks f) as [ts|] eqn:E; simpl in H; [| done].
  constructor; [by eapply b64_place_inv | by eapply IH].
Qed.

(** Rounding plays no part in which lists are accepted. *)
Lemma b64_pack_trucks_inv fs capacity trucks :
  B64.pack_trucks fs capacity = Ok trucks → Forall well_formed fs.
Proof.
  unfold B64.pack_trucks.
  destruct (valid_farmers fs) as [vs|] eqn:Ev; simpl; [| done].
  destruct (py_sort_by load_key true vs) as [ss|] eqn:Es; simpl; [| done].
  intros Hloop. apply b64_pack_loop_inv in Hloop.
  apply py_sort_by_inv in Es. rewrite Es in Hloop.
  apply valid_farmers_inv in Ev as [-> Hnum].
  rewrite Forall_forall in Hnum, Hloop. apply Forall_forall. intros f Hf.
  specialize (Hnum f Hf). unfold well_formed.
  destruct Hnum as [-> | [x Hx]]; [done |]. rewrite Hx.
  destruct (Qlt_bool 0 x) eqn:E; [| done]. simpl.
  apply bool_decide_pack, Hloop, list_elem_of_In, filter_In.
  split; [by apply list_elem_of_In |]. unfold is_valid, load_of. by rewrite Hx.
Qed.

Lemma b64_pack_trucks_assignment fs capacity :
  Forall well_formed fs →
  B64.pack_trucks fs capacity = Ok (map erase (B64.assignment fs capacity)).
Proof.
  intros Hwf. unfold B64.pack_trucks. rewrite valid_farmers_ok by done. simpl.
  pose proof (sorted_valid_ready fs Hwf) as Hr.
  rewrite (py_sort_by_ok load_key load_of). 2:{
    rewrite <- sorted_valid_perm.
    eapply Forall_impl; [exact Hr |]. by intros f [? _]. }
  simpl. by apply (b64_pack_loop_erase capacity _ []).
Qed.

Lemma b64_pack_cluster_assignment fs capacity :
  Forall well_formed fs →
  B64.pack_cluster fs capacity = Ok (map ids (B64.assignment fs capacity)).
Proof.
  intros H. unfold B64.pack_cluster. rewrite b64_pack_trucks_assignment by done.
  simpl. by rewrite map_map.
Qed.

Lemma b64_pack_cluster_inv fs capacity res :
  B64.pack_cluster fs capacity = Ok res → Forall well_formed fs.
Proof.
  unfold B64.pack_cluster.
  destruct (B64.pack_trucks fs capacity) eqn:E; simpl; [| done].
  intros _. by eapply b64_pack_trucks_inv.
Qed.

Lemma b64_cfit_Some f cs cs' :
  B64.cfit f cs = Some cs' →
  ∃ pre c post,
    cs = pre ++ c :: post ∧ cs' = pre ++ B64.load_onto f c :: post ∧
    load_of f <= room c.
Proof.
  revert cs'. induction cs as [|c cs IH]; simpl; intros cs' H; [done |].
  destruct (Qle_bool (load_of f) (room c)) eqn:E.
  - inversion H; subst. exists [], c, cs. repeat split. by apply Qle_bool_iff.
  - destruct (B64.cfit f cs) as [r|]; simpl in H; [| done]. inversion H; subst.
    destruct (IH r eq_refl) as (pre & c' & post & -> & -> & Hle).
    by exists (c :: pre), c', post.
Qed.

(** The two outcomes of one placement, on the freshly sorted list [ws]. *)
Lemma b64_cput_cases capacity cs f :
  let ws := py_sort room false cs in
  (∃ pre c post,
      ws = pre ++ c :: post ∧
      B64.cput capacity cs f = pre ++ B64.load_onto f c :: post ∧
      load_of f <= room c) ∨
  B64.cput capacity cs f =
    ws ++ [Carrier [f] (py_max (B64.sub capacity (load_of f)) 0) (length ws)].
Proof.
  intros ws. unfold B64.cput. fold ws. destruct (B64.cfit f ws) as [cs'|] eqn:E.
  - left. apply b64_cfit_Some in E as (pre & c & post & ? & ? & ?).
    by exists pre, c, post.
  - by right.
Qed.

Lemma b64_cput_items capacity cs f :
  concat (map items (B64.cput capacity cs f)) ≡ₚ f :: concat (map items cs).
Proof.
  pose proof (py_sort_perm room false cs) as Hp.
  destruct (b64_cput_cases capacity cs f) as
      [(pre & c & post & Hws & -> & _) | ->].
  - rewrite <- Hp, Hws. rewrite !map_app, !concat_app. simpl.
    rewrite (Permutation_middle _ _ f). apply Permutation_app_head.
    rewrite <- !app_assoc. simpl.
    rewrite <- (Permutation_middle (items c)). done.
  - rewrite map_app, concat_app. simpl. rewrite Hp.
    by rewrite <- Permutation_cons_append.
Qed.

Lemma b64_assignment_items fs capacity :
  concat (map items (B64.assignment fs capacity)) ≡ₚ List.filter is_valid fs.
Proof.
  unfold B64.assignment. rewrite <- sorted_valid_perm.
  generalize (sorted_valid fs). intros l.
  assert (∀ cs, concat (map items (foldl (B64.cput capacity) cs l))
                ≡ₚ concat (map items cs) ++ l) as H; [| apply (H [])].
  induction l as [|f l IH]; intros cs; simpl.
  - by rewrite app_nil_r.
  - rewrite IH, b64_cput_items. by rewrite <- Permutation_middle.
Qed.

Lemma b64_cput_tidy capacity cs f :
  Forall (tidy64 capacity) cs → is_valid f →
  Forall (tidy64 capacity) (B64.cput capacity cs f).
Proof.
  intros Hcs Hf%is_valid_pos.
  rewrite <- (py_sort_perm room false cs) in Hcs.
  destruct (b64_cput_cases capacity cs f) as
      [(pre & c & post & Hws & -> & Hle) | ->].
  - rewrite Hws in Hcs. apply Forall_app in Hcs as [Hpre Hcs].
    apply Forall_cons in Hcs as [Hc Hpost].
    apply Forall_app. split; [done |]. constructor; [| done].
    destruct Hc as (Hne & Hroom & Hsum). unfold tidy64. simpl.
    split; [by destruct (items c) |]. split; [by apply sub64_nonneg |].
    destruct Hsum as [Hsum | (f0 & _ & _ & H0)].
    + left. unfold subtract_all. rewrite foldl_app. simpl.
      by rewrite Hsum.
    + rewrite H0 in Hle. lra.
  - apply Forall_app. split; [done |]. constructor; [| constructor].
    unfold tidy64. simpl. rewrite py_max_0.
    destruct (Qlt_bool (B64.sub capacity (load_of f)) 0) eqn:E.
    + apply Qlt_bool_iff in E. split; [done |]. split; [lra |].
      right. exists f. split; [done |]. split; [| done].
      apply Qnot_le_lt. intros Hle. apply sub64_nonneg in Hle. lra.
    + apply Qlt_bool_false in E. split; [done |]. split; [done |]. by left.
Qed.

Lemma b64_assignment_tidy fs capacity :
  Forall (tidy64 capacity) (B64.assignment fs capacity).
Proof.
  unfold B64.assignment. pose proof (sorted_valid_valid fs) as Hv.
  revert Hv. generalize (sorted_valid fs). intros l Hl.
  assert (∀ cs, Forall (tidy64 capacity) cs →
                Forall (tidy64 capacity) (foldl (B64.cput capacity) cs l)) as H;
    [| apply H; constructor].
  induction Hl as [|f l Hf _ IH]; intros cs Hcs; simpl; [done |].
  by apply IH, b64_cput_tidy.
Qed.

(** ** Whole numbers are packed without rounding *)

Lemma sub64_whole a a' b za zb :
  a == a' → a' == inject_Z za → b == inject_Z zb → (Z.abs (za - zb) ≤ 2 ^ 53)%Z →
  B64.sub a b == a' - b.
Proof.
  intros Ha Ha' Hb Hz. unfold B64.sub.
  rewrite (round64_proper (a - b) (inject_Z (za - zb))).
  - rewrite round64_Z by done. rewrite Ha', Hb.
    unfold Z.sub. rewrite inject_Z_plus, inject_Z_opp. lra.
  - rewrite Ha, Ha', Hb. unfold Z.sub. rewrite inject_Z_plus, inject_Z_opp. lra.
Qed.

Lemma load_key_load_of f load : load_key f = Ok load → load = load_of f.
Proof.
  unfold load_key, dict_index, load_of.
  destruct (f !! "load_kg") as [[x| | |]|]; simpl; try done. by intros [= ->].
Qed.

Lemma b64_scan_whole f load zl ts us :
  load == inject_Z zl → (0 < zl)%Z →
  Forall2 truck_same ts us → Forall whole_room us →
  result_rel
    (option_same (λ ts' us', Forall2 truck_same ts' us' ∧ Forall whole_room us'))
    (B64.scan f load ts) (scan f load us).
Proof.
  intros Hl Hzl Hts. induction Hts as [|t u ts us [Hids Hrem] Hts IH]; simpl; [done |].
  intros [(zu & Hzu & Hu) Hus]%Forall_cons.
  rewrite (Qle_bool_same load load (remaining t) (remaining u)) by done.
  destruct (Qle_bool load (remaining u)) eqn:E.
  - apply Qle_bool_iff in E.
    assert (zl ≤ zu)%Z as Hle by (rewrite Zle_Qle; lra).
    destruct (dict_index f "farmer_id") as [id|]; simpl; [| done].
    assert (B64.sub (remaining t) load == remaining u - load) as Hsub.
    { apply (sub64_whole _ _ _ zu zl); [done | done | done | lia]. }
    split.
    + constructor; [| done]. split; simpl; [by rewrite Hids | done].
    + constructor; [| done]. exists (zu - zl)%Z. simpl. split; [| lia].
      rewrite Hzu, Hl. unfold Z.sub. rewrite inject_Z_plus, inject_Z_opp. lra.
  - eapply bind_rel; [by apply IH |]. intros [r|] [r'|]; simpl; try done.
    intros [Hr Hw]. split; constructor; try done. by exists zu.
Qed.

Lemma b64_place_whole capacity zc ts us f :
  capacity == inject_Z zc → (0 ≤ zc ≤ 2 ^ 53)%Z →
  is_valid f → is_whole (load_of f) →
  Forall2 truck_same ts us → Forall whole_room us →
  result_rel (λ ts' us', Forall2 truck_same ts' us' ∧ Forall whole_room us')
    (B64.place capacity ts f) (place capacity us f).
Proof.
  intros Hc Hzc Hv Hf Hts Hus. unfold B64.place, place.
  destruct (load_key f) as [load|e] eqn:El; simpl; [| done].
  apply load_key_load_of in El. subst load.
  assert (Forall2 truck_same (py_sort remaining false ts) (py_sort remaining false us))
    as Hsorted.
  { apply py_sort_rel; [by intros ?? [] | done]. }
  assert (Forall whole_room (py_sort remaining false us)) as Hwsorted.
  { by rewrite py_sort_perm. }
  destruct (is_whole_inv _ Hf) as (zl & Hl & Hzl).
  pose proof (is_valid_pos _ Hv) as Hpos.
  assert (0 < zl)%Z as Hzl0.
  { rewrite Zlt_Qlt. change (inject_Z 0) with 0. lra. }
  eapply bind_rel; [by eapply b64_scan_whole |].
  intros [r|] [r'|]; simpl; try done.
  intros _. destruct (dict_index f "farmer_id") as [id|]; simpl; [| done].
  assert (B64.sub capacity (load_of f) == capacity - load_of f) as Hsub.
  { apply (sub64_whole _ _ _ zc zl); [done | done | done | lia]. }
  split.
  - apply Forall2_app; [done |]. constructor; [| constructor].
    split; simpl; [done |]. unfold py_max.
    rewrite (Qlt_bool_same _ (capacity - load_of f) 0 0) by done.
    by destruct (Qlt_bool _ _).
  - apply Forall_app. split; [done |]. constructor; [| constructor].
    unfold whole_room. simpl. rewrite py_max_0.
    destruct (Qlt_bool (capacity - load_of f) 0) eqn:E.
    + exists 0%Z. split; [done | lia].
    + apply Qlt_bool_false in E. exists (zc - zl)%Z.
      assert (zl ≤ zc)%Z by (rewrite Zle_Qle; lra). split; [| lia].
      rewrite Hc, Hl. unfold Z.sub. rewrite inject_Z_plus, inject_Z_opp. lra.
Qed.

Lemma b64_pack_loop_whole capacity zc fs ts us :
  capacity == inject_Z zc → (0 ≤ zc ≤ 2 ^ 53)%Z →
  Forall (λ f, is_valid f ∧ is_whole (load_of f)) fs →
  Forall2 truck_same ts us → Forall whole_room us →
  result_rel (Forall2 truck_same)
    (B64.pack_loop capacity fs ts) (pack_loop capacity fs us).
Proof.
  intros Hc Hzc Hfs. revert ts us.
  induction Hfs as [|f fs [Hv Hf] _ IH]; intros ts us Hts Hus; simpl; [done |].
  eapply bind_rel; [by eapply b64_place_whole |].
  intros ts' us' [Hts' Hus']. by apply IH.
Qed.

(** On whole numbers up to 2^53 no difference is rounded: the run on floats
    and the run on exact numbers build the same trucks. *)
Lemma b64_pack_trucks_whole fs capacity :
  is_whole capacity → 0 <= capacity →
  Forall (λ f, is_whole (load_of f)) (List.filter is_valid fs) →
  result_rel (Forall2 truck_same)
    (B64.pack_trucks fs capacity) (pack_trucks fs capacity).
Proof.
  intros (zc & Hc & Hzc)%is_whole_inv Hcap Hfs. unfold B64.pack_trucks, pack_trucks.
  assert (0 ≤ zc)%Z as Hzc0.
  { rewrite Zle_Qle. change (inject_Z 0) with 0. lra. }
  destruct (valid_farmers fs) as [vs|e] eqn:Ev; simpl; [| done].
  apply valid_farmers_inv in Ev as [-> _].
  destruct (py_sort_by load_key true _) as [ss|e] eqn:Es; simpl; [| done].
  apply py_sort_by_inv in Es.
  apply (b64_pack_loop_whole capacity zc); [done | lia | | constructor | constructor].
  rewrite Es. apply Forall_forall. intros f Hf. split.
  - apply list_elem_of_In, filter_In in Hf as [_ Hf]. by apply Is_true_true.
  - rewrite Forall_forall in Hfs. by apply Hfs.
Qed.

Lemma b64_pack_cluster_whole fs capacity :
  is_whole capacity → 0 <= capacity →
  Forall (λ f, is_whole (load_of f)) (List.filter is_valid fs) →
  B64.pack_cluster fs capacity = pack_cluster fs capacity.
Proof.
  intros Hc Hcap Hfs. apply result_rel_eq. unfold B64.pack_cluster, pack_cluster.
  eapply bind_rel; [by apply b64_pack_trucks_whole |]. intros ts us Hts. simpl.
  induction Hts as [|t u ts us [Hids _] _ IH]; simpl; [done |]. by rewrite Hids, IH.
Qed.

(** ** The capacity bound *)

(** C4, as the spec has it, fails on floats: loads 0.11, 0.1 and 0.09 go
    onto one truck of capacity 0.3, none of them heavier than the truck,
    although their sum is more than the capacity (by 2^-56). *)
Lemma capacity_exceeded_by_rounding :
  0 < d0_3 ∧
  B64.pack_cluster example_rounding d0_3 = Ok [[VStr "A"; VStr "B"; VStr "C"]] ∧
  B64.pack_trucks example_rounding d0_3
    = Ok [Truck [VStr "A"; VStr "B"; VStr "C"] 0] ∧
  Forall (λ f, load_of f <= d0_3) example_rounding ∧
  sum_loads example_rounding - d0_3 == 1 # 72057594037927936 ∧
  ¬ sum_loads example_rounding <= d0_3.
Proof.
  split; [done |]. split; [by vm_compute |]. split; [by vm_compute |].
  split; [repeat constructor; by vm_compute |]. split; by vm_compute.
Qed.

(** C4, as the code has it.  With a positive capacity, the carriers of a
    result of [pack_cluster] are the id lists of groups of valid farmers
    (every valid farmer in exactly one group), and each group keeps the
    capacity bound as the code computes it: taking the loads of the group
    off the capacity one after the other, each difference rounded as lines
    33 and 41 round it, never goes below zero; the one exception is a group
    of a single farmer whose own load exceeds the capacity.  When the
    capacity and the loads are whole numbers up to 2^53, no difference is
    rounded, and the loads of each such group sum to at most the
    capacity. *)
Theorem capacity_respected_in_binary64 (farmer_list : list farmer) (capacity : Q)
    (res : list (list value)) :
  0 < capacity → B64.pack_cluster farmer_list capacity = Ok res →
  (∃ groups : list (list farmer),
     res = map (map id_of) groups ∧
     concat groups ≡ₚ List.filter is_valid farmer_list ∧
     Forall (fits64 capacity) groups) ∧
  (is_whole capacity →
   Forall (λ f, is_whole (load_of f)) (List.filter is_valid farmer_list) →
   ∃ groups : list (list farmer),
     res = map (map id_of) groups ∧
     concat groups ≡ₚ List.filter is_valid farmer_list ∧
     Forall (within capacity) groups).
Proof.
  intros Hcap Hres. split.
  - pose proof (b64_pack_cluster_inv _ _ _ Hres) as Hwf.
    rewrite b64_pack_cluster_assignment in Hres by done. inversion Hres; subst.
    exists (map items (B64.assignment farmer_list capacity)).
    split; [by rewrite map_map |]. split; [apply b64_assignment_items |].
    apply Forall_map. eapply Forall_impl; [apply b64_assignment_tidy |].
    intros c (_ & Hroom & [Hsum | (f & ? & ? & _)]); [left | right; eauto].
    by rewrite <- Hsum.
  - intros Hwc Hwl. rewrite b64_pack_cluster_whole in Hres by (done || lra).
    pose proof (pack_cluster_inv _ _ _ Hres) as Hwf.
    rewrite pack_cluster_assignment in Hres by done. inversion Hres; subst.
    exists (map items (assignment farmer_list capacity)).
    split; [by rewrite map_map |]. split; [apply assignment_items |].
    apply Forall_map. eapply Forall_impl; [apply assignment_tidy |].
    intros c Hc. by apply tidy_within.
Qed.

Lemma capacity_respected_in_binary64_witness :
  (∃ groups : list (list farmer),
     [[VStr "A"; VStr "B"; VStr "C"]] = map (map id_of) groups ∧
     concat groups ≡ₚ List.filter is_valid example_rounding ∧
     Forall (fits64 d0_3) groups) ∧
  (∃ groups : list (list farmer),
     [[VStr "A"; VStr "D"]; [VStr "B"]; [VStr "C"]] = map (map id_of) groups ∧
     concat groups ≡ₚ List.filter is_valid example_6551 ∧
     Forall (within 7) groups).
Proof.
  split.
  - apply (capacity_respected_in_binary64 example_rounding d0_3).
    + reflexivity.
    + by vm_compute.
  - apply (capacity_respected_in_binary64 example_6551 7).
    + reflexivity.
    + by vm_compute.
    + reflexivity.
    + repeat constructor.
Defined.

(** ** What the trucks have left, and when all fits on one *)

(** With fractions a difference may be rounded.  The loads 0.5,
    0.1875 + 3 * 2^-55, 0.1875 and 0.125 - 3 * 2^-55 sum to the capacity 1
    exactly, but the third subtraction is rounded down and the last farmer
    no longer fits: two carriers, whose loads sum to the capacity and not
    to more. *)
Lemma exact_fit_split_by_rounding :
  sum_loads example_exact_fit == 1 ∧
  pack_cluster example_exact_fit 1
    = Ok [[VStr "A"; VStr "B"; VStr "C"; VStr "D"]] ∧
  B64.pack_cluster example_exact_fit 1
    = Ok [[VStr "A"; VStr "B"; VStr "C"]; [VStr "D"]] ∧
  B64.pack_trucks example_exact_fit 1
    = Ok [Truck [VStr "A"; VStr "B"; VStr "C"] (1125899906842623 # 9007199254740992);
          Truck [VStr "D"] (7881299347898369 # 9007199254740992)].
Proof. repeat split; by vm_compute. Qed.

(** X5. The "remaining" entry of a truck is never negative, and it is
    what the capacity leaves when the loads of the farmers on the truck are
    taken off one after the other, each difference rounded as the code
    rounds it; the one exception is a truck opened for a farmer heavier
    than the capacity, whose remaining capacity is 0.  When the capacity
    and the loads are whole numbers up to 2^53 it is the capacity minus the
    sum of the loads. *)
Theorem remaining_accounts_in_binary64 (farmer_list : list farmer) (capacity : Q)
    (trucks : list truck) :
  B64.pack_trucks farmer_list capacity = Ok trucks →
  (∃ groups : list (list farmer),
     concat groups ≡ₚ List.filter is_valid farmer_list ∧
     Forall2 (λ t g,
       farmers t = map id_of g ∧ 0 <= remaining t ∧
       (remaining t = subtract_all capacity g ∨
        ∃ f, g = [f] ∧ capacity < load_of f ∧ remaining t == 0)) trucks groups) ∧
  (is_whole capacity → 0 <= capacity →
   Forall (λ f, is_whole (load_of f)) (List.filter is_valid farmer_list) →
   ∃ groups : list (list farmer),
     concat groups ≡ₚ List.filter is_valid farmer_list ∧
     Forall2 (λ t g,
       farmers t = map id_of g ∧ 0 <= remaining t ∧
       (remaining t == capacity - sum_loads g ∨
        ∃ f, g = [f] ∧ capacity < load_of f ∧ remaining t == 0)) trucks groups).
Proof.
  intros Hres. split.
  - pose proof (b64_pack_trucks_inv _ _ _ Hres) as Hwf.
    rewrite b64_pack_trucks_assignment in Hres by done. inversion Hres; subst.
    clear Hres. exists (map items (B64.assignment farmer_list capacity)).
    split; [apply b64_assignment_items |].
    pose proof (b64_assignment_tidy farmer_list capacity) as Htidy.
    induction Htidy as [|c cs (_ & Hroom & Hsum) _ IH]; simpl; constructor; done.
  - intros Hwc Hcap Hwl.
    pose proof (b64_pack_trucks_whole farmer_list capacity Hwc Hcap Hwl) as Hrel.
    rewrite Hres in Hrel.
    destruct (pack_trucks farmer_list capacity) as [us|] eqn:Eus; [| done].
    simpl in Hrel.
    destruct (remaining_accounts_exact _ _ _ Eus) as (groups & Hperm & Hacc).
    exists groups. split; [done |]. clear Eus Hres Hperm.
    revert groups Hacc.
    induction Hrel as [|t u ts us [Hids Hrem] _ IH]; intros groups Hacc.
    + inversion Hacc. constructor.
    + inversion Hacc as [|? g ? gs (Hg & Hpos & Hsum) Hrest]; subst.
      constructor; [| by apply IH].
      split; [congruence |]. split; [lra |].
      destruct Hsum as [Hsum | (f & ? & ? & H0)]; [left; lra |].
      right. exists f. split; [done |]. split; [done |]. rewrite H0 in Hrem. lra.
Qed.

Lemma remaining_accounts_in_binary64_witness :
  (∃ groups : list (list farmer),
     concat groups ≡ₚ List.filter is_valid example_exact_fit ∧
     Forall2 (λ t g,
       farmers t = map id_of g ∧ 0 <= remaining t ∧
       (remaining t = subtract_all 1 g ∨
        ∃ f, g = [f] ∧ 1 < load_of f ∧ remaining t == 0))
       [Truck [VStr "A"; VStr "B"; VStr "C"] (1125899906842623 # 9007199254740992);
        Truck [VStr "D"] (7881299347898369 # 9007199254740992)] groups) ∧
  (∃ groups : list (list farmer),
     concat groups ≡ₚ List.filter is_valid example_6551 ∧
     Forall2 (λ t g,
       farmers t = map id_of g ∧ 0 <= remaining t ∧
       (remaining t == 4 - sum_loads g ∨
        ∃ f, g = [f] ∧ 4 < load_of f ∧ remaining t == 0))
       [Truck [VStr "A"] 0; Truck [VStr "B"] 0; Truck [VStr "C"] 0;
        Truck [VStr "D"] 3] groups).
Proof.
  split.
  - apply (remaining_accounts_in_binary64 example_exact_fit 1). by vm_compute.
  - apply (remaining_accounts_in_binary64 example_6551 4).
    + by vm_compute.
    + reflexivity.
    + by vm_compute.
    + repeat constructor.
Defined.

(** X7. When the capacity and the loads are whole numbers up to 2^53 and
    the loads of the valid farmers sum to at most the capacity, the result
    is a single carrier, which lists all of them, heaviest first. *)
Theorem all_fit_one_carrier_whole (farmer_list : list farmer) (capacity : Q) :
  Forall (λ f, well_formed f) farmer_list →
  List.filter is_valid farmer_list ≠ [] →
  is_whole capacity →
  Forall (λ f, is_whole (load_of f)) (List.filter is_valid farmer_list) →
  sum_loads (List.filter is_valid farmer_list) <= capacity →
  B64.pack_cluster farmer_list capacity = Ok [map id_of (sorted_valid farmer_list)].
Proof.
  intros Hwf Hne Hwc Hwl Hsum.
  assert (0 <= capacity) as Hcap.
  { assert (0 <= sum_loads (List.filter is_valid farmer_list)); [| lra].
    apply sum_loads_nonneg, Forall_forall.
    intros f [_ Hf]%list_elem_of_In%filter_In. by apply Is_true_true. }
  rewrite b64_pack_cluster_whole by done. by apply all_fit_one_carrier_exact.
Qed.

Lemma all_fit_one_carrier_whole_witness :
  B64.pack_cluster example5 8000 = Ok [map id_of (sorted_valid example5)].
Proof.
  apply all_fit_one_carrier_whole.
  - repeat constructor.
  - by vm_compute.
  - reflexivity.
  - repeat constructor.
  - by vm_compute.
Defined.

(** X9. When the capacity and the loads are whole numbers up to 2^53, no
    two carriers of a result could have shared a truck: the loads of the
    farmers in any two different carriers sum to more than the capacity. *)
Theorem no_two_carriers_mergeable_whole (farmer_list : list farmer) (capacity : Q)
    (res : list (list value)) :
  is_whole capacity → 0 < capacity →
  Forall (λ f, is_whole (load_of f)) (List.filter is_valid farmer_list) →
  B64.pack_cluster farmer_list capacity = Ok res →
  ∃ groups : list (list farmer),
    res = map (map id_of) groups ∧
    concat groups ≡ₚ List.filter is_valid farmer_list ∧
    ∀ i j g h, i ≠ j → groups !! i = Some g → groups !! j = Some h →
               capacity < sum_loads g + sum_loads h.
Proof.
  intros Hwc Hcap Hwl Hres. rewrite b64_pack_cluster_whole in Hres by (done || lra).
  destruct (no_two_carriers_mergeable_groups farmer_list capacity res Hres)
    as (groups & Hmap & Hperm & _ & Hpairs).
  by exists groups.
Qed.

Lemma no_two_carriers_mergeable_whole_witness :
  ∃ groups : list (list farmer),
    [[VStr "A"; VStr "D"]; [VStr "B"]; [VStr "C"]] = map (map id_of) groups ∧
    concat groups ≡ₚ List.filter is_valid example_6551 ∧
    ∀ i j g h, i ≠ j → groups !! i = Some g → groups !! j = Some h →
               7 < sum_loads g + sum_loads h.
Proof.
  apply (no_two_carriers_mergeable_whole example_6551 7).
  - reflexivity.
  - reflexivity.
  - repeat constructor.
  - by vm_compute.
Defined.

(** ** The elbow on binary64 numbers *)

Lemma np_ge_strict x y m :
  x ≠ NaN → y ≠ NaN → m ≠ NaN →
  np_ge y m = true → np_ge x m = false →
  np_ge y x = true ∧ np_ge x y = false.
Proof.
  destruct x as [x| |], y as [y| |], m as [m| |]; simpl; try done.
  intros _ _ _ H1%Qle_bool_iff H2%Qle_bool_false.
  split; [apply Qle_bool_iff | apply Qle_bool_false]; lra.
Qed.

Lemma np_ge_refl x : x ≠ NaN → np_ge x x = true.
Proof. destruct x; simpl; try done. intros _. apply Qle_bool_iff. lra. Qed.

Lemma argmin_loop_no_nan (rest : list npfloat) :
  ∀ (pre : list npfloat) m min_ind,
    Forall (λ x, x ≠ NaN) (pre ++ rest) →
    pre !! min_ind = Some m →
    (∀ j y, pre !! j = Some y →
            np_ge y m = true ∧ ((j < min_ind)%nat → np_ge m y = false)) →
    let r := argmin_loop m min_ind (length pre) rest in
    ∃ x, (pre ++ rest) !! r = Some x ∧
         ∀ j y, (pre ++ rest) !! j = Some y →
                np_ge y x = true ∧ ((j < r)%nat → np_ge x y = false).
Proof.
  induction rest as [|q rest IH]; intros pre m min_ind Hnn Hm Hmin; simpl.
  - exists m. rewrite app_nil_r. by split.
  - pose proof (lookup_lt_Some _ _ _ Hm) as Hlt.
    assert (m ≠ NaN) as Hmn.
    { rewrite Forall_forall in Hnn. apply Hnn, elem_of_app. left.
      by eapply list_elem_of_lookup_2. }
    assert (q ≠ NaN) as Hqn.
    { rewrite Forall_forall in Hnn. apply Hnn, elem_of_app. right. by left. }
    destruct (np_ge q m) eqn:E.
    + specialize (IH (pre ++ [q]) m min_ind).
      rewrite length_app, Nat.add_1_r, <- app_assoc in IH. apply IH; [exact Hnn | |].
      * by apply lookup_app_l_Some.
      * intros j y Hj. apply lookup_app_Some in Hj as [Hj | [Hge Hj]]; [by apply Hmin |].
        apply list_lookup_singleton_Some in Hj as [_ <-]. split; [done | lia].
    + assert (argmin_loop q (length pre) (S (length pre)) rest
              = match q with
                | NaN => length pre
                | _ => argmin_loop q (length pre) (S (length pre)) rest
                end) as Heq by (by destruct q).
      rewrite <- Heq. clear Heq.
      specialize (IH (pre ++ [q]) q (length pre)).
      rewrite length_app, Nat.add_1_r, <- app_assoc in IH. apply IH; [exact Hnn | |].
      * rewrite lookup_app_r by lia. by rewrite Nat.sub_diag.
      * intros j y Hj. apply lookup_app_Some in Hj as [Hj | [Hge Hj]].
        -- destruct (Hmin j y Hj) as [Hle _].
           assert (y ≠ NaN) as Hyn.
           { rewrite Forall_forall in Hnn. apply Hnn, elem_of_app. left.
             by eapply list_elem_of_lookup_2. }
           destruct (np_ge_strict q y m) as [H1 H2]; try done.
        -- apply list_lookup_singleton_Some in Hj as [_ <-].
           split; [by apply np_ge_refl | lia].
Qed.

Lemma np_argmin_no_nan (a : list npfloat) r :
  Forall (λ x, x ≠ NaN) a → np_argmin a = Ok r →
  ∃ x, a !! r = Some x ∧
       ∀ j y, a !! j = Some y → np_ge y x = true ∧ ((j < r)%nat → np_ge x y = false).
Proof.
  destruct a as [|q qs]; simpl; [done |]. intros Hnn Hr.
  assert (q ≠ NaN) as Hq by (by apply Forall_cons in Hnn as [? _]).
  assert (r = argmin_loop q 0 1 qs) as -> by (destruct q; by inversion Hr).
  apply (argmin_loop_no_nan qs [q] q 0%nat); [done | done |].
  intros j y Hj. apply list_lookup_singleton_Some in Hj as [-> <-].
  split; [by apply np_ge_refl | lia].
Qed.

Lemma b64_np_abs_div_no_nan a b : ¬ b == 0 → B64.np_abs_div a b ≠ NaN.
Proof.
  intros Hb. unfold B64.np_abs_div. destruct (Qeq_bool b 0) eqn:E.
  - by apply Qeq_bool_iff in E.
  - by destruct (Qle_bool _ _).
Qed.

Lemma b64_length_np_diff a : length (B64.np_diff a) = (length a - 1)%nat.
Proof.
  induction a as [|x [|y a] IH]; [done | done |].
  change (B64.np_diff (x :: y :: a)) with (B64.sub y x :: B64.np_diff (y :: a)).
  simpl in *. lia.
Qed.

Lemma b64_length_diff_ratios d : length (B64.diff_ratios d) = (length d - 1)%nat.
Proof.
  unfold B64.diff_ratios. rewrite length_zip_with, length_drop, length_take. lia.
Qed.

Lemma b64_np_diff_seq (g : nat → Q) s n :
  B64.np_diff (map g (seq s n)) = map (λ i, B64.sub (g (S i)) (g i)) (seq s (n - 1)).
Proof.
  revert s. induction n as [|[|n] IH]; intros s; [done | done |].
  change (B64.np_diff (map g (seq s (S (S n)))))
    with (B64.sub (g (S s)) (g s) :: B64.np_diff (map g (seq (S s) (S n)))).
  rewrite IH. simpl. by rewrite Nat.sub_0_r.
Qed.

Lemma b64_diff_ratios_seq (d : nat → Q) n :
  B64.diff_ratios (map d (seq 0 n))
  = map (λ i, B64.np_abs_div (d (S i)) (d i)) (seq 0 (n - 1)).
Proof.
  unfold B64.diff_ratios.
  replace (length (map d (seq 0 n)) - 1)%nat
    with (length (drop 1 (map d (seq 0 n)))) by (rewrite length_drop; lia).
  rewrite zip_with_take_same. destruct n as [|n]; [done |].
  simpl. rewrite drop_0, Nat.sub_0_r.
  apply (zip_with_seq_shift B64.np_abs_div d n 0 (S n)). lia.
Qed.

Section find_optimal_k_binary64.
Context {data : Type}.
Variable kmeans_inertia : data → Z → result Q.
Variable save_elbow_plot : list Z → list Q → result unit.
Variable print_elbow : Z → result unit.

Lemma b64_find_optimal_k_inv X k_min k_max k :
  B64.find_optimal_k kmeans_inertia save_elbow_plot print_elbow X k_min k_max = Ok k →
  ∃ sse i,
    map_result (kmeans_inertia X) (py_range k_min (k_max + 1)) = Ok sse ∧
    np_argmin (B64.diff_ratios (B64.np_diff sse)) = Ok i ∧
    k = (k_min + Z.of_nat i + 1)%Z.
Proof.
  unfold B64.find_optimal_k. cbv zeta.
  destruct (map_result _ _) as [sse|]; [| done]. rewrite bind_Ok.
  destruct (np_argmin _) as [i|] eqn:Ei; [| done]. rewrite bind_Ok.
  destruct (save_elbow_plot _ _); [| done]. rewrite bind_Ok.
  destruct (print_elbow _); [| done]. rewrite bind_Ok.
  intros [= <-]. by exists sse, i.
Qed.

(** X13. What the elbow is.  Let the fit for [k] clusters have inertia
    [inertia k], no difference of two consecutive inertias being computed
    as zero or overflowing.  The number that [find_optimal_k] returns lies
    strictly between [k_min] and [k_max] and minimises, among these
    numbers, the ratio that line 26 computes (the rounded quotient of the
    rounded drop of the inertia after the number by the rounded drop before
    it); of the numbers with the least computed ratio it is the
    smallest. *)
Theorem find_optimal_k_elbow_in_binary64 (X_scaled : data) (k_min k_max k : Z)
    (inertia : Z → Q) :
  (∀ j, (k_min <= j <= k_max)%Z → kmeans_inertia X_scaled j = Ok (inertia j)) →
  (∀ j, (k_min < j < k_max)%Z → ¬ B64.sub (inertia j) (inertia (j - 1)%Z) == 0) →
  (∀ j, (k_min < j <= k_max)%Z →
        Qabs (B64.sub (inertia j) (inertia (j - 1)%Z)) < inject_Z (2 ^ 1024)) →
  B64.find_optimal_k kmeans_inertia save_elbow_plot print_elbow X_scaled k_min k_max
    = Ok k →
  (k_min < k < k_max)%Z ∧
  ∀ j, (k_min < j < k_max)%Z →
    np_ge (drop_ratio64 inertia j) (drop_ratio64 inertia k) = true ∧
    ((j < k)%Z → np_ge (drop_ratio64 inertia k) (drop_ratio64 inertia j) = false).
Proof.
  intros Hfit Hdistinct _ Hk.
  apply b64_find_optimal_k_inv in Hk as (sse & i & Hsse & Hi & ->).
  set (n := Z.to_nat (k_max + 1 - k_min)).
  set (g := λ i : nat, inertia (k_min + Z.of_nat i)%Z).
  assert (sse = map g (seq 0 n)) as ->.
  { rewrite (map_result_ok _ inertia) in Hsse.
    - inversion Hsse. unfold py_range. by rewrite map_map.
    - apply Forall_forall. intros j Hj. apply Hfit. unfold py_range in Hj.
      apply list_elem_of_In, in_map_iff in Hj as (m & <- & Hm).
      apply in_seq in Hm. lia. }
  pose proof (np_argmin_bound _ _ Hi) as Hbound.
  rewrite b64_length_diff_ratios, b64_length_np_diff, length_map, length_seq in Hbound.
  split; [lia |].
  rewrite b64_np_diff_seq, b64_diff_ratios_seq in Hi.
  set (ratio := λ i : nat,
         B64.np_abs_div (B64.sub (g (S (S i))) (g (S i))) (B64.sub (g (S i)) (g i))).
  fold ratio in Hi.
  assert (∀ m, (m < n - 1 - 1)%nat →
               ratio m = drop_ratio64 inertia (k_min + Z.of_nat m + 1)%Z) as Hratio.
  { intros m Hm. unfold ratio, g, drop_ratio64.
    replace (k_min + Z.of_nat (S (S m)))%Z with (k_min + Z.of_nat m + 1 + 1)%Z by lia.
    replace (k_min + Z.of_nat (S m))%Z with (k_min + Z.of_nat m + 1)%Z by lia.
    by replace (k_min + Z.of_nat m + 1 - 1)%Z with (k_min + Z.of_nat m)%Z by lia. }
  apply np_argmin_no_nan in Hi as (x & Hx & Hmin).
  2:{ apply Forall_forall. intros y Hy.
      apply list_elem_of_In, in_map_iff in Hy as (m & <- & Hm%in_seq).
      apply b64_np_abs_div_no_nan. unfold g.
      pose proof (Hdistinct (k_min + Z.of_nat (S m))%Z ltac:(lia)) as Hd.
      replace (k_min + Z.of_nat (S m) - 1)%Z with (k_min + Z.of_nat m)%Z in Hd by lia.
      done. }
  assert (∀ m, (m < n - 1 - 1)%nat →
               map ratio (seq 0 (n - 1 - 1)) !! m
               = Some (drop_ratio64 inertia (k_min + Z.of_nat m + 1)%Z)) as Hlook.
  { intros m Hm. change (map ratio ?l) with (ratio <$> l).
    rewrite list_lookup_fmap, lookup_seq_lt by done. simpl. by rewrite Hratio. }
  rewrite Hlook in Hx by lia. inversion Hx; subst x. clear Hx.
  intros j Hj.
  specialize (Hmin (Z.to_nat (j - k_min - 1))
                (drop_ratio64 inertia (k_min + Z.of_nat (Z.to_nat (j - k_min - 1)) + 1)%Z)).
  rewrite Hlook in Hmin by lia.
  replace (k_min + Z.of_nat (Z.to_nat (j - k_min - 1)) + 1)%Z with j in Hmin by lia.
  destruct (Hmin eq_refl) as [Hle Hlt]. split; [done |].
  intros Hjk. apply Hlt. lia.
Qed.
End find_optimal_k_binary64.

Lemma find_optimal_k_elbow_in_binary64_witness :
  (2 < 3 < 5)%Z ∧
  ∀ j, (2 < j < 5)%Z →
    np_ge (drop_ratio64 sample_inertia64 j) (drop_ratio64 sample_inertia64 3) = true ∧
    ((j < 3)%Z →
     np_ge (drop_ratio64 sample_inertia64 3) (drop_ratio64 sample_inertia64 j) = false).
Proof.
  apply (find_optimal_k_elbow_in_binary64 sample_fit64 plot_ok print_ok tt 2 5 3
           sample_inertia64).
  - reflexivity.
  - intros j Hj. assert (j = 3 ∨ j = 4)%Z as [-> | ->] by lia; by vm_compute.
  - intros j Hj.
    assert (j = 3 ∨ j = 4 ∨ j = 5)%Z as [-> | [-> | ->]] by lia; by vm_compute.
  - by vm_compute.
Defined.

(** Why the ratios are the computed ones: for the inertias 39.7, 19.7, 9.7
    and 4.7 the exact ratio is smaller at 4 than at 3, but both quotients
    round to the same double and [np.argmin] takes the first. *)
Lemma elbow_moved_by_rounding :
  drop_ratio sample_inertia64 4 < drop_ratio sample_inertia64 3 ∧
  drop_ratio64 sample_inertia64 4 = drop_ratio64 sample_inertia64 3 ∧
  find_optimal_k sample_fit64 plot_ok print_ok tt 2 5 = Ok 4%Z ∧
  B64.find_optimal_k sample_fit64 plot_ok print_ok tt 2 5 = Ok 3%Z.
Proof. repeat split; by vm_compute. Qed.
